(** * Spreadsheet engine: formula evaluation, dependency graph, recalculation

    A shallow embedding of [src/components/Spreadsheet.jsx]
    ([DependencyGraph], [FormulaParser] and the [Spreadsheet] component's
    [getCellValue] / [evaluateCell] / [updateCell] callbacks), together with
    the properties its specification states about them.

    Conventions of the embedding.
    - A JavaScript string is a [string] of code units below 256.
    - A JavaScript number is an IEEE-754 binary64 value, [spec_float] at
      precision 53 and maximal exponent 1024; [parseFloat] and
      [Number.prototype.toString] are written out after ECMA-262.
    - A JavaScript [Set] is a duplicate-free list in insertion order, a
      [Map] and the cell table (an object used as a dictionary) are [gmap]s.
    - The recursive graph walks and the recalculation loop take a fuel
      argument that the callers compute from the graph; running out of fuel
      is [None], and [updateCell] is proved never to run out. *)

From Stdlib Require Import ZArith String Ascii List Bool Lia.
From Stdlib Require Import Floats.SpecFloat.
From stdpp Require Import gmap strings list fin_maps.

Local Open Scope string_scope.
Local Open Scope list_scope.
Local Open Scope Z_scope.

(** ** JavaScript strings *)

Module JSString.

Definition charCode (c : ascii) : Z := Z.of_nat (nat_of_ascii c).

Definition isDigit (c : ascii) : bool :=
  (48 <=? charCode c) && (charCode c <=? 57).

(** WhiteSpace and LineTerminator code units below 256: TAB, LF, VT, FF,
    CR, SP and NBSP. This is the class of [\s] and of [trim]. *)
Definition isWhiteSpace (c : ascii) : bool :=
  let n := charCode c in
  ((9 <=? n) && (n <=? 13)) || (n =? 32) || (n =? 160).

Fixpoint filter (p : ascii -> bool) (s : string) : string :=
  match s with
  | EmptyString => EmptyString
  | String c s' => if p c then String c (filter p s') else filter p s'
  end.

Fixpoint forallb (p : ascii -> bool) (s : string) : bool :=
  match s with
  | EmptyString => true
  | String c s' => p c && forallb p s'
  end.

Fixpoint trimStart (s : string) : string :=
  match s with
  | EmptyString => EmptyString
  | String c s' => if isWhiteSpace c then trimStart s' else s
  end.

Fixpoint trimEnd (s : string) : string :=
  match s with
  | EmptyString => EmptyString
  | String c s' =>
      match trimEnd s' with
      | EmptyString => if isWhiteSpace c then EmptyString else String c EmptyString
      | t => String c t
      end
  end.

(** [s.trim()] *)
Definition trim (s : string) : string := trimEnd (trimStart s).

(** [s.startsWith(p)] *)
Definition startsWith (p s : string) : bool := String.prefix p s.

(** [s.substring(1)] *)
Definition substring1 (s : string) : string :=
  match s with
  | EmptyString => EmptyString
  | String _ s' => s'
  end.

(** [set.includes(c)] for a one-character [c] *)
Fixpoint includes (set : string) (c : ascii) : bool :=
  match set with
  | EmptyString => false
  | String d set' => Ascii.eqb c d || includes set' c
  end.

Definition isEmpty (s : string) : bool :=
  match s with EmptyString => true | _ => false end.

(** Leading characters satisfying [p], and the rest. *)
Fixpoint span (p : ascii -> bool) (s : string) : string * string :=
  match s with
  | EmptyString => (EmptyString, EmptyString)
  | String c s' =>
      if p c then let '(a, b) := span p s' in (String c a, b)
      else (EmptyString, s)
  end.

Fixpoint repeat (c : ascii) (n : nat) : string :=
  match n with
  | O => EmptyString
  | S n' => String c (repeat c n')
  end.

Fixpoint take (n : nat) (s : string) : string :=
  match n, s with
  | S n', String c s' => String c (take n' s')
  | _, _ => EmptyString
  end.

Fixpoint drop (n : nat) (s : string) : string :=
  match n, s with
  | S n', String _ s' => drop n' s'
  | _, _ => s
  end.

End JSString.

(** ** JavaScript numbers *)

Module JSNumber.
Import JSString.

Definition num : Type := spec_float.

Definition prec : Z := 53.
Definition emax : Z := 1024.

Definition NaN : num := S754_nan.

Definition isNaN (x : num) : bool :=
  match x with S754_nan => true | _ => false end.

Definition isFinite (x : num) : bool :=
  match x with S754_nan | S754_infinity _ => false | _ => true end.

Definition add : num -> num -> num := SFadd prec emax.
Definition sub : num -> num -> num := SFsub prec emax.
Definition mul : num -> num -> num := SFmul prec emax.
Definition div : num -> num -> num := SFdiv prec emax.

(** The binary64 value nearest to [m * 10^e] (ties to even), for [m >= 0]. *)
Definition ofDecimal (neg : bool) (m e : Z) : num :=
  match m with
  | Z0 => S754_zero neg
  | Zpos p =>
      if 0 <=? e then binary_round prec emax neg (Z.to_pos (Zpos p * 10 ^ e)) 0
      else
        let '(q, e', l) :=
          SFdiv_core_binary prec emax (Zpos p) 0 (10 ^ (- e)) 0 in
        binary_round_aux prec emax neg q e' l
  | Zneg _ => NaN
  end.

(** *** Decimal digits *)

Definition digitValue (c : ascii) : Z := charCode c - 48.

Definition digitChar (d : Z) : ascii := ascii_of_nat (Z.to_nat (48 + d)).

(** Value of a string of decimal digits, most significant first. *)
Fixpoint digitsValue (acc : Z) (s : string) : Z :=
  match s with
  | EmptyString => acc
  | String c s' => digitsValue (10 * acc + digitValue c) s'
  end.

Fixpoint digitsOfFuel (fuel : nat) (n : Z) (acc : string) : string :=
  match fuel with
  | O => acc
  | S f =>
      let acc' := String (digitChar (n mod 10)) acc in
      if n <? 10 then acc' else digitsOfFuel f (n / 10) acc'
  end.

(** Decimal digits of [n >= 0], most significant first, no leading zero. *)
Definition digitsOf (n : Z) : string :=
  digitsOfFuel (S (Z.to_nat (Z.log2 n))) n EmptyString.

(** *** [parseFloat] (ECMA-262 19.2.4): the longest prefix of the trimmed
    input that is a [StrDecimalLiteral]; [NaN] when there is none. *)

Definition exponentPart (s : string) : Z :=
  match s with
  | String c s1 =>
      if includes "eE" c then
        let '(neg, s2) :=
          match s1 with
          | String "-" r => (true, r)
          | String "+" r => (false, r)
          | _ => (false, s1)
          end in
        let '(ds, _) := span isDigit s2 in
        if isEmpty ds then 0
        else if neg then - digitsValue 0 ds else digitsValue 0 ds
      else 0
  | EmptyString => 0
  end.

Definition parseUnsigned (neg : bool) (s : string) : num :=
  if startsWith "Infinity" s then S754_infinity neg
  else
    let '(ip, r1) := span isDigit s in
    let '(fp, r2) :=
      match r1 with
      | String "." r =>
          let '(fp, r2) := span isDigit r in
          if isEmpty ip && isEmpty fp then (EmptyString, r1) else (fp, r2)
      | _ => (EmptyString, r1)
      end in
    if isEmpty ip && isEmpty fp then NaN
    else
      ofDecimal neg (digitsValue 0 (ip +:+ fp))
                (exponentPart r2 - Z.of_nat (String.length fp)).

Definition parseFloat (s : string) : num :=
  match trimStart s with
  | String "-" r => parseUnsigned true r
  | String "+" r => parseUnsigned false r
  | t => parseUnsigned false t
  end.

(** *** [Number::toString] (ECMA-262 6.1.6.1.20), radix 10 *)

(** [floor (x * 10^p)] and the position of [x * 10^p] between that floor
    and the next integer, for the positive rational [x = n / d]. *)
Definition scaled (n d p : Z) : Z * comparison :=
  let '(n', d') := if 0 <=? p then (n * 10 ^ p, d) else (n, d * 10 ^ (- p)) in
  (n' / d', (2 * (n' mod d') ?= d')).

Definition numEqb (x y : num) : bool :=
  match x, y with
  | S754_finite s m e, S754_finite s' m' e' =>
      Bool.eqb s s' && Pos.eqb m m' && Z.eqb e e'
  | S754_zero s, S754_zero s' => Bool.eqb s s'
  | S754_infinity s, S754_infinity s' => Bool.eqb s s'
  | S754_nan, S754_nan => true
  | _, _ => false
  end.

(** The least [n] from [n0] upwards with [x < 10^n]. *)
Fixpoint decimalExponent (fuel : nat) (n d n0 : Z) : Z :=
  match fuel with
  | O => n0
  | S f =>
      if fst (scaled n d (- n0)) <? 1 then n0
      else decimalExponent f n d (n0 + 1)
  end.

(** The digits [s], their number [k] and the exponent [n] of step 5:
    [k] is the least number of digits for which some [s * 10^(n-k)]
    converts back to [x]; of two such [s] the closer one, then the even. *)
Fixpoint shortestFrom (fuel : nat) (x : num) (n d e10 : Z) (k : Z) : Z * Z * Z :=
  let '(lo, side) := scaled n d (k - e10) in
  let hi := lo + 1 in
  let okLo := numEqb (ofDecimal false lo (e10 - k)) x in
  let okHi := numEqb (ofDecimal false hi (e10 - k)) x in
  let pick (s : Z) := if s =? 10 ^ k then (10 ^ (k - 1), k, e10 + 1) else (s, k, e10) in
  let closest :=
    match side with
    | Lt => lo
    | Gt => hi
    | Eq => if Z.even lo then lo else hi
    end in
  match fuel with
  | O => pick closest
  | S f =>
      if okLo && okHi then pick closest
      else if okLo then pick lo
      else if okHi then pick hi
      else shortestFrom f x n d e10 (k + 1)
  end.

Definition formatDecimal (s k n : Z) : string :=
  let ds := digitsOf s in
  if (k <=? n) && (n <=? 21) then ds +:+ repeat "0" (Z.to_nat (n - k))
  else if (0 <? n) && (n <=? 21) then
    take (Z.to_nat n) ds +:+ "." +:+ drop (Z.to_nat n) ds
  else if (-6 <? n) && (n <=? 0) then
    "0." +:+ repeat "0" (Z.to_nat (- n)) +:+ ds
  else
    let e := n - 1 in
    let es := (if e <? 0 then "-" else "+") +:+ digitsOf (Z.abs e) in
    if k =? 1 then ds +:+ "e" +:+ es
    else take 1 ds +:+ "." +:+ drop 1 ds +:+ "e" +:+ es.

Definition toString (x : num) : string :=
  match x with
  | S754_nan => "NaN"
  | S754_zero _ => "0"
  | S754_infinity s => if s then "-Infinity" else "Infinity"
  | S754_finite s m e =>
      let '(n, d) := if 0 <=? e then (Zpos m * 2 ^ e, 1) else (Zpos m, 2 ^ (- e)) in
      let guess := (Zpos (digits2_pos m) + e) * 30103 / 100000 - 2 in
      let e10 := decimalExponent 8 n d guess in
      let '(s10, k, n10) := shortestFrom 16 (S754_finite false m e) n d e10 1 in
      (if s then "-" else EmptyString) +:+ formatDecimal s10 k n10
  end.

End JSNumber.

(** ** Completions, arrays and sets *)

(** The outcome of a computation that may [throw new Error(msg)]. *)
Inductive completion (A : Type) : Type :=
  | Normal (a : A)
  | Throw (msg : string).
Arguments Normal {A} a.
Arguments Throw {A} msg.

(** A JavaScript [Set] of strings: a list without duplicates, in insertion
    order (the order [forEach], [for...of] and [Array.from] follow). *)
Module JSSet.

Definition has (x : string) (s : list string) : bool :=
  existsb (String.eqb x) s.

Definition add (x : string) (s : list string) : list string :=
  if has x s then s else s ++ [x].

Definition delete (x : string) (s : list string) : list string :=
  List.filter (fun y => negb (String.eqb x y)) s.

End JSSet.

(** ** class DependencyGraph *)

Record DependencyGraph : Type := {
  graph : gmap string (list string);
  reverseGraph : gmap string (list string)
}.

Module DependencyGraph.

Definition empty : DependencyGraph :=
  {| graph := ∅; reverseGraph := ∅ |}.

(** [map.get(k) || new Set()] *)
Definition getOrEmpty (m : gmap string (list string)) (k : string) : list string :=
  default [] (m !! k).

(** Creates the entry when it is missing, then adds to its set. *)
Definition addTo (m : gmap string (list string)) (k x : string)
  : gmap string (list string) :=
  <[k := JSSet.add x (getOrEmpty m k)]> m.

Definition addDependency (g : DependencyGraph) (source target : string)
  : DependencyGraph :=
  {| graph := addTo (graph g) target source;
     reverseGraph := addTo (reverseGraph g) source target |}.

Definition removeDependencies (g : DependencyGraph) (cell : string)
  : DependencyGraph :=
  match reverseGraph g !! cell with
  | Some dependencies =>
      {| graph := foldl (fun gr dep => alter (JSSet.delete cell) dep gr)
                        (graph g) dependencies;
         reverseGraph := delete cell (reverseGraph g) |}
  | None => g
  end.

Definition getDependents (g : DependencyGraph) (cell : string) : list string :=
  getOrEmpty (graph g) cell.

(** The [for (const dep of dependencies)] loop of [detectCircular], which
    returns [true] at the first recursive call that does. *)
Fixpoint anyDep (f : string -> option bool) (deps : list string) : option bool :=
  match deps with
  | [] => Some false
  | dep :: rest =>
      match f dep with
      | None => None
      | Some true => Some true
      | Some false => anyDep f rest
      end
  end.

(** [visited] is mutated by [visited.add(startCell)], but every recursive
    call receives its own copy [new Set(visited)], so it is passed by
    value. *)
Fixpoint detectCircularFuel (fuel : nat) (g : DependencyGraph)
    (startCell : string) (visited : list string) : option bool :=
  match fuel with
  | O => None
  | S fuel' =>
      if JSSet.has startCell visited then Some true
      else
        let visited := JSSet.add startCell visited in
        let dependencies := getOrEmpty (reverseGraph g) startCell in
        anyDep (fun dep => detectCircularFuel fuel' g dep visited) dependencies
  end.

(** All members of all sets of a map, with repetitions. *)
Definition members (m : gmap string (list string)) : list string :=
  mjoin (snd <$> map_to_list m).

(** [detectCircular(startCell)], with the default [visited = new Set()].
    A path of the walk never repeats a cell, and every cell after the
    first is a member of some set of [reverseGraph]. *)
Definition detectCircular (g : DependencyGraph) (startCell : string) : option bool :=
  detectCircularFuel (2 + length (members (reverseGraph g))) g startCell [].

(** [result] is one shared [Set], mutated by every call: it is threaded
    through the recursion. *)
Fixpoint getAllDependentsFuel (fuel : nat) (g : DependencyGraph)
    (cell : string) (result : list string) : option (list string) :=
  match fuel with
  | O => None
  | S fuel' =>
      let directDeps := getOrEmpty (graph g) cell in
      foldl (fun acc dep =>
               match acc with
               | None => None
               | Some result =>
                   if negb (JSSet.has dep result)
                   then getAllDependentsFuel fuel' g dep (JSSet.add dep result)
                   else Some result
               end)
            (Some result) directDeps
  end.

(** [getAllDependents(cell)], with the default [result = new Set()];
    [Array.from(result)] lists the set in insertion order. *)
Definition getAllDependents (g : DependencyGraph) (cell : string)
  : option (list string) :=
  getAllDependentsFuel (1 + length (members (graph g))) g cell [].

End DependencyGraph.

(** ** Regular expressions of the source *)

Module Regex.
Import JSString.

Definition isColumn (c : ascii) : bool :=
  (65 <=? charCode c) && (charCode c <=? 74).

Definition isRow1to9 (c : ascii) : bool :=
  (49 <=? charCode c) && (charCode c <=? 57).

(** [s.match(/[A-J](10|[1-9])/g) || []]: all matches from left to right,
    each search resuming where the previous match ended; the alternative
    [10] is tried before [[1-9]]. *)
Fixpoint matchRefs (s : string) : list string :=
  match s with
  | EmptyString => []
  | String c s1 =>
      if isColumn c then
        match s1 with
        | String "1" (String "0" s3) =>
            String c "10" :: matchRefs s3
        | String d s2 =>
            if isRow1to9 d then String c (String d EmptyString) :: matchRefs s2
            else matchRefs s1
        | EmptyString => []
        end
      else matchRefs s1
  end.

(** [s.replace(new RegExp(pat, 'g'), rep)] for a pattern that is a
    reference token: letters and digits only, so it matches itself, and it
    is never empty. [skip] counts the characters of a match still to be
    consumed. *)
Fixpoint replaceAllFrom (pat rep : string) (skip : nat) (s : string) : string :=
  match s with
  | EmptyString => EmptyString
  | String c s' =>
      match skip with
      | S k => replaceAllFrom pat rep k s'
      | O =>
          if String.prefix pat s
          then rep +:+ replaceAllFrom pat rep (String.length pat - 1) s'
          else String c (replaceAllFrom pat rep O s')
      end
  end.

Definition replaceAll (pat rep s : string) : string :=
  replaceAllFrom pat rep O s.

(** [s.replace(/\s+/g, '')] *)
Definition removeWhiteSpace (s : string) : string :=
  filter (fun c => negb (isWhiteSpace c)) s.

(** The class [[0-9+\-*/().]] *)
Definition isExprChar (c : ascii) : bool :=
  isDigit c || includes "+-*/()." c.

(** [/^[0-9+\-*/().]+$/.test(s)] *)
Definition validChars (s : string) : bool :=
  negb (isEmpty s) && forallb isExprChar s.

(** [s.replace(/[^0-9+\-*/().]/g, '')] *)
Definition keepExprChars (s : string) : string :=
  filter isExprChar s.

End Regex.

(** ** class FormulaParser *)

Import JSNumber.

Inductive token : Type :=
  | TNum (n : num)
  | TChar (c : ascii).

(** A value that is a string or a number ([result.value]). *)
Inductive jsvalue : Type :=
  | VStr (s : string)
  | VNum (n : num).

(** The object [{ value, error }] that [parse] returns; [perror] is its
    field [error]. *)
Record ParseResult : Type := {
  value : jsvalue;
  perror : option string
}.

Module FormulaParser.
Import JSString Regex.

(** The body of the [for] loop of [tokenize], then the flush after it. *)
Definition flushNumber (currentNumber : string) (tokens : list token) : list token :=
  if isEmpty currentNumber then tokens
  else tokens ++ [TNum (parseFloat currentNumber)].

Fixpoint tokenizeFrom (expr currentNumber : string) (tokens : list token)
  : list token :=
  match expr with
  | EmptyString => flushNumber currentNumber tokens
  | String char rest =>
      if includes "0123456789." char
      then tokenizeFrom rest (currentNumber +:+ String char EmptyString) tokens
      else
        let tokens := flushNumber currentNumber tokens in
        let tokens :=
          if includes "+-*/()" char then tokens ++ [TChar char] else tokens in
        tokenizeFrom rest EmptyString tokens
  end.

Definition tokenize (expr : string) : list token :=
  tokenizeFrom expr EmptyString [].

(** [precedence[c]]; [None] is [undefined]. *)
Definition precedence (c : ascii) : option nat :=
  if includes "+-" c then Some 1%nat
  else if includes "*/" c then Some 2%nat
  else None.

(** [precedence[top] >= precedence[tok]]; a comparison with [undefined]
    is [false]. *)
Definition precedenceGe (top tok : ascii) : bool :=
  match precedence top, precedence tok with
  | Some a, Some b => (b <=? a)%nat
  | _, _ => false
  end.

(** The two stacks [operators] and [stack] are lists with the top at the
    head; [output] is a list in array order. *)

(** [while (operators.length && top !== '(') output.push(operators.pop())] *)
Fixpoint popToParen (operators : list ascii) (output : list token)
  : list ascii * list token :=
  match operators with
  | [] => ([], output)
  | top :: rest =>
      if Ascii.eqb top "(" then (operators, output)
      else popToParen rest (output ++ [TChar top])
  end.

(** [while (operators.length && top !== '(' && precedence[top] >=
    precedence[tok]) output.push(operators.pop())] *)
Fixpoint popHigher (tok : ascii) (operators : list ascii) (output : list token)
  : list ascii * list token :=
  match operators with
  | [] => ([], output)
  | top :: rest =>
      if negb (Ascii.eqb top "(") && precedenceGe top tok
      then popHigher tok rest (output ++ [TChar top])
      else (operators, output)
  end.

(** One round of the first [tokens.forEach] of [calculate]. *)
Definition shunt (st : list ascii * list token) (tok : token)
  : list ascii * list token :=
  let '(operators, output) := st in
  match tok with
  | TNum _ => (operators, output ++ [tok])
  | TChar c =>
      if Ascii.eqb c "(" then (c :: operators, output)
      else if Ascii.eqb c ")" then
        let '(operators, output) := popToParen operators output in
        (tail operators, output)
      else
        let '(operators, output) := popHigher c operators output in
        (c :: operators, output)
  end.

Definition toRPN (tokens : list token) : list token :=
  let '(operators, output) := foldl shunt ([], []) tokens in
  output ++ (TChar <$> operators).

(** [stack.pop()]: [undefined], here [None], on an empty stack. *)
Definition pop (stack : list num) : option num * list num :=
  match stack with
  | [] => (None, [])
  | x :: rest => (Some x, rest)
  end.

(** An arithmetic operator on operands that may be [undefined], which
    converts to [NaN]. *)
Definition arith (op : num -> num -> num) (a b : option num) : num :=
  match a, b with
  | Some x, Some y => op x y
  | _, _ => NaN
  end.

(** The second [forEach] of [calculate]. *)
Fixpoint evalRPN (output : list token) (stack : list num)
  : completion (list num) :=
  match output with
  | [] => Normal stack
  | TNum n :: rest => evalRPN rest (n :: stack)
  | TChar c :: rest =>
      let '(b, stack) := pop stack in
      let '(a, stack) := pop stack in
      if Ascii.eqb c "+" then evalRPN rest (arith add a b :: stack)
      else if Ascii.eqb c "-" then evalRPN rest (arith sub a b :: stack)
      else if Ascii.eqb c "*" then evalRPN rest (arith mul a b :: stack)
      else if Ascii.eqb c "/" then evalRPN rest (arith div a b :: stack)
      else Throw "Unknown operator"
  end.

(** [stack[0]] is the bottom of the stack; [None] is [undefined]. *)
Definition calculate (tokens : list token) : completion (option num) :=
  match evalRPN (toRPN tokens) [] with
  | Normal stack => Normal (last stack)
  | Throw msg => Throw msg
  end.

Definition dquote : string := String (ascii_of_nat 34) EmptyString.

(** The source text handed to [Function]. *)
Definition fallbackBody (expression : string) : string :=
  dquote +:+ "use strict" +:+ dquote +:+ "; return (" +:+ expression +:+ ")".

Section Host.

(** [Function(body)()]: the host's evaluation of arbitrary source text,
    which is outside the program and left open. It throws or returns a
    value; the caller observes the value only through [isNaN],
    [isFinite] and, for a finite number, [toString], so a value that is
    not a number is [None]. *)
Variable hostFunction : string -> completion (option num).

Definition safeEvaluate (expression : string) : completion (option num) :=
  match calculate (tokenize (keepExprChars expression)) with
  | Normal result => Normal result
  | Throw _ => hostFunction (fallbackBody expression)
  end.

(** The [cellRefs.forEach] of [parse]. [getCellValue] returns a number
    or [undefined] ([None]). *)
Fixpoint substituteRefs (getCellValue : string -> option num)
    (cellRefs : list string) (evalExpression : string) : completion string :=
  match cellRefs with
  | [] => Normal evalExpression
  | ref :: rest =>
      match getCellValue ref with
      | Some v =>
          if isNaN v then Throw ("Invalid reference: " +:+ ref)
          else substituteRefs getCellValue rest
                 (replaceAll ref (toString v) evalExpression)
      | None => Throw ("Invalid reference: " +:+ ref)
      end
  end.

Definition failure (msg : string) : ParseResult :=
  {| value := VStr "#ERROR"; perror := Some msg |}.

Definition parse (formula : string) (getCellValue : string -> option num)
  : ParseResult :=
  if negb (startsWith "=" formula)
  then {| value := VStr formula; perror := None |}
  else
    let expression := trim (substring1 formula) in
    if isEmpty expression then failure "Empty formula"
    else
      let cellRefs := matchRefs expression in
      match substituteRefs getCellValue cellRefs expression with
      | Throw msg => failure msg
      | Normal evalExpression =>
          let evalExpression := removeWhiteSpace evalExpression in
          if negb (validChars evalExpression)
          then failure "Invalid characters in formula"
          else if isEmpty evalExpression
          then failure "Empty expression after replacements"
          else
            match safeEvaluate evalExpression with
            | Throw msg => failure msg
            | Normal None => failure "Invalid result"
            | Normal (Some result) =>
                if isNaN result || negb (isFinite result)
                then failure "Invalid result"
                else {| value := VNum result; perror := None |}
            end
      end.

End Host.

End FormulaParser.

(** ** The Spreadsheet component *)

(** A cell of the table. The specification calls the fields [rawInput],
    [formula], [displayValue] and [errorState]; [None] is [null]. *)
Record Cell : Type := {
  rawValue : string;
  formula : string;
  display : string;
  error : option string
}.

(** The object [{ display, formula, error }] that [evaluateCell] returns. *)
Record Evaluation : Type := {
  edisplay : string;
  eformula : string;
  eerror : option string
}.

Definition COL_LABELS : list string :=
  ["A"; "B"; "C"; "D"; "E"; "F"; "G"; "H"; "I"; "J"].

Definition ROW_LABELS : list string :=
  ["1"; "2"; "3"; "4"; "5"; "6"; "7"; "8"; "9"; "10"].

(** The identifiers of the grid, in the order the initializer creates them. *)
Definition cellIds : list string :=
  col ← COL_LABELS; (fun row => col +:+ row) <$> ROW_LABELS.

Definition emptyCell : Cell :=
  {| rawValue := EmptyString; formula := EmptyString; display := EmptyString; error := None |}.

(** The initial state of [useState]. *)
Definition initialCells : gmap string Cell :=
  list_to_map ((fun id => (id, emptyCell)) <$> cellIds).

Module Spreadsheet.
Import JSString Regex.

Definition getCellValue (cells : gmap string Cell) (cellId : string) : option num :=
  match cells !! cellId with
  | None => None
  | Some cell =>
      if String.eqb (display cell) "#CIRCULAR" || String.eqb (display cell) "#ERROR"
      then None
      else
        let n := parseFloat (display cell) in
        if isNaN n then None else Some n
  end.

(** [result.value.toString()] *)
Definition valueToString (v : jsvalue) : string :=
  match v with
  | VStr s => s
  | VNum n => toString n
  end.

(** [result.value === '#ERROR'] *)
Definition isErrorValue (v : jsvalue) : bool :=
  match v with
  | VStr s => String.eqb s "#ERROR"
  | VNum _ => false
  end.

Section Host.

Variable hostFunction : string -> completion (option num).

(** [evaluateCell(cellId, formula)]. Both call sites pass [formula], so
    the default [formula = null], which would read [cells[cellId]], is
    left out. [cells] is the table the callback closed over; the graph
    is the mutable [dependencyGraph.current] and is threaded. *)
Definition evaluateCell (cells : gmap string Cell) (g : DependencyGraph)
    (cellId : string) (cellFormula : string)
  : option (Evaluation * DependencyGraph) :=
  let g := DependencyGraph.removeDependencies g cellId in
  if isEmpty cellFormula || negb (startsWith "=" cellFormula)
  then Some ({| edisplay := cellFormula; eformula := cellFormula;
                eerror := None |}, g)
  else
    let cellRefs := matchRefs cellFormula in
    let g := foldl (fun g ref => DependencyGraph.addDependency g cellId ref)
                   g cellRefs in
    match DependencyGraph.detectCircular g cellId with
    | None => None
    | Some true =>
        Some ({| edisplay := "#CIRCULAR"; eformula := cellFormula;
                 eerror := Some "Circular reference detected" |}, g)
    | Some false =>
        let result :=
          FormulaParser.parse hostFunction cellFormula (getCellValue cells) in
        if isErrorValue (value result)
        then Some ({| edisplay := "#ERROR"; eformula := cellFormula;
                      eerror := perror result |}, g)
        else Some ({| edisplay := valueToString (value result);
                      eformula := cellFormula; eerror := None |}, g)
    end.

(** The state of the [while (recalcQueue.length > 0)] loop; [evaluated]
    records, in order, the cells the loop passed to [evaluateCell]. *)
Record Recalc : Type := {
  newCells : gmap string Cell;
  rgraph : DependencyGraph;
  visited : list string;
  recalcQueue : list string;
  evaluated : list string
}.

Definition withQueue (s : Recalc) (visited' queue : list string) : Recalc :=
  {| newCells := newCells s; rgraph := rgraph s; visited := visited';
     recalcQueue := queue; evaluated := evaluated s |}.

(** One round of the loop, after [recalcQueue.shift()] returned
    [dependentId] and left [queue]. *)
Definition recalcRound (cells : gmap string Cell) (s : Recalc)
    (dependentId : string) (queue : list string) : option Recalc :=
  if JSSet.has dependentId (visited s)
  then Some (withQueue s (visited s) queue)
  else
    let visited' := JSSet.add dependentId (visited s) in
    match newCells s !! dependentId with
    | None => Some (withQueue s visited' queue)
    | Some dependentCell =>
        if isEmpty (formula dependentCell)
        then Some (withQueue s visited' queue)
        else
          match evaluateCell cells (rgraph s) dependentId
                             (formula dependentCell) with
          | None => None
          | Some (result, g) =>
              match DependencyGraph.getAllDependents g dependentId with
              | None => None
              | Some nextDeps =>
                  Some {| newCells :=
                            <[dependentId :=
                                {| rawValue := rawValue dependentCell;
                                   formula := formula dependentCell;
                                   display := edisplay result;
                                   error := eerror result |}]>
                              (newCells s);
                          rgraph := g;
                          visited := visited';
                          recalcQueue :=
                            queue ++
                            List.filter
                              (fun dep => negb (JSSet.has dep visited'))
                              nextDeps;
                          evaluated := evaluated s ++ [dependentId] |}
              end
          end
    end.

Fixpoint recalcLoop (fuel : nat) (cells : gmap string Cell) (s : Recalc)
  : option Recalc :=
  match recalcQueue s with
  | [] => Some s
  | dependentId :: queue =>
      match fuel with
      | O => None
      | S fuel' =>
          match recalcRound cells s dependentId queue with
          | None => None
          | Some s' => recalcLoop fuel' cells s'
          end
      end
  end.

(** A bound on the rounds of the loop: every cell it meets is a member
    of the graph, each is evaluated at most once, and one evaluation
    adds at most all of them to the queue. *)
Definition recalcFuel (g : DependencyGraph) (dependents : list string) : nat :=
  let n := length (DependencyGraph.members (graph g)) in
  (length dependents + n * n)%nat.

(** The updater [prev => ...] that [updateCell(cellId, rawValue)] hands
    to [setCells], run on the table [prev] and the graph [g]. [cells] is
    the table of the render in which the callbacks were created:
    [evaluateCell] and [getCellValue] read it, not [newCells]. *)
Definition updateCellFrom (cells prev : gmap string Cell) (g : DependencyGraph)
    (cellId rawValue : string) : option Recalc :=
  match evaluateCell cells g cellId rawValue with
  | None => None
  | Some (cellResult, g) =>
      let newCells :=
        <[cellId := {| rawValue := rawValue;
                       formula := eformula cellResult;
                       display := edisplay cellResult;
                       error := eerror cellResult |}]> prev in
      match DependencyGraph.getAllDependents g cellId with
      | None => None
      | Some dependents =>
          recalcLoop (recalcFuel g dependents) cells
            {| newCells := newCells; rgraph := g; visited := [cellId];
               recalcQueue := dependents; evaluated := [] |}
      end
  end.

(** The engine between two edits: the committed cell table and the
    dependency graph. *)
Record State : Type := {
  cells : gmap string Cell;
  dependencyGraph : DependencyGraph
}.

Definition initialState : State :=
  {| cells := initialCells; dependencyGraph := DependencyGraph.empty |}.

(** One edit, [onUpdate(cellId, rawValue)], made on the rendered grid.
    [useCallback] rebuilds the three callbacks whenever [cells]
    changes, so the table they closed over is the committed one, which
    is also the [prev] the updater receives. The effect that seeds A1,
    B1 and C1 when the component mounts belongs to its start-up and is
    not part of the engine. *)
Definition updateCell (st : State) (cellId rawValue : string) : option State :=
  match updateCellFrom (cells st) (cells st) (dependencyGraph st)
                       cellId rawValue with
  | None => None
  | Some r => Some {| cells := newCells r; dependencyGraph := rgraph r |}
  end.

(** The cells the edit re-evaluated after the edited one, in order. *)
Definition recalculated (st : State) (cellId rawValue : string)
  : option (list string) :=
  evaluated <$> updateCellFrom (cells st) (cells st) (dependencyGraph st)
                               cellId rawValue.

(** A sequence of edits, each made after the previous one was rendered. *)
Fixpoint updateCells (st : State) (edits : list (string * string))
  : option State :=
  match edits with
  | [] => Some st
  | (cellId, rawValue) :: rest =>
      match updateCell st cellId rawValue with
      | None => None
      | Some st' => updateCells st' rest
      end
  end.

End Host.

End Spreadsheet.

(** A host that refuses dynamic code evaluation, as a page served under a
    content security policy without [unsafe-eval] does: [Function(body)]
    throws an [EvalError]. *)
Definition refusingHost (body : string) : completion (option num) :=
  Throw "Code generation from strings disallowed for this context".

(** * Vocabulary of the properties *)

(** What one call of [getAllDependents] guarantees about the shared set. *)
Definition extends (N : gset string) (result r : list string) : Prop :=
  (∀ x, x ∈ result → x ∈ r) ∧
  (∀ x, x ∈ r → x ∈ result ∨ x ∈ N) ∧
  (NoDup result → NoDup r).


(** A raw input is a formula when it starts with [=]. *)
Definition isFormula (f : string) : bool := JSString.startsWith "=" f.

(** The reference tokens of a cell's text: those of a formula, none for a
    literal. *)
Definition precedentsOf (f : string) : list string :=
  if isFormula f then Regex.matchRefs f else [].

(** [x] is recorded as a dependent of [k] (forward index), and [k] as a
    precedent of [x] (reverse index). *)
Definition dependsOn (g : DependencyGraph) (x k : string) : Prop :=
  x ∈ DependencyGraph.getOrEmpty (graph g) k.

Definition hasPrecedent (g : DependencyGraph) (x k : string) : Prop :=
  k ∈ DependencyGraph.getOrEmpty (reverseGraph g) x.

(** The two reserved display strings. *)
Definition sentinel (s : string) : Prop := s = "#ERROR" ∨ s = "#CIRCULAR".

(** The text held by a cell of a table; the empty text where there is no
    such cell. *)
Definition formulaAt (tbl : gmap string Cell) (x : string) : string :=
  match tbl !! x with
  | Some c => formula c
  | None => EmptyString
  end.

(** The record written for a cell [evaluateCell] was run on. *)
Definition committed (rv f : string) (r : Evaluation) : Cell :=
  {| rawValue := rv; formula := f; display := edisplay r; error := eerror r |}.

(** A cell record agrees with itself: [formula] repeats [rawValue]; an
    error reason comes with a sentinel; a formula that displays a sentinel
    has a reason; a literal displays its own text and has no reason. *)
Definition cellConsistent (c : Cell) : Prop :=
  formula c = rawValue c ∧
  (error c ≠ None → sentinel (display c)) ∧
  (if isFormula (rawValue c)
   then sentinel (display c) → error c ≠ None
   else error c = None ∧ display c = rawValue c).

(** The edges of the graph are those of the texts in the table, in both
    indexes. *)
Definition edgesMatch (tbl : gmap string Cell) (g : DependencyGraph) : Prop :=
  ∀ x k, (hasPrecedent g x k ↔ k ∈ precedentsOf (formulaAt tbl x)) ∧
         (dependsOn g x k ↔ hasPrecedent g x k).

(** States the engine reaches from the empty grid by edits of grid cells. *)
Inductive reachable (hostFunction : string → completion (option num))
  : Spreadsheet.State → Prop :=
  | reachable_initial : reachable hostFunction Spreadsheet.initialState
  | reachable_edit (st st' : Spreadsheet.State) (cellId rawValue : string) :
      reachable hostFunction st →
      cellId ∈ cellIds →
      Spreadsheet.updateCell hostFunction st cellId rawValue = Some st' →
      reachable hostFunction st'.

(** The measure of the loop: the queue, and for each member of the graph
    not yet visited the most one evaluation can add to the queue. *)
Definition recalcBounded (N : gset string) (n : nat) (s : Spreadsheet.Recalc)
    (fuel : nat) : Prop :=
  (∀ x, x ∈ Spreadsheet.recalcQueue s → x ∈ N) ∧
  (∀ x, x ∈ DependencyGraph.members (graph (Spreadsheet.rgraph s)) → x ∈ N) ∧
  (length (Spreadsheet.recalcQueue s) +
   n * size (N ∖ list_to_set (Spreadsheet.visited s)) ≤ fuel)%nat.

(** The characters of a printed number. *)
Definition isNumberChar (c : ascii) : bool :=
  JSString.isDigit c || JSString.includes "-+.eNaInfinity" c.


Definition allConsistent (tbl : gmap string Cell) : Prop :=
  ∀ id c, tbl !! id = Some c → cellConsistent c.

Definition gridOnly (tbl : gmap string Cell) : Prop :=
  ∀ x, is_Some (tbl !! x) → x ∈ cellIds.

(** What holds of the table and the graph between edits. *)
Definition engineInvariant (tbl : gmap string Cell) (g : DependencyGraph) : Prop :=
  allConsistent tbl ∧ edgesMatch tbl g ∧ gridOnly tbl.

(** The state after a list of edits of the empty grid, each rendered
    before the next. [updateCell] always returns, so the default is never
    taken. *)
Definition stateAfter (hostFunction : string → completion (option num))
    (edits : list (string * string)) : Spreadsheet.State :=
  default Spreadsheet.initialState
          (Spreadsheet.updateCells hostFunction Spreadsheet.initialState edits).

Definition cellAt (st : Spreadsheet.State) (x : string) : option Cell :=
  Spreadsheet.cells st !! x.

Definition displayAt (st : Spreadsheet.State) (x : string) : option string :=
  display <$> cellAt st x.

(** The record of a cell caught in a cycle. *)
Definition circularCell (f : string) : Cell :=
  {| rawValue := f; formula := f; display := "#CIRCULAR";
     error := Some "Circular reference detected" |}.

(** A reference the resolver [getCellValue] gives no value for: the cell
    shows a sentinel, or its display does not start with a number (the
    empty display included). *)
Definition invalidReference (tbl : gmap string Cell) (ref : string) : Prop :=
  match tbl !! ref with
  | None => True
  | Some c =>
      display c = "#ERROR" ∨ display c = "#CIRCULAR" ∨
      isNaN (parseFloat (display c)) = true
  end.

(** The graph [evaluateCell] runs the cycle check on. *)
Definition rewired (g : DependencyGraph) (cellId f : string) : DependencyGraph :=
  foldl (fun g ref => DependencyGraph.addDependency g cellId ref)
        (DependencyGraph.removeDependencies g cellId) (precedentsOf f).

(** What the loop keeps about the cells it evaluated: no cell twice, never
    the edited cell, only cells it marked visited and found in the table. *)
Definition evaluatedOnce (cellId : string) (s : Spreadsheet.Recalc) : Prop :=
  NoDup (Spreadsheet.evaluated s) ∧
  cellId ∈ Spreadsheet.visited s ∧
  (∀ x, x ∈ Spreadsheet.evaluated s →
        x ∈ Spreadsheet.visited s ∧ x ≠ cellId ∧
        is_Some (Spreadsheet.newCells s !! x)).

(** * Vocabulary of the further properties *)

(** ** Paths in the graph *)

(** From [c], following precedents, some cell is reached that lies on a
    cycle. *)
Definition reachesCycle (g : DependencyGraph) (c : string) : Prop :=
  ∃ x, rtc (hasPrecedent g) c x ∧ tc (hasPrecedent g) x x.

(** [y] is a direct dependent of [x] in the forward index. *)
Definition feeds (g : DependencyGraph) (x y : string) : Prop := dependsOn g y x.

(** What the walk of [detectCircular] finds from [c] with the cells [vis]
    on its path: a precedent edge back into the path, after any number of
    edges through cells not on it. *)
Inductive closesPath (g : DependencyGraph) : list string → string → Prop :=
  | closesPath_hit (vis : list string) (c : string) :
      c ∈ vis → closesPath g vis c
  | closesPath_step (vis : list string) (c d : string) :
      c ∉ vis → hasPrecedent g c d → closesPath g (JSSet.add c vis) d →
      closesPath g vis c.

(** ** Arithmetic expressions in the usual grammar *)

(** Sums of products of operands, the operators associating to the left;
    [A] is the type of the operands. *)
Inductive additive : Type := Plus | Minus.
Inductive multiplicative : Type := Times | Divide.

Inductive arithExpr (A : Type) : Type :=
  | ofTerm (t : arithTerm A)
  | binAdd (e : arithExpr A) (o : additive) (t : arithTerm A)
with arithTerm (A : Type) : Type :=
  | ofFactor (f : arithFactor A)
  | binMul (t : arithTerm A) (o : multiplicative) (f : arithFactor A)
with arithFactor (A : Type) : Type :=
  | operand (a : A)
  | parenthesised (e : arithExpr A).

Arguments ofTerm {A} t.
Arguments binAdd {A} e o t.
Arguments ofFactor {A} f.
Arguments binMul {A} t o f.
Arguments operand {A} a.
Arguments parenthesised {A} e.

Scheme arithExpr_mut := Induction for arithExpr Sort Prop
  with arithTerm_mut := Induction for arithTerm Sort Prop
  with arithFactor_mut := Induction for arithFactor Sort Prop.
Combined Scheme arith_mutind from arithExpr_mut, arithTerm_mut, arithFactor_mut.

Definition addChar (o : additive) : ascii :=
  match o with Plus => "+"%char | Minus => "-"%char end.
Definition mulChar (o : multiplicative) : ascii :=
  match o with Times => "*"%char | Divide => "/"%char end.
Definition addFun (o : additive) : num → num → num :=
  match o with Plus => add | Minus => sub end.
Definition mulFun (o : multiplicative) : num → num → num :=
  match o with Times => mul | Divide => div end.

(** The value of an expression, its operands read by [val]. *)
Fixpoint evalE {A} (val : A → num) (e : arithExpr A) : num :=
  match e with
  | ofTerm t => evalT val t
  | binAdd e o t => addFun o (evalE val e) (evalT val t)
  end
with evalT {A} (val : A → num) (t : arithTerm A) : num :=
  match t with
  | ofFactor f => evalF val f
  | binMul t o f => mulFun o (evalT val t) (evalF val f)
  end
with evalF {A} (val : A → num) (f : arithFactor A) : num :=
  match f with
  | operand a => val a
  | parenthesised e => evalE val e
  end.

(** The token array of an expression, in infix order. *)
Fixpoint tokensE {A} (val : A → num) (e : arithExpr A) : list token :=
  match e with
  | ofTerm t => tokensT val t
  | binAdd e o t => tokensE val e ++ TChar (addChar o) :: tokensT val t
  end
with tokensT {A} (val : A → num) (t : arithTerm A) : list token :=
  match t with
  | ofFactor f => tokensF val f
  | binMul t o f => tokensT val t ++ TChar (mulChar o) :: tokensF val f
  end
with tokensF {A} (val : A → num) (f : arithFactor A) : list token :=
  match f with
  | operand a => [TNum (val a)]
  | parenthesised e => TChar "(" :: tokensE val e ++ [TChar ")"]
  end.

(** The same tokens in postfix order. *)
Fixpoint postfixE {A} (val : A → num) (e : arithExpr A) : list token :=
  match e with
  | ofTerm t => postfixT val t
  | binAdd e o t => postfixE val e ++ postfixT val t ++ [TChar (addChar o)]
  end
with postfixT {A} (val : A → num) (t : arithTerm A) : list token :=
  match t with
  | ofFactor f => postfixF val f
  | binMul t o f => postfixT val t ++ postfixF val f ++ [TChar (mulChar o)]
  end
with postfixF {A} (val : A → num) (f : arithFactor A) : list token :=
  match f with
  | operand a => [TNum (val a)]
  | parenthesised e => postfixE val e
  end.

(** The text of an expression whose operands are numerals. *)
Fixpoint printE (e : arithExpr string) : string :=
  match e with
  | ofTerm t => printT t
  | binAdd e o t => printE e +:+ String (addChar o) (printT t)
  end
with printT (t : arithTerm string) : string :=
  match t with
  | ofFactor f => printF f
  | binMul t o f => printT t +:+ String (mulChar o) (printF f)
  end
with printF (f : arithFactor string) : string :=
  match f with
  | operand a => a
  | parenthesised e => String "(" (printE e +:+ ")")
  end.

(** A numeral is a non-empty run of digits and dots, the characters the
    tokenizer collects into one number. *)
Definition isNumberText (c : ascii) : bool := JSString.includes "0123456789." c.
Definition isNumeral (s : string) : bool :=
  negb (JSString.isEmpty s) && JSString.forallb isNumberText s.

Fixpoint numeralsE (e : arithExpr string) : bool :=
  match e with
  | ofTerm t => numeralsT t
  | binAdd e _ t => numeralsE e && numeralsT t
  end
with numeralsT (t : arithTerm string) : bool :=
  match t with
  | ofFactor f => numeralsF f
  | binMul t _ f => numeralsT t && numeralsF f
  end
with numeralsF (f : arithFactor string) : bool :=
  match f with
  | operand a => isNumeral a
  | parenthesised e => numeralsE e
  end.

(** The stack of pending operators of an operand position: at most one
    multiplicative above at most one additive operator. *)
Definition pendingMul (m : option multiplicative) : list ascii :=
  match m with Some o => [mulChar o] | None => [] end.
Definition pendingAdd (a : option additive) : list ascii :=
  match a with Some o => [addChar o] | None => [] end.

(** The operator stack below an expression: empty or an open parenthesis. *)
Definition stackBase (ops : list ascii) : Prop :=
  ops = [] ∨ ∃ rest, ops = "("%char :: rest.

(** The next character, if any, would extend a number. *)
Definition startsNumber (rest : string) : bool :=
  match rest with
  | String c _ => isNumberText c
  | EmptyString => false
  end.

(** ** Evaluations *)

(** What [evaluateCell] makes of the result of [parse], for a formula that
    is not caught in a cycle. *)
Definition compiled (hostFunction : string → completion (option num))
    (cells : gmap string Cell) (f : string) : Evaluation :=
  let result :=
    FormulaParser.parse hostFunction f (Spreadsheet.getCellValue cells) in
  if Spreadsheet.isErrorValue (value result)
  then {| edisplay := "#ERROR"; eformula := f; eerror := perror result |}
  else {| edisplay := Spreadsheet.valueToString (value result);
          eformula := f; eerror := None |}.

(** The record of a cell whose formula is in error for the reason [msg]. *)
Definition errorCell (f msg : string) : Cell :=
  {| rawValue := f; formula := f; display := "#ERROR"; error := Some msg |}.

(** The record of a cell whose formula has the value [v]. *)
Definition valueCell (f : string) (v : num) : Cell :=
  {| rawValue := f; formula := f; display := toString v; error := None |}.

(** The record of a cell that holds the literal [text]. *)
Definition literalCell (text : string) : Cell :=
  {| rawValue := text; formula := text; display := text; error := None |}.

(** ** References between the texts of a table *)

(** The text of [y] has [x] among its reference tokens. *)
Definition refersTo (tbl : gmap string Cell) (x y : string) : Prop :=
  x ∈ precedentsOf (formulaAt tbl y).

(** ** The recalculation loop *)

(** Every cell other than the edited one holds its previous record until
    the loop evaluates it; an evaluated cell holds the record committed
    from its previous one and an evaluation of its previous formula against
    the table [cells] the callbacks closed over. *)
Definition framed (hostFunction : string → completion (option num))
    (cells prev : gmap string Cell) (cellId : string) (s : Spreadsheet.Recalc) : Prop :=
  cellId ∈ Spreadsheet.visited s ∧
  (∀ x, x ∈ Spreadsheet.evaluated s → x ∈ Spreadsheet.visited s) ∧
  (∀ x, x ≠ cellId → x ∉ Spreadsheet.evaluated s →
        Spreadsheet.newCells s !! x = prev !! x) ∧
  (∀ x, x ∈ Spreadsheet.evaluated s →
        ∃ c r ga gb,
          prev !! x = Some c ∧ JSString.isEmpty (formula c) = false ∧
          Spreadsheet.evaluateCell hostFunction cells ga x (formula c) = Some (r, gb) ∧
          Spreadsheet.newCells s !! x = Some (committed (rawValue c) (formula c) r)).

(** The loop sweeps the transitive dependents of the edited cell in the
    graph [g1] of the table [table1] it started from: the texts and so the
    edges stay, the queue holds dependents only, every dependent is visited
    or queued, and a visited cell other than the edited one was evaluated. *)
Definition sweeping (table1 : gmap string Cell) (g1 : DependencyGraph)
    (cellId : string) (s : Spreadsheet.Recalc) : Prop :=
  edgesMatch (Spreadsheet.newCells s) (Spreadsheet.rgraph s) ∧
  (∀ x, formulaAt (Spreadsheet.newCells s) x = formulaAt table1 x) ∧
  (∀ y, y ∈ Spreadsheet.recalcQueue s → tc (feeds g1) cellId y) ∧
  (∀ y, tc (feeds g1) cellId y →
        y ∈ Spreadsheet.visited s ∨ y ∈ Spreadsheet.recalcQueue s) ∧
  (∀ y, y ∈ Spreadsheet.visited s → y = cellId ∨ y ∈ Spreadsheet.evaluated s) ∧
  (∀ y, y ∈ Spreadsheet.evaluated s → tc (feeds g1) cellId y).

(** ** Tokens without an opening parenthesis *)

Definition isOperator (c : ascii) : bool := JSString.includes "+-*/" c.

(** A token the second loop of [calculate] accepts. *)
Definition operatorToken (t : token) : Prop :=
  match t with
  | TNum _ => True
  | TChar c => isOperator c = true
  end.

(** A token other than the opening parenthesis. *)
Definition closingToken (t : token) : Prop :=
  match t with
  | TNum _ => True
  | TChar c => isOperator c = true ∨ c = ")"%char
  end.

(** The text has no opening parenthesis. *)
Definition noOpening (s : string) : bool :=
  JSString.forallb (fun c => negb (Ascii.eqb c "(")) s.

(** ** The component Cell *)

Module CellComponent.

(** The truth value of a property that is [null], [undefined] or a string. *)
Definition truthy (v : option string) : bool :=
  match v with
  | Some s => negb (JSString.isEmpty s)
  | None => false
  end.

(** [cell?.rawValue || ''] and [cell?.display || ''], the properties
    [value] and [display] the grid passes to the cell [cellId]. *)
Definition valueProp (cells : gmap string Cell) (cellId : string) : string :=
  match cells !! cellId with
  | Some cell => if JSString.isEmpty (rawValue cell) then EmptyString else rawValue cell
  | None => EmptyString
  end.

Definition displayProp (cells : gmap string Cell) (cellId : string) : string :=
  match cells !! cellId with
  | Some cell => if JSString.isEmpty (display cell) then EmptyString else display cell
  | None => EmptyString
  end.

(** [cell?.error] *)
Definition errorProp (cells : gmap string Cell) (cellId : string) : option string :=
  match cells !! cellId with
  | Some cell => error cell
  | None => None
  end.

Definition getDisplayValue (display : string) : string :=
  if String.eqb display "#CIRCULAR" || String.eqb display "#ERROR"
  then display
  else if JSString.isEmpty display then EmptyString else display.

Definition getCellClass (isEditing : bool) (error : option string)
    (display : string) : string :=
  let className := "cell" in
  let className := if isEditing then className +:+ " editing" else className in
  if truthy error || String.eqb display "#CIRCULAR" || String.eqb display "#ERROR"
  then className +:+ " error"
  else className.

(** [handleSubmit] of the cell [id] holding [editValue] in its input, with
    [onUpdate] the [updateCell] of the grid: the state of the engine after
    it. Leaving the editing mode does not concern the engine. *)
Definition handleSubmit (hostFunction : string → completion (option num))
    (st : Spreadsheet.State) (id editValue : string) : option Spreadsheet.State :=
  if negb (String.eqb editValue (valueProp (Spreadsheet.cells st) id))
  then Spreadsheet.updateCell hostFunction st id editValue
  else Some st.

End CellComponent.

(** ** A host that evaluates *)

(** The number of opening parentheses of a text. *)
Fixpoint openings (s : string) : nat :=
  match s with
  | EmptyString => O
  | String c s' => ((if Ascii.eqb c "(" then 1 else 0) + openings s')%nat
  end.

(** A host that answers, with a value that is not a number, every body
    whose only opening parenthesis is the one of [return (], and refuses
    the others. *)
Definition plainHost (body : string) : completion (option num) :=
  if (openings body <=? 1)%nat then Normal None else refusingHost body.

(** * Supporting lemmas *)

(** ** Sets *)

Lemma has_true (x : string) (s : list string) : JSSet.has x s = true ↔ x ∈ s.
Proof.
  unfold JSSet.has. rewrite existsb_exists. split.
  - intros (y & Hy & He). apply String.eqb_eq in He. subst y.
    by apply list_elem_of_In.
  - intros H. exists x. split; [by apply list_elem_of_In | apply String.eqb_refl].
Qed.

Lemma has_false (x : string) (s : list string) : JSSet.has x s = false ↔ x ∉ s.
Proof.
  rewrite <- has_true. destruct (JSSet.has x s); split; congruence.
Qed.

Lemma add_elem (x y : string) (s : list string) :
  y ∈ JSSet.add x s ↔ y = x ∨ y ∈ s.
Proof.
  unfold JSSet.add. destruct (JSSet.has x s) eqn:E.
  - apply has_true in E. split; [auto | intros [-> | ?]; auto].
  - rewrite elem_of_app, list_elem_of_singleton. tauto.
Qed.

Lemma add_NoDup (x : string) (s : list string) : NoDup s → NoDup (JSSet.add x s).
Proof.
  intros H. unfold JSSet.add. destruct (JSSet.has x s) eqn:E; [done |].
  apply has_false in E. apply NoDup_app. split_and!; [done | | apply NoDup_singleton].
  intros y Hy Hy'. apply list_elem_of_singleton in Hy'. by subst.
Qed.

Lemma delete_elem (x y : string) (s : list string) :
  y ∈ JSSet.delete x s ↔ y ≠ x ∧ y ∈ s.
Proof.
  unfold JSSet.delete. rewrite list_elem_of_In, filter_In, <- list_elem_of_In.
  rewrite negb_true_iff. split.
  - intros [H E]. split; [| done]. intros ->. by rewrite String.eqb_refl in E.
  - intros [H E]. split; [done |]. apply String.eqb_neq. congruence.
Qed.

Lemma add_to_set (x : string) (s : list string) :
  list_to_set (C := gset string) (JSSet.add x s) = {[x]} ∪ list_to_set s.
Proof.
  apply set_eq. intros y.
  rewrite elem_of_union, elem_of_singleton, !elem_of_list_to_set. apply add_elem.
Qed.

(** ** Members of the graph *)

Lemma members_elem (m : gmap string (list string)) (x : string) :
  x ∈ DependencyGraph.members m ↔ ∃ k s, m !! k = Some s ∧ x ∈ s.
Proof.
  unfold DependencyGraph.members. rewrite list_elem_of_join. split.
  - intros (l & Hx & Hl). apply list_elem_of_fmap in Hl as ([k s] & -> & Hks).
    apply elem_of_map_to_list in Hks. by exists k, s.
  - intros (k & s & Hks & Hx). exists s. split; [done |].
    apply list_elem_of_fmap. exists (k, s). split; [done |].
    by apply elem_of_map_to_list.
Qed.

Lemma getOrEmpty_members (m : gmap string (list string)) (k x : string) :
  x ∈ DependencyGraph.getOrEmpty m k → x ∈ DependencyGraph.members m.
Proof.
  unfold DependencyGraph.getOrEmpty. intros H. apply members_elem.
  destruct (m !! k) as [s |] eqn:E; simpl in H.
  - by exists k, s.
  - by apply not_elem_of_nil in H.
Qed.

Lemma size_list_to_set_le (l : list string) :
  (size (list_to_set (C := gset string) l) ≤ length l)%nat.
Proof.
  induction l as [| x l IH].
  - rewrite list_to_set_nil, size_empty. done.
  - rewrite list_to_set_cons. cbn [length].
    rewrite size_union_alt, size_singleton.
    assert (size (list_to_set (C := gset string) l ∖ {[x]}) ≤ size (list_to_set (C := gset string) l))%nat
      by (apply subseteq_size; set_solver).
    lia.
Qed.

(** Marking a member that was not marked leaves fewer unmarked members. *)
Lemma size_unmarked_add (N : gset string) (x : string) (s : list string) :
  x ∈ N → x ∉ s →
  (S (size (N ∖ list_to_set (JSSet.add x s))) = size (N ∖ list_to_set s))%nat.
Proof.
  intros HN Hs. rewrite add_to_set.
  assert (N ∖ list_to_set s = {[x]} ∪ N ∖ ({[x]} ∪ list_to_set s)) as ->.
  { apply set_eq. intros y. rewrite !elem_of_union, !elem_of_difference,
      elem_of_union, elem_of_singleton, !elem_of_list_to_set.
    destruct (decide (y = x)) as [-> | ?]; [tauto | tauto]. }
  rewrite (size_union (C := gset string) {[x]} (N ∖ ({[x]} ∪ list_to_set s))),
    size_singleton; [done |].
  set_solver.
Qed.

Lemma size_unmarked_mono (N : gset string) (s t : list string) :
  (∀ x, x ∈ s → x ∈ t) →
  (size (N ∖ list_to_set t) ≤ size (N ∖ list_to_set s))%nat.
Proof.
  intros H. apply subseteq_size. intros y.
  rewrite !elem_of_difference, !elem_of_list_to_set. naive_solver.
Qed.

(** ** The cycle check returns *)

Lemma anyDep_is_Some (f : string → option bool) (deps : list string) :
  (∀ d, d ∈ deps → is_Some (f d)) → is_Some (DependencyGraph.anyDep f deps).
Proof.
  induction deps as [| d deps IH]; intros H; simpl; [by eexists |].
  destruct (H d) as [b Hb]; [by left |]. rewrite Hb.
  destruct b; [by eexists |]. apply IH. intros d' Hd'. apply H. by right.
Qed.

Lemma anyDep_true (f : string → option bool) (deps : list string) (d : string) :
  (∀ d, d ∈ deps → is_Some (f d)) → d ∈ deps → f d = Some true →
  DependencyGraph.anyDep f deps = Some true.
Proof.
  induction deps as [| d' deps IH]; intros H Hd Hf; simpl.
  - by apply not_elem_of_nil in Hd.
  - destruct (H d') as [b Hb]; [by left |]. rewrite Hb. destruct b; [done |].
    apply elem_of_cons in Hd as [-> | Hd]; [congruence |].
    apply IH; [| done | done]. intros d'' Hd''. apply H. by right.
Qed.

Lemma detectCircularFuel_is_Some (g : DependencyGraph) (N : gset string) :
  (∀ x, x ∈ DependencyGraph.members (reverseGraph g) → x ∈ N) →
  ∀ (fuel : nat) (startCell : string) (visited : list string),
    startCell ∈ N → (size (N ∖ list_to_set visited) < fuel)%nat →
    is_Some (DependencyGraph.detectCircularFuel fuel g startCell visited).
Proof.
  intros HN. induction fuel as [| fuel IH]; intros startCell visited Hs Hf; [lia |].
  simpl. destruct (JSSet.has startCell visited) eqn:E; [by eexists |].
  apply has_false in E. apply anyDep_is_Some. intros d Hd.
  apply IH; [by apply HN, (getOrEmpty_members _ startCell) |].
  pose proof (size_unmarked_add N startCell visited Hs E). lia.
Qed.

Lemma size_with_cell (cell : string) (l : list string) :
  (size ({[cell]} ∪ list_to_set (C := gset string) l) ≤ 1 + length l)%nat.
Proof.
  rewrite size_union_alt, size_singleton.
  pose proof (size_list_to_set_le l).
  assert (size (list_to_set (C := gset string) l ∖ {[cell]})
          ≤ size (list_to_set (C := gset string) l))%nat
    by (apply subseteq_size; set_solver).
  lia.
Qed.

Lemma detectCircular_is_Some (g : DependencyGraph) (cell : string) :
  is_Some (DependencyGraph.detectCircular g cell).
Proof.
  unfold DependencyGraph.detectCircular.
  set (N := ({[cell]} ∪ list_to_set (DependencyGraph.members (reverseGraph g)) : gset string)).
  apply (detectCircularFuel_is_Some g N).
  - intros x Hx. subst N. apply elem_of_union_r. by apply elem_of_list_to_set.
  - subst N. set_solver.
  - pose proof (size_with_cell cell (DependencyGraph.members (reverseGraph g))).
    assert (size (N ∖ list_to_set []) ≤ size N)%nat
      by (apply subseteq_size; set_solver).
    subst N. lia.
Qed.

(** ** The transitive-dependents walk returns *)

Lemma extends_refl (N : gset string) (r : list string) : extends N r r.
Proof. unfold extends. naive_solver. Qed.

Lemma extends_trans (N : gset string) (a b c : list string) :
  extends N a b → extends N b c → extends N a c.
Proof. unfold extends. naive_solver. Qed.

Lemma extends_add (N : gset string) (x : string) (r : list string) :
  x ∈ N → extends N r (JSSet.add x r).
Proof.
  intros Hx. split_and!.
  - intros y Hy. apply add_elem. by right.
  - intros y Hy. apply add_elem in Hy as [-> | Hy]; auto.
  - apply add_NoDup.
Qed.

Lemma getAllDependentsFuel_is_Some (g : DependencyGraph) (N : gset string) :
  (∀ x, x ∈ DependencyGraph.members (graph g) → x ∈ N) →
  ∀ (fuel : nat) (cell : string) (result : list string),
    (size (N ∖ list_to_set result) < fuel)%nat →
    ∃ r, DependencyGraph.getAllDependentsFuel fuel g cell result = Some r ∧
         extends N result r ∧
         (∀ d, d ∈ DependencyGraph.getOrEmpty (graph g) cell → d ∈ r).
Proof.
  intros HN. induction fuel as [| fuel IH]; intros cell result Hf; [lia |].
  simpl.
  assert (Hdeps : ∀ d, d ∈ DependencyGraph.getOrEmpty (graph g) cell → d ∈ N)
    by (intros d Hd; by apply HN, (getOrEmpty_members _ cell)).
  revert Hdeps. generalize (DependencyGraph.getOrEmpty (graph g) cell) as deps.
  intros deps. revert result Hf.
  induction deps as [| d deps IHd]; intros result Hf Hdeps; simpl.
  - exists result. split_and!; [done | apply extends_refl |].
    intros d Hd. by apply not_elem_of_nil in Hd.
  - assert (HdN : d ∈ N) by (apply Hdeps; by left).
    assert (Hrest : ∀ d', d' ∈ deps → d' ∈ N) by (intros d' Hd'; apply Hdeps; by right).
    destruct (JSSet.has d result) eqn:E; simpl.
    + apply has_true in E.
      destruct (IHd result Hf Hrest) as (r & Hr & Hext & Hin).
      exists r. split_and!; [done | done |].
      intros d' Hd'. apply elem_of_cons in Hd' as [-> | Hd']; [| by apply Hin].
      by apply Hext.
    + apply has_false in E.
      pose proof (size_unmarked_add N d result HdN E) as Hsz.
      destruct (IH d (JSSet.add d result)) as (r1 & Hr1 & Hext1 & _); [lia |].
      rewrite Hr1.
      assert (Hext0 : extends N result r1)
        by (eapply extends_trans; [by apply extends_add | done]).
      destruct (IHd r1) as (r & Hr & Hext & Hin); [| done |].
      { pose proof (size_unmarked_mono N result r1 (proj1 Hext0)). lia. }
      exists r. split_and!; [done | by eapply extends_trans |].
      intros d' Hd'. apply elem_of_cons in Hd' as [-> | Hd']; [| by apply Hin].
      apply Hext, Hext1, add_elem. by left.
Qed.

Lemma getAllDependents_is_Some (g : DependencyGraph) (cell : string) :
  ∃ r, DependencyGraph.getAllDependents g cell = Some r ∧ NoDup r ∧
       (∀ x, x ∈ r → x ∈ DependencyGraph.members (graph g)) ∧
       (∀ d, d ∈ DependencyGraph.getOrEmpty (graph g) cell → d ∈ r).
Proof.
  unfold DependencyGraph.getAllDependents.
  set (N := (list_to_set (DependencyGraph.members (graph g)) : gset string)).
  destruct (getAllDependentsFuel_is_Some g N) with
    (fuel := (1 + length (DependencyGraph.members (graph g)))%nat)
    (cell := cell) (result := @nil string) as (r & Hr & (_ & Hsub & Hnd) & Hin).
  - intros x Hx. subst N. by apply elem_of_list_to_set.
  - pose proof (size_list_to_set_le (DependencyGraph.members (graph g))).
    assert (size (N ∖ list_to_set []) ≤ size N)%nat
      by (apply subseteq_size; set_solver).
    subst N. lia.
  - exists r. split_and!; [done | apply Hnd, NoDup_nil_2 | | done].
    intros x Hx. destruct (Hsub x Hx) as [H | H].
    + by apply not_elem_of_nil in H.
    + subst N. by apply elem_of_list_to_set in H.
Qed.

(** ** Edges after the graph operations *)

Lemma members_getOrEmpty (m : gmap string (list string)) (x : string) :
  x ∈ DependencyGraph.members m ↔ ∃ k, x ∈ DependencyGraph.getOrEmpty m k.
Proof.
  rewrite members_elem. unfold DependencyGraph.getOrEmpty. split.
  - intros (k & s & Hks & Hx). exists k. by rewrite Hks.
  - intros (k & Hx). destruct (m !! k) as [s |] eqn:E; simpl in Hx.
    + by exists k, s.
    + by apply not_elem_of_nil in Hx.
Qed.

Lemma getOrEmpty_addTo (m : gmap string (list string)) (k y k' : string) :
  DependencyGraph.getOrEmpty (DependencyGraph.addTo m k y) k' =
  if decide (k = k') then JSSet.add y (DependencyGraph.getOrEmpty m k)
  else DependencyGraph.getOrEmpty m k'.
Proof.
  unfold DependencyGraph.addTo, DependencyGraph.getOrEmpty at 1.
  rewrite lookup_insert. by destruct (decide (k = k')).
Qed.

Lemma elem_getOrEmpty_addTo (m : gmap string (list string)) (k y k' x : string) :
  x ∈ DependencyGraph.getOrEmpty (DependencyGraph.addTo m k y) k' ↔
  x ∈ DependencyGraph.getOrEmpty m k' ∨ (k' = k ∧ x = y).
Proof.
  rewrite getOrEmpty_addTo. destruct (decide (k = k')) as [-> | Hne].
  - rewrite add_elem. naive_solver.
  - naive_solver.
Qed.

Lemma getOrEmpty_alter_delete (m : gmap string (list string)) (c dep k : string) :
  DependencyGraph.getOrEmpty (alter (JSSet.delete c) dep m) k =
  if decide (dep = k) then JSSet.delete c (DependencyGraph.getOrEmpty m k)
  else DependencyGraph.getOrEmpty m k.
Proof.
  unfold DependencyGraph.getOrEmpty. rewrite lookup_alter.
  destruct (decide (dep = k)) as [-> | Hne]; [| done].
  by destruct (m !! k).
Qed.

Lemma elem_getOrEmpty_unlink (c : string) (deps : list string)
    (m : gmap string (list string)) (k x : string) :
  x ∈ DependencyGraph.getOrEmpty
        (foldl (fun gr dep => alter (JSSet.delete c) dep gr) m deps) k ↔
  x ∈ DependencyGraph.getOrEmpty m k ∧ ¬ (k ∈ deps ∧ x = c).
Proof.
  revert m. induction deps as [| d deps IH]; intros m; simpl.
  - rewrite elem_of_nil. tauto.
  - rewrite IH, getOrEmpty_alter_delete, elem_of_cons.
    destruct (decide (d = k)) as [-> | Hne].
    + rewrite delete_elem. tauto.
    + naive_solver.
Qed.

(** [removeDependencies]: the reverse entry is dropped, and the cell leaves
    the dependents of every precedent it had. *)
Lemma removeDependencies_reverse (g : DependencyGraph) (c : string) :
  reverseGraph (DependencyGraph.removeDependencies g c) = delete c (reverseGraph g).
Proof.
  unfold DependencyGraph.removeDependencies.
  destruct (reverseGraph g !! c) eqn:E; simpl; [done |].
  symmetry. by apply delete_id.
Qed.

Lemma removeDependencies_dependsOn (g : DependencyGraph) (c x k : string) :
  dependsOn (DependencyGraph.removeDependencies g c) x k ↔
  dependsOn g x k ∧ ¬ (x = c ∧ hasPrecedent g c k).
Proof.
  unfold dependsOn, hasPrecedent, DependencyGraph.removeDependencies.
  unfold DependencyGraph.getOrEmpty at 3.
  destruct (reverseGraph g !! c) as [deps |] eqn:E; simpl.
  - rewrite elem_getOrEmpty_unlink. tauto.
  - rewrite elem_of_nil. tauto.
Qed.

Lemma addDependency_dependsOn (g : DependencyGraph) (source target x k : string) :
  dependsOn (DependencyGraph.addDependency g source target) x k ↔
  dependsOn g x k ∨ (x = source ∧ k = target).
Proof.
  unfold dependsOn, DependencyGraph.addDependency; simpl.
  rewrite elem_getOrEmpty_addTo. tauto.
Qed.

Lemma addDependency_hasPrecedent (g : DependencyGraph) (source target x k : string) :
  hasPrecedent (DependencyGraph.addDependency g source target) x k ↔
  hasPrecedent g x k ∨ (x = source ∧ k = target).
Proof.
  unfold hasPrecedent, DependencyGraph.addDependency; simpl.
  rewrite elem_getOrEmpty_addTo. tauto.
Qed.

Lemma addDependencies_dependsOn (g : DependencyGraph) (c : string)
    (refs : list string) (x k : string) :
  dependsOn (foldl (fun g ref => DependencyGraph.addDependency g c ref) g refs) x k ↔
  dependsOn g x k ∨ (x = c ∧ k ∈ refs).
Proof.
  revert g. induction refs as [| r refs IH]; intros g; simpl.
  - rewrite elem_of_nil. tauto.
  - rewrite IH, addDependency_dependsOn, elem_of_cons. naive_solver.
Qed.

Lemma addDependencies_hasPrecedent (g : DependencyGraph) (c : string)
    (refs : list string) (x k : string) :
  hasPrecedent (foldl (fun g ref => DependencyGraph.addDependency g c ref) g refs) x k ↔
  hasPrecedent g x k ∨ (x = c ∧ k ∈ refs).
Proof.
  revert g. induction refs as [| r refs IH]; intros g; simpl.
  - rewrite elem_of_nil. tauto.
  - rewrite IH, addDependency_hasPrecedent, elem_of_cons. naive_solver.
Qed.

Lemma removeDependencies_hasPrecedent (g : DependencyGraph) (c x k : string) :
  hasPrecedent (DependencyGraph.removeDependencies g c) x k ↔
  hasPrecedent g x k ∧ x ≠ c.
Proof.
  unfold hasPrecedent. rewrite removeDependencies_reverse.
  unfold DependencyGraph.getOrEmpty. rewrite lookup_delete.
  destruct (decide (c = x)) as [-> | Hne]; simpl.
  - rewrite elem_of_nil. tauto.
  - naive_solver.
Qed.

(** ** One evaluation *)

Lemma isEmpty_not_formula (f : string) :
  JSString.isEmpty f = true → isFormula f = false.
Proof. by destruct f. Qed.

Lemma literal_test (f : string) :
  JSString.isEmpty f || negb (JSString.startsWith "=" f) = negb (isFormula f).
Proof.
  unfold isFormula. destruct (JSString.isEmpty f) eqn:E; [| done].
  apply isEmpty_not_formula in E. unfold isFormula in E. by rewrite E.
Qed.

Section Evaluation.

Variable hostFunction : string → completion (option num).

Lemma evaluateCell_is_Some (cells : gmap string Cell) (g : DependencyGraph)
    (cellId f : string) :
  is_Some (Spreadsheet.evaluateCell hostFunction cells g cellId f).
Proof.
  unfold Spreadsheet.evaluateCell. rewrite literal_test.
  destruct (isFormula f); simpl; [| by eexists].
  match goal with
  | |- context [DependencyGraph.detectCircular ?g ?c] =>
      destruct (detectCircular_is_Some g c) as [b ->]
  end.
  destruct b; [by eexists |].
  match goal with |- context [if ?c then _ else _] => destruct c end; by eexists.
Qed.

(** The graph after an evaluation: the old edges of the cell are
    removed, those of the text evaluated are added. *)
Lemma evaluateCell_graph (cells : gmap string Cell) (g g' : DependencyGraph)
    (cellId f : string) (r : Evaluation) :
  Spreadsheet.evaluateCell hostFunction cells g cellId f = Some (r, g') →
  g' = foldl (fun g ref => DependencyGraph.addDependency g cellId ref)
             (DependencyGraph.removeDependencies g cellId) (precedentsOf f).
Proof.
  unfold Spreadsheet.evaluateCell, precedentsOf. rewrite literal_test.
  destruct (isFormula f); simpl; [| congruence].
  match goal with
  | |- context [DependencyGraph.detectCircular ?g ?c] =>
      destruct (DependencyGraph.detectCircular g c) as [[|] |]
  end; [congruence | | congruence].
  match goal with |- context [if ?c then _ else _] => destruct c end; congruence.
Qed.

Lemma evaluateCell_formula (cells : gmap string Cell) (g g' : DependencyGraph)
    (cellId f : string) (r : Evaluation) :
  Spreadsheet.evaluateCell hostFunction cells g cellId f = Some (r, g') → eformula r = f.
Proof.
  unfold Spreadsheet.evaluateCell.
  destruct (_ || _); [intros [= <- _]; done |].
  match goal with
  | |- context [DependencyGraph.detectCircular ?g ?c] =>
      destruct (DependencyGraph.detectCircular g c) as [[|] |]
  end; [intros [= <- _]; done | | done].
  match goal with |- context [if ?c then _ else _] => destruct c end;
    intros [= <- _]; done.
Qed.

Lemma evaluateCell_dependsOn (cells : gmap string Cell) (g g' : DependencyGraph)
    (cellId f : string) (r : Evaluation) (x k : string) :
  Spreadsheet.evaluateCell hostFunction cells g cellId f = Some (r, g') →
  dependsOn g' x k ↔
    (dependsOn g x k ∧ ¬ (x = cellId ∧ hasPrecedent g cellId k)) ∨
    (x = cellId ∧ k ∈ precedentsOf f).
Proof.
  intros ->%evaluateCell_graph.
  by rewrite addDependencies_dependsOn, removeDependencies_dependsOn.
Qed.

Lemma evaluateCell_hasPrecedent (cells : gmap string Cell) (g g' : DependencyGraph)
    (cellId f : string) (r : Evaluation) (x k : string) :
  Spreadsheet.evaluateCell hostFunction cells g cellId f = Some (r, g') →
  hasPrecedent g' x k ↔
    (hasPrecedent g x k ∧ x ≠ cellId) ∨ (x = cellId ∧ k ∈ precedentsOf f).
Proof.
  intros ->%evaluateCell_graph.
  by rewrite addDependencies_hasPrecedent, removeDependencies_hasPrecedent.
Qed.

(** Every member of the graph after an evaluation was one before, or is
    the evaluated cell. *)
Lemma evaluateCell_members (cells : gmap string Cell) (g g' : DependencyGraph)
    (cellId f : string) (r : Evaluation) (x : string) :
  Spreadsheet.evaluateCell hostFunction cells g cellId f = Some (r, g') →
  x ∈ DependencyGraph.members (graph g') →
  x = cellId ∨ x ∈ DependencyGraph.members (graph g).
Proof.
  intros He Hx. apply members_getOrEmpty in Hx as [k Hk].
  apply (evaluateCell_dependsOn _ _ _ _ _ _ _ _ He) in Hk as [[Hk _] | [-> _]].
  - right. apply members_getOrEmpty. by exists k.
  - by left.
Qed.

End Evaluation.

(** ** The recalculation loop *)

Lemma NoDup_length_le_size (l : list string) (N : gset string) :
  NoDup l → (∀ x, x ∈ l → x ∈ N) → (length l ≤ size N)%nat.
Proof.
  intros Hnd Hsub. rewrite <- (size_list_to_set (C := gset string) l Hnd).
  apply subseteq_size. intros x Hx. apply Hsub. by apply elem_of_list_to_set in Hx.
Qed.

Lemma elem_filter_unvisited (x : string) (vis l : list string) :
  x ∈ List.filter (fun dep => negb (JSSet.has dep vis)) l ↔ x ∈ l ∧ x ∉ vis.
Proof.
  rewrite list_elem_of_In, filter_In, <- list_elem_of_In, negb_true_iff, has_false.
  tauto.
Qed.

Lemma length_filter_le {A} (p : A → bool) (l : list A) :
  (length (List.filter p l) ≤ length l)%nat.
Proof. induction l as [| x l IH]; simpl; [done |]. destruct (p x); simpl; lia. Qed.

Section Loop.

Variable hostFunction : string → completion (option num).
Variable cells : gmap string Cell.

(** A property kept by every round holds when the loop returns, and the
    queue is then empty. *)
Lemma recalcLoop_invariant (P : Spreadsheet.Recalc → Prop) :
  (∀ s d q s', P s → Spreadsheet.recalcQueue s = d :: q →
     Spreadsheet.recalcRound hostFunction cells s d q = Some s' → P s') →
  ∀ (fuel : nat) (s s' : Spreadsheet.Recalc),
    P s → Spreadsheet.recalcLoop hostFunction fuel cells s = Some s' →
    P s' ∧ Spreadsheet.recalcQueue s' = [].
Proof.
  intros Hstep. induction fuel as [| fuel IH]; intros s s' HP; simpl.
  - destruct (Spreadsheet.recalcQueue s) eqn:E; [| done]. intros [= <-]. done.
  - destruct (Spreadsheet.recalcQueue s) as [| d q] eqn:E; [intros [= <-]; done |].
    destruct (Spreadsheet.recalcRound hostFunction cells s d q) as [s1 |] eqn:E1;
      [| done].
    apply IH. by eapply Hstep.
Qed.

Lemma recalcRound_bounded (N : gset string) (n : nat) (s : Spreadsheet.Recalc)
    (d : string) (q : list string) (fuel : nat) :
  (size N ≤ n)%nat → Spreadsheet.recalcQueue s = d :: q →
  recalcBounded N n s (S fuel) →
  ∃ s', Spreadsheet.recalcRound hostFunction cells s d q = Some s' ∧
        recalcBounded N n s' fuel.
Proof.
  intros Hn Hq (HqN & HgN & Hm). rewrite Hq in HqN, Hm. cbn [length] in Hm.
  assert (HdN : d ∈ N) by (apply HqN; by left).
  assert (HqN' : ∀ x, x ∈ q → x ∈ N) by (intros x Hx; apply HqN; by right).
  unfold Spreadsheet.recalcRound.
  destruct (JSSet.has d (Spreadsheet.visited s)) eqn:Ev.
  { eexists. split; [done |]. split_and!; simpl; [done | done | lia]. }
  apply has_false in Ev.
  pose proof (size_unmarked_add N d (Spreadsheet.visited s) HdN Ev) as Hsz.
  assert (Hskip : recalcBounded N n
            (Spreadsheet.withQueue s (JSSet.add d (Spreadsheet.visited s)) q) fuel).
  { split_and!; simpl; [done | done | nia]. }
  destruct (Spreadsheet.newCells s !! d) as [c |]; [| by eexists].
  destruct (JSString.isEmpty (formula c)); [by eexists |].
  destruct (evaluateCell_is_Some hostFunction cells (Spreadsheet.rgraph s) d (formula c))
    as [[r g] He].
  rewrite He.
  destruct (getAllDependents_is_Some g d) as (deps & -> & Hnd & Hsub & _).
  assert (HgN' : ∀ x, x ∈ DependencyGraph.members (graph g) → x ∈ N).
  { intros x Hx. destruct (evaluateCell_members _ _ _ _ _ _ _ _ He Hx) as [-> | Hx'];
      [done | by apply HgN]. }
  eexists. split; [done |]. split_and!; simpl.
  - intros x Hx. apply elem_of_app in Hx as [Hx | Hx]; [by apply HqN' |].
    apply elem_filter_unvisited in Hx as [Hx _]. by apply HgN', Hsub.
  - done.
  - rewrite length_app.
    pose proof (length_filter_le
      (fun dep => negb (JSSet.has dep (JSSet.add d (Spreadsheet.visited s)))) deps).
    assert (length deps ≤ size N)%nat
      by (apply NoDup_length_le_size; [done | intros x Hx; by apply HgN', Hsub]).
    nia.
Qed.

Lemma recalcLoop_is_Some (N : gset string) (n : nat) :
  (size N ≤ n)%nat →
  ∀ (fuel : nat) (s : Spreadsheet.Recalc),
    recalcBounded N n s fuel →
    is_Some (Spreadsheet.recalcLoop hostFunction fuel cells s).
Proof.
  intros Hn. induction fuel as [| fuel IH]; intros s Hb; simpl.
  - destruct (Spreadsheet.recalcQueue s) eqn:E; [by eexists |].
    destruct Hb as (_ & _ & Hm). rewrite E in Hm. simpl in Hm. lia.
  - destruct (Spreadsheet.recalcQueue s) as [| d q] eqn:E; [by eexists |].
    destruct (recalcRound_bounded N n s d q fuel Hn E Hb) as (s' & -> & Hb').
    by apply IH.
Qed.

End Loop.

(** The updater returns for every table, graph, cell and input. *)
Lemma updateCellFrom_is_Some (hostFunction : string → completion (option num))
    (cells prev : gmap string Cell) (g : DependencyGraph) (cellId rawValue : string) :
  is_Some (Spreadsheet.updateCellFrom hostFunction cells prev g cellId rawValue).
Proof.
  unfold Spreadsheet.updateCellFrom.
  destruct (evaluateCell_is_Some hostFunction cells g cellId rawValue) as [[r g1] ->].
  destruct (getAllDependents_is_Some g1 cellId) as (deps & -> & Hnd & Hsub & _).
  set (N := (list_to_set (DependencyGraph.members (graph g1)) : gset string)).
  apply (recalcLoop_is_Some hostFunction cells N
           (length (DependencyGraph.members (graph g1)))).
  - apply size_list_to_set_le.
  - split_and!; simpl.
    + intros x Hx. subst N. by apply elem_of_list_to_set, Hsub.
    + intros x Hx. subst N. by apply elem_of_list_to_set.
    + unfold Spreadsheet.recalcFuel.
      pose proof (size_list_to_set_le (DependencyGraph.members (graph g1))).
      assert (size (N ∖ ({[cellId]} ∪ ∅)) ≤ size N)%nat
        by (apply subseteq_size; set_solver).
      apply Nat.add_le_mono_l, Nat.mul_le_mono_l. subst N. lia.
Qed.

Lemma updateCell_is_Some (hostFunction : string → completion (option num))
    (st : Spreadsheet.State) (cellId rawValue : string) :
  is_Some (Spreadsheet.updateCell hostFunction st cellId rawValue).
Proof.
  unfold Spreadsheet.updateCell.
  destruct (updateCellFrom_is_Some hostFunction (Spreadsheet.cells st)
              (Spreadsheet.cells st) (Spreadsheet.dependencyGraph st) cellId rawValue)
    as [r ->].
  by eexists.
Qed.

(** ** A number never prints as a sentinel *)

Lemma forallb_app (p : ascii → bool) (s t : string) :
  JSString.forallb p (s +:+ t) = JSString.forallb p s && JSString.forallb p t.
Proof. induction s as [| c s IH]; simpl; [done |]. by rewrite IH, andb_assoc. Qed.

Lemma forallb_repeat (p : ascii → bool) (c : ascii) (n : nat) :
  p c = true → JSString.forallb p (JSString.repeat c n) = true.
Proof. intros H. induction n as [| n IH]; simpl; [done |]. by rewrite H, IH. Qed.

Lemma forallb_take (p : ascii → bool) (n : nat) (s : string) :
  JSString.forallb p s = true → JSString.forallb p (JSString.take n s) = true.
Proof.
  revert s. induction n as [| n IH]; intros [| c s]; simpl; try done.
  intros [Hc Hs]%andb_true_iff. by rewrite Hc, IH.
Qed.

Lemma forallb_drop (p : ascii → bool) (n : nat) (s : string) :
  JSString.forallb p s = true → JSString.forallb p (JSString.drop n s) = true.
Proof.
  revert s. induction n as [| n IH]; intros [| c s]; simpl; try done.
  intros [Hc Hs]%andb_true_iff. by apply IH.
Qed.

Lemma isDigit_digitChar (n : Z) : JSString.isDigit (digitChar (n mod 10)) = true.
Proof.
  assert (H : 0 ≤ n mod 10 < 10) by (apply Z.mod_pos_bound; lia).
  assert (n mod 10 = 0 ∨ n mod 10 = 1 ∨ n mod 10 = 2 ∨ n mod 10 = 3 ∨ n mod 10 = 4 ∨
          n mod 10 = 5 ∨ n mod 10 = 6 ∨ n mod 10 = 7 ∨ n mod 10 = 8 ∨ n mod 10 = 9)
    as Hc by lia.
  destruct Hc as [-> | [-> | [-> | [-> | [-> | [-> | [-> | [-> | [-> | ->]]]]]]]]];
    reflexivity.
Qed.

Lemma forallb_digitsOfFuel (fuel : nat) (n : Z) (acc : string) :
  JSString.forallb JSString.isDigit acc = true →
  JSString.forallb JSString.isDigit (digitsOfFuel fuel n acc) = true.
Proof.
  revert n acc. induction fuel as [| fuel IH]; intros n acc Hacc; simpl; [done |].
  assert (JSString.forallb JSString.isDigit (String (digitChar (n mod 10)) acc) = true)
    by (simpl; by rewrite isDigit_digitChar, Hacc).
  destruct (n <? 10); [done | by apply IH].
Qed.

Lemma forallb_digitsOf (n : Z) :
  JSString.forallb JSString.isDigit (digitsOf n) = true.
Proof. by apply forallb_digitsOfFuel. Qed.

Lemma forallb_impl (p q : ascii → bool) (s : string) :
  (∀ c, p c = true → q c = true) →
  JSString.forallb p s = true → JSString.forallb q s = true.
Proof.
  intros H. induction s as [| c s IH]; simpl; [done |].
  intros [Hc Hs]%andb_true_iff. by rewrite (H c Hc), IH.
Qed.

Lemma digits_numberChars (s : string) :
  JSString.forallb JSString.isDigit s = true →
  JSString.forallb isNumberChar s = true.
Proof.
  apply forallb_impl. intros c Hc. unfold isNumberChar. by rewrite Hc.
Qed.

Lemma formatDecimal_chars (s k n : Z) :
  JSString.forallb isNumberChar (formatDecimal s k n) = true.
Proof.
  pose proof (digits_numberChars _ (forallb_digitsOf s)) as Hd.
  unfold formatDecimal.
  repeat match goal with |- context [if ?c then _ else _] => destruct c end;
    rewrite ?forallb_app, ?andb_true_iff; repeat split;
    try done;
    try (by apply forallb_take);
    try (by apply forallb_drop);
    try (by apply forallb_repeat);
    try (apply digits_numberChars, forallb_digitsOf).
Qed.

Lemma toString_chars (x : num) :
  JSString.forallb isNumberChar (toString x) = true.
Proof.
  destruct x as [s | s | | s m e]; unfold toString; try done.
  - by destruct s.
  - destruct (0 <=? e); cbv beta iota zeta;
      match goal with
      | |- context [shortestFrom ?a ?b ?c ?d ?e ?f] =>
          destruct (shortestFrom a b c d e f) as [[s10 k] n10]
      end;
      rewrite forallb_app, formatDecimal_chars; by destruct s.
Qed.

Lemma toString_not_sentinel (x : num) : ¬ sentinel (toString x).
Proof.
  intros H. pose proof (toString_chars x) as Hc. by destruct H as [H | H]; rewrite H in Hc.
Qed.

(** ** What one evaluation returns *)

Section Results.

Variable hostFunction : string → completion (option num).

(** A formula compiles to the error value with a reason, or to a finite
    number. *)
Lemma parse_formula (f : string) (getCellValue : string → option num) :
  isFormula f = true →
  (∃ msg, FormulaParser.parse hostFunction f getCellValue =
            {| value := VStr "#ERROR"; perror := Some msg |}) ∨
  (∃ n, FormulaParser.parse hostFunction f getCellValue =
          {| value := VNum n; perror := None |} ∧
        isNaN n = false ∧ isFinite n = true).
Proof.
  unfold isFormula, FormulaParser.parse, FormulaParser.failure. intros ->. simpl.
  repeat match goal with
    | |- context [if ?c then _ else _] => destruct c eqn:?
    | |- context [match ?c with Normal _ => _ | Throw _ => _ end] => destruct c eqn:?
    | |- context [match ?c with Some _ => _ | None => _ end] => destruct c eqn:?
    end; try (left; by eexists).
  right. eexists. split; [done |].
  match goal with H : _ || _ = false |- _ => apply orb_false_iff in H as [H1 H2] end.
  split; [done |]. by apply negb_false_iff.
Qed.

Lemma evaluateCell_consistent (cells : gmap string Cell) (g g' : DependencyGraph)
    (cellId rv f : string) (r : Evaluation) :
  Spreadsheet.evaluateCell hostFunction cells g cellId f = Some (r, g') →
  rv = f → cellConsistent (committed rv f r).
Proof.
  intros He ->. unfold cellConsistent, committed; simpl. split; [done |].
  revert He. unfold Spreadsheet.evaluateCell. rewrite literal_test.
  destruct (isFormula f) eqn:Ef; simpl.
  - match goal with
    | |- context [DependencyGraph.detectCircular ?g ?c] =>
        destruct (DependencyGraph.detectCircular g c) as [[|] |]
    end; [| | done].
    + intros [= <- _]; simpl. split; [intros _; by right | done].
    + destruct (parse_formula f (Spreadsheet.getCellValue cells) Ef)
        as [[msg ->] | (n & -> & _ & _)]; simpl; intros [= <- _]; simpl.
      * split; [intros _; by left | done].
      * split; [done |]. intros H. by apply toString_not_sentinel in H.
  - intros [= <- _]; simpl. done.
Qed.

End Results.

(** ** Properties kept by every edit *)

Section Preservation.

Variable hostFunction : string → completion (option num).
Variable cells : gmap string Cell.
Variable P : gmap string Cell → DependencyGraph → Prop.
Variable cellId input : string.

(** [P] survives the evaluation of a cell and the write of its record,
    for the edited cell with the new input and for a dependent with the
    text it holds. *)
Hypothesis commit :
  ∀ (tbl : gmap string Cell) (g g' : DependencyGraph) (d rv f : string)
    (r : Evaluation),
    P tbl g →
    Spreadsheet.evaluateCell hostFunction cells g d f = Some (r, g') →
    (d = cellId ∧ rv = input ∧ f = input) ∨
    (∃ c, tbl !! d = Some c ∧ rv = rawValue c ∧ f = formula c) →
    P (<[d := committed rv f r]> tbl) g'.

Lemma recalcRound_preserves (s s' : Spreadsheet.Recalc) (d : string) (q : list string) :
  P (Spreadsheet.newCells s) (Spreadsheet.rgraph s) →
  Spreadsheet.recalcRound hostFunction cells s d q = Some s' →
  P (Spreadsheet.newCells s') (Spreadsheet.rgraph s').
Proof.
  intros HP. unfold Spreadsheet.recalcRound.
  destruct (JSSet.has d (Spreadsheet.visited s)); [by intros [= <-] |].
  destruct (Spreadsheet.newCells s !! d) as [c |] eqn:Ec; [| by intros [= <-]].
  destruct (JSString.isEmpty (formula c)); [by intros [= <-] |].
  destruct (Spreadsheet.evaluateCell hostFunction cells (Spreadsheet.rgraph s) d (formula c))
    as [[r g] |] eqn:He; [| done].
  destruct (DependencyGraph.getAllDependents g d); [| done].
  intros [= <-]; simpl.
  apply (commit _ _ _ _ (rawValue c) (formula c) r HP He). right. by exists c.
Qed.

Lemma updateCellFrom_preserves (prev : gmap string Cell) (g : DependencyGraph)
    (s : Spreadsheet.Recalc) :
  P prev g →
  Spreadsheet.updateCellFrom hostFunction cells prev g cellId input = Some s →
  P (Spreadsheet.newCells s) (Spreadsheet.rgraph s) ∧ Spreadsheet.recalcQueue s = [].
Proof.
  intros HP. unfold Spreadsheet.updateCellFrom.
  destruct (Spreadsheet.evaluateCell hostFunction cells g cellId input)
    as [[r g1] |] eqn:He; [| done].
  destruct (DependencyGraph.getAllDependents g1 cellId) as [deps |]; [| done].
  intros Hl.
  apply (recalcLoop_invariant hostFunction cells
           (fun s => P (Spreadsheet.newCells s) (Spreadsheet.rgraph s))) in Hl; [done | |].
  - intros s0 d q s1 H0 _ Hr. by eapply recalcRound_preserves.
  - simpl. rewrite (evaluateCell_formula _ _ _ _ _ _ _ He).
    apply (commit _ _ _ _ input input r HP He). by left.
Qed.

End Preservation.

(** ** The invariant of the engine *)

Lemma initialCells_lookup (x : string) (c : Cell) :
  initialCells !! x = Some c → c = emptyCell ∧ x ∈ cellIds.
Proof.
  unfold initialCells. intros H%elem_of_list_to_map_2.
  apply list_elem_of_fmap in H as (id & [= -> ->] & Hid). done.
Qed.

Lemma formulaAt_insert (tbl : gmap string Cell) (d x : string) (c : Cell) :
  formulaAt (<[d := c]> tbl) x = if decide (d = x) then formula c else formulaAt tbl x.
Proof. unfold formulaAt. rewrite lookup_insert. by destruct (decide (d = x)). Qed.

Lemma engineInvariant_initial :
  engineInvariant initialCells DependencyGraph.empty.
Proof.
  split_and!.
  - intros id c [-> _]%initialCells_lookup. by split_and!.
  - intros x k.
    assert (formulaAt initialCells x = EmptyString) as ->.
    { unfold formulaAt. destruct (initialCells !! x) as [c |] eqn:E; [| done].
      by apply initialCells_lookup in E as [-> _]. }
    unfold hasPrecedent, dependsOn, DependencyGraph.getOrEmpty; simpl.
    rewrite !lookup_empty; simpl. change (precedentsOf EmptyString) with (@nil string).
    rewrite !elem_of_nil. tauto.
  - intros x [c Hc]. by apply initialCells_lookup in Hc as [_ ?].
Qed.

Section Invariant.

Variable hostFunction : string → completion (option num).

Lemma edgesMatch_commit (cells tbl : gmap string Cell) (g g' : DependencyGraph)
    (d rv f : string) (r : Evaluation) :
  edgesMatch tbl g →
  Spreadsheet.evaluateCell hostFunction cells g d f = Some (r, g') →
  edgesMatch (<[d := committed rv f r]> tbl) g'.
Proof.
  intros Hm He x k. destruct (Hm x k) as [Hp Hd].
  rewrite (evaluateCell_hasPrecedent _ _ _ _ _ _ _ x k He),
          (evaluateCell_dependsOn _ _ _ _ _ _ _ x k He), formulaAt_insert.
  destruct (decide (d = x)) as [<- | Hne]; simpl.
  - destruct (Hm d k) as [_ Hd']. split; [naive_solver |]. split.
    + intros [[H1 H2] | H]; [| by right]. exfalso. apply H2. split; [done | by apply Hd'].
    + intros [[_ H] | H]; [done | by right].
  - split; [naive_solver |]. split.
    + intros [[H _] | [-> _]]; [| done]. left. split; [by apply Hd | congruence].
    + intros [[H _] | [-> _]]; [| done]. left. split; [by apply Hd | naive_solver].
Qed.

Lemma engineInvariant_commit (cells tbl : gmap string Cell) (g g' : DependencyGraph)
    (cellId input d rv f : string) (r : Evaluation) :
  cellId ∈ cellIds →
  engineInvariant tbl g →
  Spreadsheet.evaluateCell hostFunction cells g d f = Some (r, g') →
  (d = cellId ∧ rv = input ∧ f = input) ∨
  (∃ c, tbl !! d = Some c ∧ rv = rawValue c ∧ f = formula c) →
  engineInvariant (<[d := committed rv f r]> tbl) g'.
Proof.
  intros Hid (Hc & Hm & Hgrid) He Hd. split_and!.
  - intros id c. rewrite lookup_insert. destruct (decide (d = id)) as [<- | Hne].
    + intros [= <-]. eapply evaluateCell_consistent; [done |].
      destruct Hd as [(_ & -> & ->) | (c & Hl & -> & ->)]; [done |].
      symmetry. by apply (Hc d c Hl).
    + apply Hc.
  - by eapply edgesMatch_commit.
  - intros x. rewrite lookup_insert. destruct (decide (d = x)) as [<- | Hne].
    + intros _. destruct Hd as [(-> & _) | (c & Hl & _)]; [done |].
      apply Hgrid. by exists c.
    + apply Hgrid.
Qed.

Lemma engineInvariant_updateCell (st st' : Spreadsheet.State) (cellId input : string) :
  cellId ∈ cellIds →
  engineInvariant (Spreadsheet.cells st) (Spreadsheet.dependencyGraph st) →
  Spreadsheet.updateCell hostFunction st cellId input = Some st' →
  engineInvariant (Spreadsheet.cells st') (Spreadsheet.dependencyGraph st').
Proof.
  intros Hid Hinv. unfold Spreadsheet.updateCell.
  destruct (Spreadsheet.updateCellFrom _ _ _ _ _ _) as [s |] eqn:E; [| done].
  intros [= <-]; simpl.
  apply (updateCellFrom_preserves hostFunction (Spreadsheet.cells st) engineInvariant
           cellId input) in E as [E _]; [done | | done].
  intros tbl g g' d rv f r. by apply engineInvariant_commit.
Qed.

Lemma reachable_invariant (st : Spreadsheet.State) :
  reachable hostFunction st →
  engineInvariant (Spreadsheet.cells st) (Spreadsheet.dependencyGraph st).
Proof.
  induction 1 as [| st st' cellId input _ IH Hid Hu].
  - apply engineInvariant_initial.
  - by eapply engineInvariant_updateCell.
Qed.

End Invariant.

(** ** Sequences of edits *)

Lemma updateCells_reachable (hostFunction : string → completion (option num))
    (edits : list (string * string)) (st : Spreadsheet.State) :
  reachable hostFunction st →
  Forall (fun e => e.1 ∈ cellIds) edits →
  ∃ st', Spreadsheet.updateCells hostFunction st edits = Some st' ∧
         reachable hostFunction st'.
Proof.
  revert st. induction edits as [| [id raw] edits IH]; intros st Hr Hids; simpl.
  - by exists st.
  - apply Forall_cons in Hids as [Hid Hids]. simpl in Hid.
    destruct (updateCell_is_Some hostFunction st id raw) as [st1 H1]. rewrite H1.
    apply IH; [| done]. by eapply reachable_edit.
Qed.

Lemma stateAfter_reachable (hostFunction : string → completion (option num))
    (edits : list (string * string)) :
  Forall (fun e => e.1 ∈ cellIds) edits →
  reachable hostFunction (stateAfter hostFunction edits).
Proof.
  intros Hids. unfold stateAfter.
  destruct (updateCells_reachable hostFunction edits Spreadsheet.initialState)
    as (st & -> & Hr); [apply reachable_initial | done | done].
Qed.

Lemma updateCells_is_Some (hostFunction : string → completion (option num))
    (edits : list (string * string)) (st : Spreadsheet.State) :
  is_Some (Spreadsheet.updateCells hostFunction st edits).
Proof.
  revert st. induction edits as [| [id raw] edits IH]; intros st; simpl.
  - by eexists.
  - destruct (updateCell_is_Some hostFunction st id raw) as [st1 ->]. apply IH.
Qed.

Lemma updateCells_snoc (hostFunction : string → completion (option num))
    (edits : list (string * string)) (st st1 : Spreadsheet.State) (id raw : string) :
  Spreadsheet.updateCells hostFunction st edits = Some st1 →
  Spreadsheet.updateCells hostFunction st (edits ++ [(id, raw)]) =
  Spreadsheet.updateCell hostFunction st1 id raw.
Proof.
  revert st. induction edits as [| [id' raw'] edits IH]; intros st; simpl.
  - intros [= ->]. by destruct (Spreadsheet.updateCell hostFunction st1 id raw).
  - destruct (Spreadsheet.updateCell hostFunction st id' raw'); [apply IH | done].
Qed.

(** The state after one more edit is the edit of the state before. *)
Lemma stateAfter_snoc (hostFunction : string → completion (option num))
    (edits : list (string * string)) (id raw : string) :
  Spreadsheet.updateCell hostFunction (stateAfter hostFunction edits) id raw =
  Some (stateAfter hostFunction (edits ++ [(id, raw)])).
Proof.
  unfold stateAfter.
  destruct (updateCells_is_Some hostFunction edits Spreadsheet.initialState)
    as [st1 H1].
  rewrite (updateCells_snoc _ _ _ _ id raw H1), H1. simpl.
  by destruct (updateCell_is_Some hostFunction st1 id raw) as [st2 ->].
Qed.

(** Membership in the grid, by evaluation. *)
Lemma cellIds_has (x : string) : JSSet.has x cellIds = true → x ∈ cellIds.
Proof. apply has_true. Qed.

Ltac grid_cell := apply cellIds_has; vm_compute; reflexivity.

Ltac grid_edits :=
  repeat (apply List.Forall_cons; [simpl; grid_cell |]); apply List.Forall_nil.

(** ** No cell evaluated twice *)

Section Once.

Variable hostFunction : string → completion (option num).
Variable cells : gmap string Cell.

Lemma recalcRound_evaluatedOnce (cellId d : string) (q : list string)
    (s s' : Spreadsheet.Recalc) :
  evaluatedOnce cellId s →
  Spreadsheet.recalcRound hostFunction cells s d q = Some s' →
  evaluatedOnce cellId s'.
Proof.
  intros (Hnd & Hid & Hev). unfold Spreadsheet.recalcRound.
  destruct (JSSet.has d (Spreadsheet.visited s)) eqn:Ev;
    [intros [= <-]; by split_and! |].
  apply has_false in Ev.
  assert (Hskip : evaluatedOnce cellId
            (Spreadsheet.withQueue s (JSSet.add d (Spreadsheet.visited s)) q)).
  { split_and!; simpl; [done | apply add_elem; by right |].
    intros x Hx. destruct (Hev x Hx) as (H1 & H2 & H3).
    split_and!; [apply add_elem; by right | done | done]. }
  destruct (Spreadsheet.newCells s !! d) as [c |] eqn:Ec; [| by intros [= <-]].
  destruct (JSString.isEmpty (formula c)); [by intros [= <-] |].
  destruct (Spreadsheet.evaluateCell _ _ _ _ _) as [[r g] |]; [| done].
  destruct (DependencyGraph.getAllDependents g d); [| done].
  intros [= <-]. split_and!; simpl.
  - apply NoDup_app. split_and!; [done | | apply NoDup_singleton].
    intros x Hx ->%list_elem_of_singleton. by destruct (Hev d Hx).
  - apply add_elem. by right.
  - intros x [Hx | ->%list_elem_of_singleton]%elem_of_app.
    + destruct (Hev x Hx) as (H1 & H2 & [c' H3]).
      split_and!; [apply add_elem; by right | done |].
      rewrite lookup_insert. destruct (decide (d = x)); by eexists.
    + split_and!; [apply add_elem; by left | by intros -> |].
      rewrite lookup_insert_eq. by eexists.
Qed.

Lemma updateCellFrom_evaluatedOnce (prev : gmap string Cell) (g : DependencyGraph)
    (cellId input : string) :
  ∃ s, Spreadsheet.updateCellFrom hostFunction cells prev g cellId input = Some s ∧
       Spreadsheet.recalcQueue s = [] ∧ evaluatedOnce cellId s.
Proof.
  destruct (updateCellFrom_is_Some hostFunction cells prev g cellId input) as [s Hs].
  exists s. split; [done |]. revert Hs. unfold Spreadsheet.updateCellFrom.
  destruct (Spreadsheet.evaluateCell _ _ _ _ _) as [[r g1] |]; [| done].
  destruct (DependencyGraph.getAllDependents g1 cellId) as [deps |]; [| done].
  intros Hl.
  apply (recalcLoop_invariant hostFunction cells (evaluatedOnce cellId)) in Hl as [H1 H2];
    [done | |].
  - intros s0 d q s1 H0 _ Hr. by eapply recalcRound_evaluatedOnce.
  - split_and!; simpl; [apply NoDup_nil_2 | by apply list_elem_of_singleton |].
    intros x Hx. by apply not_elem_of_nil in Hx.
Qed.

End Once.

Lemma length_cellIds : length cellIds = 100%nat.
Proof. reflexivity. Qed.

(** ** Compilation depends on the referenced cells only *)



(** ** Cycles of length one and two are detected *)

Lemma detectCircularFuel_step (fuel : nat) (g : DependencyGraph) (c : string)
    (vis : list string) :
  DependencyGraph.detectCircularFuel (S fuel) g c vis =
  if JSSet.has c vis then Some true
  else DependencyGraph.anyDep
         (fun dep => DependencyGraph.detectCircularFuel fuel g dep (JSSet.add c vis))
         (DependencyGraph.getOrEmpty (reverseGraph g) c).
Proof. reflexivity. Qed.

Lemma has_add_same (x : string) (s : list string) : JSSet.has x (JSSet.add x s) = true.
Proof. apply has_true, add_elem. by left. Qed.

Lemma size_walk_universe (g : DependencyGraph) (c : string) :
  (size (({[c]} ∪ list_to_set (DependencyGraph.members (reverseGraph g)) : gset string)
         ∖ list_to_set [])
   ≤ 1 + length (DependencyGraph.members (reverseGraph g)))%nat.
Proof.
  etransitivity; [| apply (size_with_cell c)].
  apply subseteq_size. set_solver.
Qed.

Lemma self_cycle_detected (g : DependencyGraph) (a : string) :
  hasPrecedent g a a → DependencyGraph.detectCircular g a = Some true.
Proof.
  intros Haa. unfold DependencyGraph.detectCircular.
  set (n := length (DependencyGraph.members (reverseGraph g))).
  set (N := ({[a]} ∪ list_to_set (DependencyGraph.members (reverseGraph g)) : gset string)).
  assert (HN : ∀ x, x ∈ DependencyGraph.members (reverseGraph g) → x ∈ N)
    by (intros x Hx; subst N; apply elem_of_union_r; by apply elem_of_list_to_set).
  assert (HaN : a ∈ N) by (subst N; set_solver).
  pose proof (size_walk_universe g a) as H0. fold N n in H0.
  pose proof (size_unmarked_add N a [] HaN (not_elem_of_nil a)) as H1.
  change (2 + n)%nat with (S (S n)). rewrite detectCircularFuel_step.
  change (JSSet.has a []) with false. cbv iota.
  apply (anyDep_true _ _ a); [| done |].
  - intros d Hd. apply (detectCircularFuel_is_Some g N HN).
    + by apply HN, (getOrEmpty_members _ a).
    + lia.
  - by rewrite detectCircularFuel_step, has_add_same.
Qed.

Lemma two_cycle_detected (g : DependencyGraph) (a b : string) :
  a ≠ b → hasPrecedent g a b → hasPrecedent g b a →
  DependencyGraph.detectCircular g a = Some true.
Proof.
  intros Hne Hab Hba. unfold DependencyGraph.detectCircular.
  set (n := length (DependencyGraph.members (reverseGraph g))).
  set (N := ({[a]} ∪ list_to_set (DependencyGraph.members (reverseGraph g)) : gset string)).
  assert (HN : ∀ x, x ∈ DependencyGraph.members (reverseGraph g) → x ∈ N)
    by (intros x Hx; subst N; apply elem_of_union_r; by apply elem_of_list_to_set).
  assert (HaN : a ∈ N) by (subst N; set_solver).
  assert (HbN : b ∈ N) by (by apply HN, (getOrEmpty_members _ a)).
  assert (Hb1 : b ∉ JSSet.add a []).
  { intros [-> | H]%add_elem; [done | by apply not_elem_of_nil in H]. }
  pose proof (size_walk_universe g a) as H0. fold N n in H0.
  pose proof (size_unmarked_add N a [] HaN (not_elem_of_nil a)) as H1.
  pose proof (size_unmarked_add N b (JSSet.add a []) HbN Hb1) as H2.
  change (2 + n)%nat with (S (S n)). rewrite detectCircularFuel_step.
  change (JSSet.has a []) with false. cbv iota.
  apply (anyDep_true _ _ b); [| done |].
  - intros d Hd. apply (detectCircularFuel_is_Some g N HN).
    + by apply HN, (getOrEmpty_members _ a).
    + lia.
  - rewrite detectCircularFuel_step.
    assert (JSSet.has b (JSSet.add a []) = false) as -> by (by apply has_false).
    apply (anyDep_true _ _ a); [| done |].
    + intros d Hd. apply (detectCircularFuel_is_Some g N HN).
      * by apply HN, (getOrEmpty_members _ b).
      * lia.
    + destruct n as [| n']; [lia |].
      rewrite detectCircularFuel_step.
      assert (JSSet.has a (JSSet.add b (JSSet.add a [])) = true) as ->; [| done].
      apply has_true, add_elem. right. apply add_elem. by left.
Qed.

(** ** A cycle through the evaluated cell gives the circular result *)

Lemma precedentsOf_formula (f : string) :
  isFormula f = true → precedentsOf f = Regex.matchRefs f.
Proof. unfold precedentsOf. by intros ->. Qed.

Lemma rewired_hasPrecedent (g : DependencyGraph) (cellId f x k : string) :
  hasPrecedent (rewired g cellId f) x k ↔
  (hasPrecedent g x k ∧ x ≠ cellId) ∨ (x = cellId ∧ k ∈ precedentsOf f).
Proof.
  unfold rewired.
  by rewrite addDependencies_hasPrecedent, removeDependencies_hasPrecedent.
Qed.

Lemma rewired_dependsOn (g : DependencyGraph) (cellId f x k : string) :
  dependsOn (rewired g cellId f) x k ↔
  (dependsOn g x k ∧ ¬ (x = cellId ∧ hasPrecedent g cellId k)) ∨
  (x = cellId ∧ k ∈ precedentsOf f).
Proof.
  unfold rewired.
  by rewrite addDependencies_dependsOn, removeDependencies_dependsOn.
Qed.

Section Cycles.

Variable hostFunction : string → completion (option num).

(** [evaluateCell] on a formula, by the outcome of the cycle check. *)
Lemma evaluateCell_formula_cases (cells : gmap string Cell) (g : DependencyGraph)
    (cellId f : string) :
  isFormula f = true →
  Spreadsheet.evaluateCell hostFunction cells g cellId f =
  match DependencyGraph.detectCircular (rewired g cellId f) cellId with
  | None => None
  | Some true =>
      Some ({| edisplay := "#CIRCULAR"; eformula := f;
               eerror := Some "Circular reference detected" |}, rewired g cellId f)
  | Some false =>
      let result :=
        FormulaParser.parse hostFunction f (Spreadsheet.getCellValue cells) in
      if Spreadsheet.isErrorValue (value result)
      then Some ({| edisplay := "#ERROR"; eformula := f; eerror := perror result |},
                 rewired g cellId f)
      else Some ({| edisplay := Spreadsheet.valueToString (value result);
                    eformula := f; eerror := None |}, rewired g cellId f)
  end.
Proof.
  intros Hf. unfold Spreadsheet.evaluateCell, rewired.
  rewrite literal_test, (precedentsOf_formula f Hf), Hf. reflexivity.
Qed.

Lemma evaluateCell_circular (cells : gmap string Cell) (g : DependencyGraph)
    (cellId f : string) :
  isFormula f = true →
  DependencyGraph.detectCircular (rewired g cellId f) cellId = Some true →
  Spreadsheet.evaluateCell hostFunction cells g cellId f =
  Some ({| edisplay := "#CIRCULAR"; eformula := f;
           eerror := Some "Circular reference detected" |}, rewired g cellId f).
Proof. intros Hf Hc. by rewrite (evaluateCell_formula_cases _ _ _ _ Hf), Hc. Qed.

Lemma evaluateCell_self (cells : gmap string Cell) (g : DependencyGraph)
    (x f : string) :
  isFormula f = true → x ∈ Regex.matchRefs f →
  Spreadsheet.evaluateCell hostFunction cells g x f =
  Some ({| edisplay := "#CIRCULAR"; eformula := f;
           eerror := Some "Circular reference detected" |}, rewired g x f).
Proof.
  intros Hf Hx. apply evaluateCell_circular; [done |].
  apply self_cycle_detected, rewired_hasPrecedent. right.
  by rewrite (precedentsOf_formula f Hf).
Qed.

Lemma evaluateCell_mutual (cells : gmap string Cell) (g : DependencyGraph)
    (x y f : string) :
  isFormula f = true → y ∈ Regex.matchRefs f → x ≠ y → hasPrecedent g y x →
  Spreadsheet.evaluateCell hostFunction cells g x f =
  Some ({| edisplay := "#CIRCULAR"; eformula := f;
           eerror := Some "Circular reference detected" |}, rewired g x f).
Proof.
  intros Hf Hy Hne Hyx. apply evaluateCell_circular; [done |].
  apply (two_cycle_detected _ x y Hne).
  - apply rewired_hasPrecedent. right. by rewrite (precedentsOf_formula f Hf).
  - apply rewired_hasPrecedent. left. split; [done | congruence].
Qed.

End Cycles.

(** ** What the loop leaves alone *)

Section Visited.

Variable hostFunction : string → completion (option num).
Variable cells : gmap string Cell.

(** The updater, as one evaluation followed by the loop. *)
Lemma updateCellFrom_inv (prev : gmap string Cell) (g : DependencyGraph)
    (cellId input : string) (s : Spreadsheet.Recalc) :
  Spreadsheet.updateCellFrom hostFunction cells prev g cellId input = Some s →
  ∃ r g1 deps,
    Spreadsheet.evaluateCell hostFunction cells g cellId input = Some (r, g1) ∧
    DependencyGraph.getAllDependents g1 cellId = Some deps ∧
    Spreadsheet.recalcLoop hostFunction (Spreadsheet.recalcFuel g1 deps) cells
      {| Spreadsheet.newCells := <[cellId := committed input input r]> prev;
         Spreadsheet.rgraph := g1; Spreadsheet.visited := [cellId];
         Spreadsheet.recalcQueue := deps; Spreadsheet.evaluated := [] |} = Some s.
Proof.
  unfold Spreadsheet.updateCellFrom.
  destruct (Spreadsheet.evaluateCell _ _ _ _ _) as [[r g1] |] eqn:He; [| done].
  destruct (DependencyGraph.getAllDependents g1 cellId) as [deps |] eqn:Hd; [| done].
  intros Hl. exists r, g1, deps. split_and!; [done | done |].
  rewrite (evaluateCell_formula _ _ _ _ _ _ _ He) in Hl. exact Hl.
Qed.

(** A round changes neither the record nor the edges of a visited cell
    other than the one it dequeued, which stays visited. *)
Lemma recalcRound_other (s s' : Spreadsheet.Recalc) (d x : string) (q : list string) :
  Spreadsheet.recalcRound hostFunction cells s d q = Some s' →
  (∀ y, y ∈ Spreadsheet.visited s → y ∈ Spreadsheet.visited s') ∧
  (x ≠ d ∨ x ∈ Spreadsheet.visited s →
   Spreadsheet.newCells s' !! x = Spreadsheet.newCells s !! x ∧
   (x ∈ Spreadsheet.visited s' ↔ x ∈ Spreadsheet.visited s ∨ x = d) ∧
   (∀ k, hasPrecedent (Spreadsheet.rgraph s') x k ↔
         hasPrecedent (Spreadsheet.rgraph s) x k) ∧
   (∀ k, dependsOn (Spreadsheet.rgraph s') x k ↔
         dependsOn (Spreadsheet.rgraph s) x k)).
Proof.
  unfold Spreadsheet.recalcRound.
  destruct (JSSet.has d (Spreadsheet.visited s)) eqn:Ev.
  { apply has_true in Ev. intros [= <-]; simpl. split; [done |]. intros _.
    split_and!; try done. split; [by left | by intros [? | ->]]. }
  apply has_false in Ev.
  assert (Hskip :
    (∀ y, y ∈ Spreadsheet.visited s → y ∈ JSSet.add d (Spreadsheet.visited s)) ∧
    (x ∈ JSSet.add d (Spreadsheet.visited s) ↔ x ∈ Spreadsheet.visited s ∨ x = d)).
  { split; [intros y Hy; apply add_elem; by right |]. rewrite add_elem. tauto. }
  destruct Hskip as [Hmono Hx].
  destruct (Spreadsheet.newCells s !! d) as [c |] eqn:Ec;
    [| intros [= <-]; simpl; by split_and!].
  destruct (JSString.isEmpty (formula c)); [intros [= <-]; simpl; by split_and! |].
  destruct (Spreadsheet.evaluateCell _ _ _ _ _) as [[r g] |] eqn:He; [| done].
  destruct (DependencyGraph.getAllDependents g d); [| done].
  intros [= <-]; simpl. split; [done |]. intros Hxd.
  assert (x ≠ d) as Hne by (destruct Hxd as [? | ?]; congruence).
  split_and!; [by rewrite lookup_insert_ne | done | |].
  - intros k. rewrite (evaluateCell_hasPrecedent _ _ _ _ _ _ _ x k He). naive_solver.
  - intros k. rewrite (evaluateCell_dependsOn _ _ _ _ _ _ _ x k He). naive_solver.
Qed.

(** The loop leaves the record and the edges of a visited cell as they
    were when it started. *)
Lemma recalcLoop_visited_kept (fuel : nat) (s s' : Spreadsheet.Recalc) (x : string) :
  x ∈ Spreadsheet.visited s →
  Spreadsheet.recalcLoop hostFunction fuel cells s = Some s' →
  Spreadsheet.newCells s' !! x = Spreadsheet.newCells s !! x ∧
  (∀ k, hasPrecedent (Spreadsheet.rgraph s') x k ↔
        hasPrecedent (Spreadsheet.rgraph s) x k) ∧
  (∀ k, dependsOn (Spreadsheet.rgraph s') x k ↔
        dependsOn (Spreadsheet.rgraph s) x k).
Proof.
  intros Hx Hl.
  apply (recalcLoop_invariant hostFunction cells
           (fun t => x ∈ Spreadsheet.visited t ∧
                     Spreadsheet.newCells t !! x = Spreadsheet.newCells s !! x ∧
                     (∀ k, hasPrecedent (Spreadsheet.rgraph t) x k ↔
                           hasPrecedent (Spreadsheet.rgraph s) x k) ∧
                     (∀ k, dependsOn (Spreadsheet.rgraph t) x k ↔
                           dependsOn (Spreadsheet.rgraph s) x k)))
    in Hl as [(_ & H1 & H2 & H3) _]; [done | | done].
  intros t d q t' (Hv & Hc & Hp & Hd) _ Hr.
  destruct (recalcRound_other t t' d x q Hr) as [Hmono Hkeep].
  destruct Hkeep as (Hc' & _ & Hp' & Hd'); [by right |].
  split_and!; [by apply Hmono | congruence | |].
  - intros k. by rewrite Hp', Hp.
  - intros k. by rewrite Hd', Hd.
Qed.

(** After an edit the edited cell holds the record of its evaluation, and
    its edges are those of the graph the evaluation returned. *)
Lemma updateCellFrom_edited (prev : gmap string Cell) (g : DependencyGraph)
    (cellId input : string) (s : Spreadsheet.Recalc) (r : Evaluation)
    (g1 : DependencyGraph) :
  Spreadsheet.updateCellFrom hostFunction cells prev g cellId input = Some s →
  Spreadsheet.evaluateCell hostFunction cells g cellId input = Some (r, g1) →
  Spreadsheet.newCells s !! cellId = Some (committed input input r) ∧
  (∀ k, hasPrecedent (Spreadsheet.rgraph s) cellId k ↔ hasPrecedent g1 cellId k) ∧
  (∀ k, dependsOn (Spreadsheet.rgraph s) cellId k ↔ dependsOn g1 cellId k).
Proof.
  intros (r' & g1' & deps & He & _ & Hl)%updateCellFrom_inv He'.
  rewrite He in He'. injection He' as -> ->.
  apply (recalcLoop_visited_kept _ _ _ cellId) in Hl as (H1 & H2 & H3);
    [| by apply list_elem_of_singleton].
  simpl in *. rewrite lookup_insert_eq in H1. done.
Qed.

End Visited.

(** ** Circular references *)

Lemma formula_not_empty (f : string) :
  isFormula f = true → JSString.isEmpty f = false.
Proof. by destruct f. Qed.

Lemma getCellValue_circular (tbl : gmap string Cell) (x f : string) :
  tbl !! x = Some (circularCell f) → Spreadsheet.getCellValue tbl x = None.
Proof. unfold Spreadsheet.getCellValue. by intros ->. Qed.

Section Mutual.

Variable hostFunction : string → completion (option num).
Variable cells : gmap string Cell.

(** A round keeps what was left in the queue. *)
Lemma recalcRound_queue (s s' : Spreadsheet.Recalc) (d : string) (q : list string) :
  Spreadsheet.recalcRound hostFunction cells s d q = Some s' →
  ∀ y, y ∈ q → y ∈ Spreadsheet.recalcQueue s'.
Proof.
  unfold Spreadsheet.recalcRound.
  destruct (JSSet.has d (Spreadsheet.visited s)); [by intros [= <-] |].
  destruct (Spreadsheet.newCells s !! d) as [c |]; [| by intros [= <-]].
  destruct (JSString.isEmpty (formula c)); [by intros [= <-] |].
  destruct (Spreadsheet.evaluateCell _ _ _ _ _) as [[r g] |]; [| done].
  destruct (DependencyGraph.getAllDependents g d); [| done].
  intros [= <-] y Hy; simpl. apply elem_of_app. by left.
Qed.

(** The round that dequeues a cell holding a formula, not yet visited. *)
Lemma recalcRound_evaluates (s s' : Spreadsheet.Recalc) (d : string) (q : list string)
    (c : Cell) (r : Evaluation) (g : DependencyGraph) :
  d ∉ Spreadsheet.visited s →
  Spreadsheet.newCells s !! d = Some c →
  JSString.isEmpty (formula c) = false →
  Spreadsheet.evaluateCell hostFunction cells (Spreadsheet.rgraph s) d (formula c)
    = Some (r, g) →
  Spreadsheet.recalcRound hostFunction cells s d q = Some s' →
  Spreadsheet.newCells s' =
    <[d := committed (rawValue c) (formula c) r]> (Spreadsheet.newCells s) ∧
  Spreadsheet.rgraph s' = g ∧
  d ∈ Spreadsheet.visited s'.
Proof.
  intros Hv%has_false Hc He Hev. unfold Spreadsheet.recalcRound.
  rewrite Hv, Hc, He, Hev.
  destruct (DependencyGraph.getAllDependents g d); [| done].
  intros [= <-]; simpl. split_and!; [done | done |]. apply add_elem. by left.
Qed.

(** The second edit of a mutual pair: [y] is edited to a formula that
    refers to [x], while [x] holds a formula [f1] that refers to [y] and
    has its edges in the graph. Both end as circular. *)
Lemma updateCellFrom_mutual (prev : gmap string Cell) (g : DependencyGraph)
    (x y f1 f2 : string) (c1 : Cell) (s : Spreadsheet.Recalc) :
  x ≠ y →
  isFormula f1 = true → y ∈ Regex.matchRefs f1 →
  isFormula f2 = true → x ∈ Regex.matchRefs f2 →
  prev !! x = Some c1 → rawValue c1 = f1 → formula c1 = f1 →
  hasPrecedent g x y → dependsOn g x y →
  Spreadsheet.updateCellFrom hostFunction cells prev g y f2 = Some s →
  Spreadsheet.newCells s !! x = Some (circularCell f1) ∧
  Spreadsheet.newCells s !! y = Some (circularCell f2).
Proof.
  intros Hne Hf1 Hy Hf2 Hx Hc1 Hraw Hform Hp Hd Hs.
  apply updateCellFrom_inv in Hs as (r & g2 & deps & He & Hdeps & Hl).
  rewrite (evaluateCell_mutual hostFunction cells g y x f2 Hf2 Hx (not_eq_sym Hne) Hp)
    in He.
  injection He as <- <-.
  assert (Hxdeps : x ∈ deps).
  { destruct (getAllDependents_is_Some (rewired g y f2) y) as (deps' & Hd' & _ & _ & Hin).
    rewrite Hdeps in Hd'. injection Hd' as <-. apply Hin.
    apply rewired_dependsOn. left. split; [done |]. intros [? _]. done. }
  apply (recalcLoop_invariant hostFunction cells
           (fun t => y ∈ Spreadsheet.visited t ∧
                     Spreadsheet.newCells t !! y = Some (circularCell f2) ∧
                     hasPrecedent (Spreadsheet.rgraph t) y x ∧
                     ((x ∈ Spreadsheet.visited t ∧
                       Spreadsheet.newCells t !! x = Some (circularCell f1)) ∨
                      ((x ∉ Spreadsheet.visited t) ∧ x ∈ Spreadsheet.recalcQueue t ∧
                       Spreadsheet.newCells t !! x = Some c1))))
    in Hl as [(_ & Hy' & _ & Hx') Hq].
  - split; [| done]. destruct Hx' as [[_ H] | (_ & H & _)]; [done |].
    rewrite Hq in H. by apply not_elem_of_nil in H.
  - intros t d q t' (Hvy & Hcy & Hpy & Hcase) Hq Hr.
    destruct (recalcRound_other hostFunction cells t t' d y q Hr) as [Hmono Hkeep].
    destruct Hkeep as (Hcy' & _ & Hpy' & _); [by right |].
    split_and!; [by apply Hmono | congruence | by apply Hpy' |].
    destruct Hcase as [[Hvx Hcx] | (Hvx & Hqx & Hcx)].
    + left. destruct (recalcRound_other hostFunction cells t t' d x q Hr) as [_ Hkx].
      destruct Hkx as (Hcx' & _ & _ & _); [by right |].
      split; [by apply Hmono | congruence].
    + destruct (decide (x = d)) as [<- | Hxd].
      * left.
        assert (He : Spreadsheet.evaluateCell hostFunction cells (Spreadsheet.rgraph t)
                       x (formula c1) =
                     Some ({| edisplay := "#CIRCULAR"; eformula := f1;
                              eerror := Some "Circular reference detected" |},
                           rewired (Spreadsheet.rgraph t) x f1)).
        { rewrite Hform. by apply (evaluateCell_mutual hostFunction cells _ x y f1). }
        assert (Hne1 : JSString.isEmpty (formula c1) = false)
          by (rewrite Hform; by apply formula_not_empty).
        destruct (recalcRound_evaluates t t' x q c1 _ _ Hvx Hcx Hne1 He Hr)
          as (Hn & _ & Hv').
        split; [done |]. rewrite Hn, lookup_insert_eq, Hraw, Hform. done.
      * right.
        destruct (recalcRound_other hostFunction cells t t' d x q Hr) as [_ Hkx].
        destruct Hkx as (Hcx' & Hvx' & _ & _); [by left |].
        split_and!; [| | congruence].
        -- rewrite Hvx'. intros [? | ?]; done.
        -- apply (recalcRound_queue t t' d q Hr).
           rewrite Hq in Hqx. apply elem_of_cons in Hqx as [? | ?]; done.
  - simpl. split_and!.
    + by apply list_elem_of_singleton.
    + by rewrite lookup_insert_eq.
    + apply rewired_hasPrecedent. right. by rewrite (precedentsOf_formula f2 Hf2).
    + right. split_and!; [| done | by rewrite lookup_insert_ne].
      intros ->%list_elem_of_singleton. done.
Qed.

End Mutual.

(** ** The two extractions of references agree *)

(** [evaluateCell] matches the whole formula, [parse] the trimmed text
    after the [=]; the tokens are the same. *)

Lemma whiteSpace_not_token (c : ascii) :
  JSString.isWhiteSpace c = true →
  Regex.isColumn c = false ∧ Regex.isRow1to9 c = false ∧
  Ascii.eqb c "1" = false ∧ Ascii.eqb c "0" = false.
Proof.
  destruct c as [[] [] [] [] [] [] [] []]; vm_compute; intros H;
    first [discriminate H | by split_and!].
Qed.

(** [matchRefs] with its patterns written as tests. *)
Lemma matchRefs_cons (c : ascii) (s1 : string) :
  Regex.matchRefs (String c s1) =
  if Regex.isColumn c then
    match s1 with
    | EmptyString => []
    | String d s2 =>
        if Ascii.eqb d "1" &&
           match s2 with String e _ => Ascii.eqb e "0" | EmptyString => false end
        then String c "10" :: Regex.matchRefs (JSString.drop 1 s2)
        else if Regex.isRow1to9 d
             then String c (String d EmptyString) :: Regex.matchRefs s2
             else Regex.matchRefs s1
    end
  else Regex.matchRefs s1.
Proof.
  cbn [Regex.matchRefs]. destruct (Regex.isColumn c); [| done].
  destruct s1 as [| d s2]; [done |].
  destruct (Ascii.eqb_spec d "1") as [-> | Hd].
  - destruct s2 as [| e s3]; [done |].
    destruct (Ascii.eqb_spec e "0") as [-> | He]; [done |].
    destruct e as [[] [] [] [] [] [] [] []]; try done.
  - destruct d as [[] [] [] [] [] [] [] []]; try done.
Qed.

Lemma matchRefs_whiteSpace (w : string) :
  JSString.forallb JSString.isWhiteSpace w = true → Regex.matchRefs w = [].
Proof.
  induction w as [| a w IH]; [done |]. intros [Ha Hw]%andb_true_iff.
  rewrite matchRefs_cons. destruct (whiteSpace_not_token a Ha) as (-> & _). by apply IH.
Qed.

Lemma matchRefs_app_whiteSpace (w : string) :
  JSString.forallb JSString.isWhiteSpace w = true →
  ∀ (n : nat) (t : string), (String.length t ≤ n)%nat →
    Regex.matchRefs (t +:+ w) = Regex.matchRefs t.
Proof.
  intros Hw. induction n as [| n IH]; intros t Hlen.
  { destruct t; [| simpl in Hlen; lia]. simpl. by apply matchRefs_whiteSpace. }
  destruct t as [| c s1]; [simpl; by apply matchRefs_whiteSpace |].
  simpl in Hlen. change (String c s1 +:+ w) with (String c (s1 +:+ w)).
  rewrite !matchRefs_cons. destruct (Regex.isColumn c); [| apply IH; lia].
  destruct s1 as [| d s2].
  - change (EmptyString +:+ w) with w. destruct w as [| a w'] eqn:Ew; [done |].
    pose proof Hw as Hw0. apply andb_true_iff in Hw as [Ha Hw'].
    destruct (whiteSpace_not_token a Ha) as (_ & -> & -> & _).
    rewrite andb_false_l. by apply matchRefs_whiteSpace.
  - simpl in Hlen. change (String d s2 +:+ w) with (String d (s2 +:+ w)).
    destruct s2 as [| e s3].
    + change (EmptyString +:+ w) with w. cbn [JSString.drop].
      assert (match w with String e _ => Ascii.eqb e "0" | EmptyString => false end = false)
        as ->.
      { destruct w as [| a w']; [done |]. apply andb_true_iff in Hw as [Ha _].
        by destruct (whiteSpace_not_token a Ha) as (_ & _ & _ & ->). }
      rewrite andb_false_r. destruct (Regex.isRow1to9 d).
      * f_equal. by apply matchRefs_whiteSpace.
      * change (String d w) with (String d EmptyString +:+ w). apply IH. simpl. lia.
    + simpl in Hlen. change (String e s3 +:+ w) with (String e (s3 +:+ w)).
      cbn [JSString.drop].
      destruct (Ascii.eqb d "1" && Ascii.eqb e "0").
      * f_equal. apply IH. lia.
      * destruct (Regex.isRow1to9 d).
        -- f_equal. change (String e (s3 +:+ w)) with (String e s3 +:+ w).
           apply IH. simpl. lia.
        -- change (String d (String e (s3 +:+ w))) with (String d (String e s3) +:+ w).
           apply IH. simpl. lia.
Qed.

Lemma trimEnd_split (s : string) :
  ∃ w, s = JSString.trimEnd s +:+ w ∧
       JSString.forallb JSString.isWhiteSpace w = true.
Proof.
  induction s as [| c s (w & Hs & Hw)]; [by exists EmptyString |].
  cbn [JSString.trimEnd]. destruct (JSString.trimEnd s) as [| a t] eqn:E.
  - change (EmptyString +:+ w) with w in Hs. subst s.
    destruct (JSString.isWhiteSpace c) eqn:Ec.
    + exists (String c w). split; [done |]. simpl. by rewrite Ec, Hw.
    + by exists w.
  - exists w. split; [| done].
    change (String c (String a t) +:+ w) with (String c (String a t +:+ w)).
    by rewrite <- Hs.
Qed.

Lemma matchRefs_trimEnd (s : string) :
  Regex.matchRefs (JSString.trimEnd s) = Regex.matchRefs s.
Proof.
  destruct (trimEnd_split s) as (w & Hs & Hw). rewrite Hs at 2.
  symmetry. by apply (matchRefs_app_whiteSpace w Hw (String.length (JSString.trimEnd s))).
Qed.

Lemma matchRefs_trimStart (s : string) :
  Regex.matchRefs (JSString.trimStart s) = Regex.matchRefs s.
Proof.
  induction s as [| c s IH]; [done |]. cbn [JSString.trimStart].
  destruct (JSString.isWhiteSpace c) eqn:Ec; [| done].
  rewrite (matchRefs_cons c s). by destruct (whiteSpace_not_token c Ec) as (-> & _).
Qed.


(** ** References that do not resolve *)



(** An empty cell is one of the references that do not resolve. *)
Lemma empty_display_invalid (tbl : gmap string Cell) (ref : string) (c : Cell) :
  tbl !! ref = Some c → display c = EmptyString → invalidReference tbl ref.
Proof. unfold invalidReference. intros -> ->. right. by right. Qed.



Section Invalid.

Variable hostFunction : string → completion (option num).



End Invalid.

(** * The properties the specification states *)


(** C1. With A1 = 5, B1 = [=A1+3] and C1 = [=B1*2] on the grid, the edit
    of A1 to 10 re-evaluates B1 and then C1, but both are computed from
    the table of the last render: B1 still displays 8 and C1 still 16,
    not 13 and 26. *)
Theorem C1_dependents_read_rendered_table
    (hostFunction : string → completion (option num)) :
  let before := stateAfter hostFunction
                  [("A1", "5"); ("B1", "=A1+3"); ("C1", "=B1*2")] in
  let after := stateAfter hostFunction
                 [("A1", "5"); ("B1", "=A1+3"); ("C1", "=B1*2"); ("A1", "10")] in
  displayAt before "A1" = Some "5" ∧
  displayAt before "B1" = Some "8" ∧
  displayAt before "C1" = Some "16" ∧
  Spreadsheet.updateCell hostFunction before "A1" "10" = Some after ∧
  Spreadsheet.recalculated hostFunction before "A1" "10" = Some ["B1"; "C1"] ∧
  displayAt after "A1" = Some "10" ∧
  displayAt after "B1" = Some "8" ∧
  displayAt after "C1" = Some "16".
Proof.
  cbv zeta. split_and!;
    first [ apply (stateAfter_snoc hostFunction
                     [("A1", "5"); ("B1", "=A1+3"); ("C1", "=B1*2")] "A1" "10")
          | vm_compute; reflexivity ].
Qed.

(** C2. With B1 = 5 and B10 = 7, the formula [=B1+B10] displays 55: the
    replacement of B1 also rewrites the first two characters of B10, so
    the text evaluated is [5+50]. *)
Theorem C2_prefix_reference_rewritten
    (hostFunction : string → completion (option num)) :
  let st := stateAfter hostFunction
              [("B1", "5"); ("B10", "7"); ("A1", "=B1+B10")] in
  Regex.matchRefs "=B1+B10" = ["B1"; "B10"] ∧
  Regex.replaceAll "B10" "7" (Regex.replaceAll "B1" "5" "B1+B10") = "5+50" ∧
  cellAt st "A1" = Some {| rawValue := "=B1+B10"; formula := "=B1+B10";
                           display := "55"; error := None |}.
Proof. cbv zeta. split_and!; vm_compute; reflexivity. Qed.

(** C3, as amended. In every state reached by edits of grid cells: a cell
    with an error reason displays a sentinel; a formula cell that displays
    a sentinel has an error reason; a literal cell has no error reason and
    displays its own text, whatever that text is. *)
Theorem C3_error_reason_and_sentinel
    (hostFunction : string → completion (option num)) (st : Spreadsheet.State) :
  reachable hostFunction st →
  ∀ (id : string) (c : Cell), cellAt st id = Some c →
    (error c ≠ None → sentinel (display c)) ∧
    (isFormula (rawValue c) = true → sentinel (display c) → error c ≠ None) ∧
    (isFormula (rawValue c) = false → error c = None ∧ display c = rawValue c).
Proof.
  intros Hr id c Hc.
  destruct (reachable_invariant hostFunction st Hr) as (Hcons & _ & _).
  destruct (Hcons id c Hc) as (_ & H1 & H2).
  split; [done |]. destruct (isFormula (rawValue c)); split; done.
Qed.

Lemma C3_error_reason_and_sentinel_witness :
  let st := stateAfter refusingHost [("A1", "=5/0")] in
  let c := {| rawValue := "=5/0"; formula := "=5/0"; display := "#ERROR";
              error := Some "Invalid result" |} in
  reachable refusingHost st ∧ cellAt st "A1" = Some c ∧
  (error c ≠ None → sentinel (display c)) ∧
  (isFormula (rawValue c) = true → sentinel (display c) → error c ≠ None) ∧
  (isFormula (rawValue c) = false → error c = None ∧ display c = rawValue c).
Proof.
  cbv zeta.
  assert (Hr : reachable refusingHost (stateAfter refusingHost [("A1", "=5/0")]))
    by (apply stateAfter_reachable; grid_edits).
  assert (Hc : cellAt (stateAfter refusingHost [("A1", "=5/0")]) "A1" =
               Some {| rawValue := "=5/0"; formula := "=5/0"; display := "#ERROR";
                       error := Some "Invalid result" |})
    by (vm_compute; reflexivity).
  split; [exact Hr |]. split; [exact Hc |].
  exact (C3_error_reason_and_sentinel refusingHost _ Hr "A1" _ Hc).
Defined.

(** C3 as stated fails: the literal input [#ERROR] displays the sentinel
    and has no error reason. *)
Lemma C3_literal_sentinel_counterexample :
  ¬ (∀ st : Spreadsheet.State, reachable refusingHost st →
       ∀ (id : string) (c : Cell), cellAt st id = Some c →
         (error c ≠ None ↔ sentinel (display c))).
Proof.
  intros H.
  assert (Hr : reachable refusingHost (stateAfter refusingHost [("A1", "#ERROR")]))
    by (apply stateAfter_reachable; grid_edits).
  assert (Hc : cellAt (stateAfter refusingHost [("A1", "#ERROR")]) "A1" =
               Some {| rawValue := "#ERROR"; formula := "#ERROR"; display := "#ERROR";
                       error := None |})
    by (vm_compute; reflexivity).
  destruct (H _ Hr "A1" _ Hc) as [_ H2]. simpl in H2.
  apply H2; [by left | done].
Qed.

(** C4. In any state, a cell edited to a formula that refers to itself
    ends with the circular record. In any state, after a cell [x] is
    edited to a formula that refers to another cell [y] and [y] is then
    edited to a formula that refers to [x], both end with the circular
    record, and neither resolves to a number. The two cases of the
    specification are instances: [A1 = "=A1+1"], and [A1 = "=B1"] followed
    by [B1 = "=A1"]. *)
Theorem C4_cycles_display_circular
    (hostFunction : string → completion (option num)) :
  (∀ (st : Spreadsheet.State) (x f : string),
     isFormula f = true → x ∈ Regex.matchRefs f →
     ∃ st', Spreadsheet.updateCell hostFunction st x f = Some st' ∧
            cellAt st' x = Some (circularCell f) ∧
            Spreadsheet.getCellValue (Spreadsheet.cells st') x = None) ∧
  (∀ (st : Spreadsheet.State) (x y f1 f2 : string),
     x ≠ y →
     isFormula f1 = true → y ∈ Regex.matchRefs f1 →
     isFormula f2 = true → x ∈ Regex.matchRefs f2 →
     ∃ st1 st2,
       Spreadsheet.updateCell hostFunction st x f1 = Some st1 ∧
       Spreadsheet.updateCell hostFunction st1 y f2 = Some st2 ∧
       cellAt st2 x = Some (circularCell f1) ∧
       cellAt st2 y = Some (circularCell f2) ∧
       Spreadsheet.getCellValue (Spreadsheet.cells st2) x = None ∧
       Spreadsheet.getCellValue (Spreadsheet.cells st2) y = None) ∧
  cellAt (stateAfter hostFunction [("A1", "=A1+1")]) "A1"
    = Some (circularCell "=A1+1") ∧
  cellAt (stateAfter hostFunction [("A1", "=B1"); ("B1", "=A1")]) "A1"
    = Some (circularCell "=B1") ∧
  cellAt (stateAfter hostFunction [("A1", "=B1"); ("B1", "=A1")]) "B1"
    = Some (circularCell "=A1").
Proof.
  split; [| split; [| split_and!; vm_compute; reflexivity]].
  - intros st x f Hf Hx.
    destruct (updateCellFrom_is_Some hostFunction (Spreadsheet.cells st)
                (Spreadsheet.cells st) (Spreadsheet.dependencyGraph st) x f) as [s Hs].
    destruct (updateCellFrom_edited hostFunction _ _ _ _ _ _ _ _ Hs
                (evaluateCell_self hostFunction _ _ x f Hf Hx)) as (Hc & _ & _).
    exists {| Spreadsheet.cells := Spreadsheet.newCells s;
              Spreadsheet.dependencyGraph := Spreadsheet.rgraph s |}.
    unfold Spreadsheet.updateCell. rewrite Hs.
    split_and!; [done | exact Hc |]. by apply (getCellValue_circular _ x f).
  - intros st x y f1 f2 Hne Hf1 Hy Hf2 Hx.
    destruct (updateCellFrom_is_Some hostFunction (Spreadsheet.cells st)
                (Spreadsheet.cells st) (Spreadsheet.dependencyGraph st) x f1) as [s1 Hs1].
    destruct (evaluateCell_is_Some hostFunction (Spreadsheet.cells st)
                (Spreadsheet.dependencyGraph st) x f1) as [[r1 g1] He1].
    destruct (updateCellFrom_edited hostFunction _ _ _ _ _ _ _ _ Hs1 He1)
      as (Hc1 & Hp1 & Hd1).
    assert (Hg1 : g1 = rewired (Spreadsheet.dependencyGraph st) x f1)
      by (by apply evaluateCell_graph in He1).
    assert (Hp : hasPrecedent (Spreadsheet.rgraph s1) x y).
    { apply Hp1. rewrite Hg1. apply rewired_hasPrecedent. right.
      by rewrite (precedentsOf_formula f1 Hf1). }
    assert (Hd : dependsOn (Spreadsheet.rgraph s1) x y).
    { apply Hd1. rewrite Hg1. apply rewired_dependsOn. right.
      by rewrite (precedentsOf_formula f1 Hf1). }
    destruct (updateCellFrom_is_Some hostFunction (Spreadsheet.newCells s1)
                (Spreadsheet.newCells s1) (Spreadsheet.rgraph s1) y f2) as [s2 Hs2].
    destruct (updateCellFrom_mutual hostFunction _ _ _ x y f1 f2 _ s2
                Hne Hf1 Hy Hf2 Hx Hc1 eq_refl eq_refl Hp Hd Hs2) as [Hcx Hcy].
    exists {| Spreadsheet.cells := Spreadsheet.newCells s1;
              Spreadsheet.dependencyGraph := Spreadsheet.rgraph s1 |},
           {| Spreadsheet.cells := Spreadsheet.newCells s2;
              Spreadsheet.dependencyGraph := Spreadsheet.rgraph s2 |}.
    unfold Spreadsheet.updateCell. rewrite Hs1. simpl. rewrite Hs2.
    split_and!; [done | done | exact Hcx | exact Hcy | |].
    + by apply (getCellValue_circular _ x f1).
    + by apply (getCellValue_circular _ y f2).
Qed.

Lemma C4_cycles_display_circular_witness :
  (isFormula "=A1+1" = true ∧ "A1" ∈ Regex.matchRefs "=A1+1" ∧
   ∃ st', Spreadsheet.updateCell refusingHost Spreadsheet.initialState "A1" "=A1+1"
            = Some st' ∧
          cellAt st' "A1" = Some (circularCell "=A1+1") ∧
          Spreadsheet.getCellValue (Spreadsheet.cells st') "A1" = None) ∧
  ("A1" ≠ "B1" ∧ isFormula "=B1" = true ∧ "B1" ∈ Regex.matchRefs "=B1" ∧
   isFormula "=A1" = true ∧ "A1" ∈ Regex.matchRefs "=A1" ∧
   ∃ st1 st2,
     Spreadsheet.updateCell refusingHost Spreadsheet.initialState "A1" "=B1"
       = Some st1 ∧
     Spreadsheet.updateCell refusingHost st1 "B1" "=A1" = Some st2 ∧
     cellAt st2 "A1" = Some (circularCell "=B1") ∧
     cellAt st2 "B1" = Some (circularCell "=A1") ∧
     Spreadsheet.getCellValue (Spreadsheet.cells st2) "A1" = None ∧
     Spreadsheet.getCellValue (Spreadsheet.cells st2) "B1" = None).
Proof.
  assert (H1 : "A1" ∈ Regex.matchRefs "=A1+1") by (apply has_true; reflexivity).
  assert (H2 : "B1" ∈ Regex.matchRefs "=B1") by (apply has_true; reflexivity).
  assert (H3 : "A1" ∈ Regex.matchRefs "=A1") by (apply has_true; reflexivity).
  assert (Hne : "A1" ≠ "B1") by discriminate.
  split.
  - split; [reflexivity |]. split; [exact H1 |].
    exact (proj1 (C4_cycles_display_circular refusingHost)
             Spreadsheet.initialState "A1" "=A1+1" eq_refl H1).
  - split; [exact Hne |]. split; [reflexivity |]. split; [exact H2 |].
    split; [reflexivity |]. split; [exact H3 |].
    exact (proj1 (proj2 (C4_cycles_display_circular refusingHost))
             Spreadsheet.initialState "A1" "B1" "=B1" "=A1" Hne eq_refl H2 eq_refl H3).
Defined.




(** C6. In every state reached by edits of grid cells, the precedents
    recorded for a cell are exactly the reference tokens of the formula it
    holds (none for a literal), and the forward index mirrors the reverse
    one. In particular after C1 = [=A1+B1] is edited to [=A1], B1 has no
    dependent left and an edit of B1 re-evaluates nothing, where before it
    re-evaluated C1. *)
Theorem C6_edges_are_formula_references
    (hostFunction : string → completion (option num)) :
  (∀ st : Spreadsheet.State, reachable hostFunction st →
     ∀ x k : string,
       (hasPrecedent (Spreadsheet.dependencyGraph st) x k ↔
        k ∈ precedentsOf (formulaAt (Spreadsheet.cells st) x)) ∧
       (dependsOn (Spreadsheet.dependencyGraph st) x k ↔
        hasPrecedent (Spreadsheet.dependencyGraph st) x k)) ∧
  (let st1 := stateAfter hostFunction
                [("A1", "1"); ("B1", "2"); ("C1", "=A1+B1")] in
   let st2 := stateAfter hostFunction
                [("A1", "1"); ("B1", "2"); ("C1", "=A1+B1"); ("C1", "=A1")] in
   DependencyGraph.getOrEmpty (reverseGraph (Spreadsheet.dependencyGraph st1)) "C1"
     = ["A1"; "B1"] ∧
   Spreadsheet.recalculated hostFunction st1 "B1" "7" = Some ["C1"] ∧
   Spreadsheet.updateCell hostFunction st1 "C1" "=A1" = Some st2 ∧
   DependencyGraph.getOrEmpty (reverseGraph (Spreadsheet.dependencyGraph st2)) "C1"
     = ["A1"] ∧
   DependencyGraph.getDependents (Spreadsheet.dependencyGraph st2) "B1" = [] ∧
   Spreadsheet.recalculated hostFunction st2 "B1" "7" = Some []).
Proof.
  split.
  - intros st Hr x k.
    destruct (reachable_invariant hostFunction st Hr) as (_ & Hm & _). apply Hm.
  - cbv zeta. split_and!;
      first [ apply (stateAfter_snoc hostFunction
                       [("A1", "1"); ("B1", "2"); ("C1", "=A1+B1")] "C1" "=A1")
            | vm_compute; reflexivity ].
Qed.

Lemma C6_edges_are_formula_references_witness :
  let st := stateAfter refusingHost [("A1", "1"); ("B1", "2"); ("C1", "=A1+B1")] in
  reachable refusingHost st ∧
  (hasPrecedent (Spreadsheet.dependencyGraph st) "C1" "B1" ↔
   "B1" ∈ precedentsOf (formulaAt (Spreadsheet.cells st) "C1")) ∧
  (dependsOn (Spreadsheet.dependencyGraph st) "C1" "B1" ↔
   hasPrecedent (Spreadsheet.dependencyGraph st) "C1" "B1").
Proof.
  cbv zeta.
  assert (Hr : reachable refusingHost
                 (stateAfter refusingHost [("A1", "1"); ("B1", "2"); ("C1", "=A1+B1")]))
    by (apply stateAfter_reachable; grid_edits).
  split; [exact Hr |].
  exact (proj1 (C6_edges_are_formula_references refusingHost) _ Hr "C1" "B1").
Defined.

(** C7. For every table, graph, cell and input the updater returns, with
    an empty queue; it evaluated no cell twice and never the edited cell,
    which is in the visited set, as is every cell it evaluated. A round
    that dequeues a visited cell only drops it from the queue, and a round
    adds to the queue only cells that are not visited. From a state
    reached by edits of grid cells the cells evaluated are grid cells
    other than the edited one, so fewer than 100. *)
Theorem C7_recalculation_terminates_once
    (hostFunction : string → completion (option num)) :
  (∀ (cells prev : gmap string Cell) (g : DependencyGraph) (cellId input : string),
     ∃ s, Spreadsheet.updateCellFrom hostFunction cells prev g cellId input = Some s ∧
          Spreadsheet.recalcQueue s = [] ∧
          NoDup (Spreadsheet.evaluated s) ∧
          (cellId ∉ Spreadsheet.evaluated s) ∧
          cellId ∈ Spreadsheet.visited s ∧
          (∀ x, x ∈ Spreadsheet.evaluated s → x ∈ Spreadsheet.visited s)) ∧
  (∀ (cells : gmap string Cell) (s : Spreadsheet.Recalc) (d : string) (q : list string),
     JSSet.has d (Spreadsheet.visited s) = true →
     Spreadsheet.recalcRound hostFunction cells s d q =
     Some (Spreadsheet.withQueue s (Spreadsheet.visited s) q)) ∧
  (∀ (cells : gmap string Cell) (s s' : Spreadsheet.Recalc) (d : string)
     (q : list string),
     Spreadsheet.recalcRound hostFunction cells s d q = Some s' →
     ∀ x, x ∈ Spreadsheet.recalcQueue s' → x ∈ q ∨ x ∉ Spreadsheet.visited s') ∧
  (∀ (st : Spreadsheet.State) (cellId input : string),
     reachable hostFunction st → cellId ∈ cellIds →
     ∃ st' log,
       Spreadsheet.updateCell hostFunction st cellId input = Some st' ∧
       Spreadsheet.recalculated hostFunction st cellId input = Some log ∧
       NoDup log ∧
       (∀ x, x ∈ log → x ∈ cellIds ∧ x ≠ cellId) ∧
       (length log < 100)%nat).
Proof.
  split_and!.
  - intros cells prev g cellId input.
    destruct (updateCellFrom_evaluatedOnce hostFunction cells prev g cellId input)
      as (s & Hs & Hq & Hnd & Hid & Hev).
    exists s. split_and!; try done.
    + intros Hx. by destruct (Hev cellId Hx) as (_ & ? & _).
    + intros x Hx. by destruct (Hev x Hx).
  - intros cells s d q Hv. unfold Spreadsheet.recalcRound. by rewrite Hv.
  - intros cells s s' d q. unfold Spreadsheet.recalcRound.
    destruct (JSSet.has d (Spreadsheet.visited s)); [intros [= <-]; simpl; by left |].
    destruct (Spreadsheet.newCells s !! d) as [c |];
      [| intros [= <-]; simpl; by left].
    destruct (JSString.isEmpty (formula c)); [intros [= <-]; simpl; by left |].
    destruct (Spreadsheet.evaluateCell _ _ _ _ _) as [[r g] |]; [| done].
    destruct (DependencyGraph.getAllDependents g d); [| done].
    intros [= <-] x; simpl.
    intros [Hx | Hx]%elem_of_app; [by left |].
    apply elem_filter_unvisited in Hx as [_ Hx]. by right.
  - intros st cellId input Hr Hid.
    destruct (updateCellFrom_evaluatedOnce hostFunction (Spreadsheet.cells st)
                (Spreadsheet.cells st) (Spreadsheet.dependencyGraph st) cellId input)
      as (s & Hs & Hq & Hnd & _ & Hev).
    pose proof (reachable_invariant hostFunction st Hr) as Hinv.
    apply (updateCellFrom_preserves hostFunction (Spreadsheet.cells st) engineInvariant
             cellId input) in Hs as Hinv'; [| | done].
    2: { intros tbl g g' d rv f r. by apply engineInvariant_commit. }
    destruct Hinv' as [(_ & _ & Hgrid) _].
    assert (Hlog : ∀ x, x ∈ Spreadsheet.evaluated s → x ∈ cellIds ∧ x ≠ cellId).
    { intros x Hx. destruct (Hev x Hx) as (_ & Hne & Hsome). split; [by apply Hgrid | done]. }
    exists {| Spreadsheet.cells := Spreadsheet.newCells s;
              Spreadsheet.dependencyGraph := Spreadsheet.rgraph s |},
           (Spreadsheet.evaluated s).
    unfold Spreadsheet.updateCell, Spreadsheet.recalculated. rewrite Hs.
    split_and!; try done.
    assert (NoDup (cellId :: Spreadsheet.evaluated s)) as Hnd'.
    { apply NoDup_cons. split; [| done]. intros Hx. by destruct (Hlog cellId Hx). }
    assert (length (cellId :: Spreadsheet.evaluated s) ≤ length cellIds)%nat as Hlen.
    { apply submseteq_length, NoDup_submseteq; [done |].
      intros x [-> | Hx]%elem_of_cons; [done | by destruct (Hlog x Hx)]. }
    rewrite length_cellIds in Hlen. simpl in Hlen. lia.
Qed.

Lemma C7_recalculation_terminates_once_witness :
  let st := stateAfter refusingHost [("A1", "5"); ("B1", "=A1+3"); ("C1", "=B1*2")] in
  reachable refusingHost st ∧ "A1" ∈ cellIds ∧
  ∃ st' log,
    Spreadsheet.updateCell refusingHost st "A1" "10" = Some st' ∧
    Spreadsheet.recalculated refusingHost st "A1" "10" = Some log ∧
    NoDup log ∧
    (∀ x, x ∈ log → x ∈ cellIds ∧ x ≠ "A1") ∧
    (length log < 100)%nat.
Proof.
  cbv zeta.
  assert (Hr : reachable refusingHost
                 (stateAfter refusingHost [("A1", "5"); ("B1", "=A1+3"); ("C1", "=B1*2")]))
    by (apply stateAfter_reachable; grid_edits).
  assert (Hid : "A1" ∈ cellIds) by grid_cell.
  split; [exact Hr |]. split; [exact Hid |].
  exact (proj2 (proj2 (proj2 (C7_recalculation_terminates_once refusingHost)))
           _ "A1" "10" Hr Hid).
Defined.

(** C8. Applying the edit of A1 to 10 twice gives two different tables:
    after the first application B1 = [=A1+3] displays 8, after the second
    it displays 13. *)
Theorem C8_same_edit_twice_differs
    (hostFunction : string → completion (option num)) :
  let st0 := stateAfter hostFunction [("A1", "5"); ("B1", "=A1+3")] in
  let st1 := stateAfter hostFunction [("A1", "5"); ("B1", "=A1+3"); ("A1", "10")] in
  let st2 := stateAfter hostFunction
               [("A1", "5"); ("B1", "=A1+3"); ("A1", "10"); ("A1", "10")] in
  Spreadsheet.updateCell hostFunction st0 "A1" "10" = Some st1 ∧
  Spreadsheet.updateCell hostFunction st1 "A1" "10" = Some st2 ∧
  displayAt st1 "B1" = Some "8" ∧
  displayAt st2 "B1" = Some "13" ∧
  Spreadsheet.cells st1 ≠ Spreadsheet.cells st2.
Proof.
  cbv zeta. split_and!;
    try first
      [ apply (stateAfter_snoc hostFunction [("A1", "5"); ("B1", "=A1+3")] "A1" "10")
      | apply (stateAfter_snoc hostFunction
                 [("A1", "5"); ("B1", "=A1+3"); ("A1", "10")] "A1" "10")
      | vm_compute; reflexivity ].
  intros H. apply (f_equal (fun tbl => display <$> tbl !! "B1")) in H.
  vm_compute in H. discriminate H.
Qed.



(** C10. B1 = [=A1] entered while A1 is empty displays the error and keeps
    its edge to A1 in both indexes; the edit of A1 to 5 re-evaluates B1,
    but against the rendered table, in which A1 is still empty: B1 stays
    at the error. *)
Theorem C10_errored_cell_reevaluated_not_recovered
    (hostFunction : string → completion (option num)) :
  let st := stateAfter hostFunction [("B1", "=A1")] in
  let st' := stateAfter hostFunction [("B1", "=A1"); ("A1", "5")] in
  cellAt st "B1" = Some {| rawValue := "=A1"; formula := "=A1"; display := "#ERROR";
                           error := Some "Invalid reference: A1" |} ∧
  DependencyGraph.getOrEmpty (reverseGraph (Spreadsheet.dependencyGraph st)) "B1" = ["A1"] ∧
  DependencyGraph.getDependents (Spreadsheet.dependencyGraph st) "A1" = ["B1"] ∧
  Spreadsheet.updateCell hostFunction st "A1" "5" = Some st' ∧
  Spreadsheet.recalculated hostFunction st "A1" "5" = Some ["B1"] ∧
  displayAt st' "A1" = Some "5" ∧
  cellAt st' "B1" = Some {| rawValue := "=A1"; formula := "=A1"; display := "#ERROR";
                            error := Some "Invalid reference: A1" |}.
Proof.
  cbv zeta. split_and!;
    first [ apply (stateAfter_snoc hostFunction [("B1", "=A1")] "A1" "5")
          | vm_compute; reflexivity ].
Qed.

(** * Further properties of the code *)

(** ** The cycle check finds exactly the reachable cycles *)

Lemma anyDep_true_inv (f : string → option bool) (deps : list string) :
  DependencyGraph.anyDep f deps = Some true → ∃ d, d ∈ deps ∧ f d = Some true.
Proof.
  induction deps as [| d deps IH]; simpl; [done |].
  destruct (f d) as [[|] |] eqn:E; [| | done].
  - intros _. exists d. split; [by left | done].
  - intros (d' & Hd' & Hf)%IH. exists d'. split; [by right | done].
Qed.

Lemma detectCircularFuel_sound (g : DependencyGraph) (fuel : nat) (c : string)
    (vis : list string) :
  DependencyGraph.detectCircularFuel fuel g c vis = Some true → closesPath g vis c.
Proof.
  revert c vis. induction fuel as [| fuel IH]; intros c vis; [done |].
  rewrite detectCircularFuel_step. destruct (JSSet.has c vis) eqn:E.
  - intros _. apply closesPath_hit. by apply has_true.
  - apply has_false in E. intros (d & Hd & Hf)%anyDep_true_inv.
    apply (closesPath_step g vis c d); [done | done | by apply IH].
Qed.

Lemma detectCircularFuel_complete (g : DependencyGraph) (N : gset string)
    (vis : list string) (c : string) :
  (∀ x, x ∈ DependencyGraph.members (reverseGraph g) → x ∈ N) →
  closesPath g vis c →
  ∀ fuel : nat, c ∈ N → (size (N ∖ list_to_set vis) < fuel)%nat →
    DependencyGraph.detectCircularFuel fuel g c vis = Some true.
Proof.
  intros HN. induction 1 as [vis c Hc | vis c d Hc Hcd _ IH]; intros fuel HcN Hf.
  - destruct fuel as [| fuel]; [lia |]. rewrite detectCircularFuel_step.
    apply has_true in Hc. by rewrite Hc.
  - destruct fuel as [| fuel]; [lia |]. rewrite detectCircularFuel_step.
    pose proof (size_unmarked_add N c vis HcN Hc) as Hsz.
    apply has_false in Hc. rewrite Hc.
    assert (HdN : ∀ d', d' ∈ DependencyGraph.getOrEmpty (reverseGraph g) c → d' ∈ N)
      by (intros d' Hd'; by apply HN, (getOrEmpty_members _ c)).
    apply (anyDep_true _ _ d); [| done |].
    + intros d' Hd'. apply (detectCircularFuel_is_Some g N HN); [by apply HdN | lia].
    + apply IH; [by apply HdN | lia].
Qed.

(** A path that closes is a way to a cycle. *)
Lemma closesPath_reachesCycle (g : DependencyGraph) (vis : list string) (c : string) :
  closesPath g vis c →
  (∀ v, v ∈ vis → tc (hasPrecedent g) v c) →
  reachesCycle g c.
Proof.
  induction 1 as [vis c Hc | vis c d Hc Hcd _ IH]; intros Hvis.
  - exists c. split; [done | by apply Hvis].
  - destruct IH as (x & Hdx & Hxx).
    + intros v [-> | Hv]%add_elem; [by apply tc_once |].
      eapply tc_r; [by apply Hvis | done].
    + exists x. split; [by eapply rtc_l | done].
Qed.

(** A cell on the way to a cycle has a precedent on the way to a cycle. *)
Lemma reachesCycle_step (g : DependencyGraph) (c : string) :
  reachesCycle g c → ∃ d, hasPrecedent g c d ∧ reachesCycle g d.
Proof.
  intros (x & Hcx & Hxx).
  assert (∃ d, hasPrecedent g c d ∧ rtc (hasPrecedent g) d x) as (d & Hcd & Hdx).
  { apply rtc_inv in Hcx as [-> | (d & Hcd & Hdx)]; [| by exists d].
    inversion Hxx as [? ? H | ? d ? H H']; subst.
    - exists x. split; [done | apply rtc_refl].
    - exists d. split; [done | by apply tc_rtc]. }
  exists d. split; [done |]. by exists x.
Qed.

Lemma reachesCycle_closesPath (g : DependencyGraph) (n : nat) :
  ∀ (vis : list string) (c : string),
    (size (dom (reverseGraph g) ∖ list_to_set vis) ≤ n)%nat →
    reachesCycle g c → closesPath g vis c.
Proof.
  induction n as [| n IH]; intros vis c Hn Hc;
    destruct (reachesCycle_step g c Hc) as (d & Hcd & Hd);
    (destruct (decide (c ∈ vis)) as [Hv | Hv]; [by apply closesPath_hit |]);
    assert (Hdom : c ∈ dom (reverseGraph g)).
  1,3: (apply elem_of_dom; unfold hasPrecedent, DependencyGraph.getOrEmpty in Hcd;
        destruct (reverseGraph g !! c); [by eexists | by apply not_elem_of_nil in Hcd]).
  - pose proof (size_unmarked_add _ c vis Hdom Hv). lia.
  - apply (closesPath_step g vis c d Hv Hcd). apply IH; [| done].
    pose proof (size_unmarked_add _ c vis Hdom Hv). lia.
Qed.

Lemma detectCircular_true_iff (g : DependencyGraph) (c : string) :
  DependencyGraph.detectCircular g c = Some true ↔ reachesCycle g c.
Proof.
  split.
  - intros Hb%detectCircularFuel_sound.
    apply (closesPath_reachesCycle g [] c Hb). intros v Hv. by apply not_elem_of_nil in Hv.
  - intros Hc. unfold DependencyGraph.detectCircular.
    set (N := ({[c]} ∪ list_to_set (DependencyGraph.members (reverseGraph g)) : gset string)).
    apply (detectCircularFuel_complete g N).
    + intros x Hx. subst N. apply elem_of_union_r. by apply elem_of_list_to_set.
    + by apply (reachesCycle_closesPath g _ [] c (le_n _)).
    + subst N. set_solver.
    + pose proof (size_walk_universe g c) as H0. fold N in H0. lia.
Qed.

(** X1. [detectCircular] always answers, and answers [true] exactly when
    some cell reachable from the start cell through precedent edges lies
    on a cycle; the start cell itself need not be on it. *)
Theorem X1_detectCircular_finds_reachable_cycles (g : DependencyGraph) (c : string) :
  ∃ b, DependencyGraph.detectCircular g c = Some b ∧ (b = true ↔ reachesCycle g c).
Proof.
  destruct (detectCircular_is_Some g c) as [b Hb]. exists b. split; [done |].
  rewrite <- detectCircular_true_iff, Hb. split; congruence.
Qed.

(** ** When a formula is flagged circular *)

Lemma evaluateCell_circular_iff (hostFunction : string → completion (option num))
    (cells : gmap string Cell) (g : DependencyGraph) (cellId f : string) :
  isFormula f = true →
  ∃ r, Spreadsheet.evaluateCell hostFunction cells g cellId f
         = Some (r, rewired g cellId f) ∧
       (edisplay r = "#CIRCULAR" ↔ reachesCycle (rewired g cellId f) cellId) ∧
       (edisplay r = "#CIRCULAR" → eerror r = Some "Circular reference detected").
Proof.
  intros Hf. rewrite (evaluateCell_formula_cases hostFunction cells g cellId f Hf).
  pose proof (detectCircular_true_iff (rewired g cellId f) cellId) as Hiff.
  destruct (detectCircular_is_Some (rewired g cellId f) cellId) as [[|] Hb];
    rewrite Hb in *.
  - eexists. split; [done |]. simpl. split; [| done]. split; [intros _; by apply Hiff | done].
  - assert (Hno : ¬ reachesCycle (rewired g cellId f) cellId)
      by (intros H%Hiff; discriminate H).
    destruct (parse_formula hostFunction f (Spreadsheet.getCellValue cells) Hf)
      as [[msg ->] | (n & -> & _ & _)]; simpl.
    + eexists. split; [done |]. simpl. split; [split; [discriminate | done] | discriminate].
    + eexists. split; [done |]. simpl.
      assert (toString n ≠ "#CIRCULAR")
        by (intros H; apply (toString_not_sentinel n); by right).
      split; [split; done | done].
Qed.

(** X2. A formula is displayed as [#CIRCULAR], with the reason of a cycle,
    exactly when its cell reaches a cycle in the graph rebuilt with its
    references. So a formula that refers to a cell lying on a cycle is
    flagged circular although its own cell is on no cycle. *)
Theorem X2_circular_iff_cycle_reachable
    (hostFunction : string → completion (option num))
    (cells : gmap string Cell) (g : DependencyGraph) (cellId f : string) :
  isFormula f = true →
  ∃ r, Spreadsheet.evaluateCell hostFunction cells g cellId f
         = Some (r, rewired g cellId f) ∧
       (edisplay r = "#CIRCULAR" ↔ reachesCycle (rewired g cellId f) cellId) ∧
       (edisplay r = "#CIRCULAR" → eerror r = Some "Circular reference detected") ∧
       (∀ y, y ∈ Regex.matchRefs f →
             tc (hasPrecedent (rewired g cellId f)) y y →
             edisplay r = "#CIRCULAR").
Proof.
  intros Hf.
  destruct (evaluateCell_circular_iff hostFunction cells g cellId f Hf)
    as (r & He & Hiff & Herr).
  exists r. split_and!; [done | done | done |].
  intros y Hy Hcyc. apply Hiff. exists y. split; [| done].
  apply rtc_once, rewired_hasPrecedent. right.
  by rewrite (precedentsOf_formula f Hf).
Qed.

Lemma X2_circular_iff_cycle_reachable_witness :
  isFormula "=A1+1" = true ∧
  ∃ r, Spreadsheet.evaluateCell refusingHost initialCells DependencyGraph.empty
         "A1" "=A1+1"
       = Some (r, rewired DependencyGraph.empty "A1" "=A1+1") ∧
       (edisplay r = "#CIRCULAR"
        ↔ reachesCycle (rewired DependencyGraph.empty "A1" "=A1+1") "A1") ∧
       (edisplay r = "#CIRCULAR" → eerror r = Some "Circular reference detected") ∧
       (∀ y, y ∈ Regex.matchRefs "=A1+1" →
             tc (hasPrecedent (rewired DependencyGraph.empty "A1" "=A1+1")) y y →
             edisplay r = "#CIRCULAR").
Proof.
  split; [reflexivity |]. apply X2_circular_iff_cycle_reachable. reflexivity.
Defined.

(** ** The transitive dependents *)

(** What a call of [getAllDependents] has done to the shared set when it
    returns: it kept what was there, added only cells fed from [cell],
    among them every direct dependent of [cell], and every cell it added
    has all its direct dependents in the set. *)
Lemma getAllDependentsFuel_closed (g : DependencyGraph) (fuel : nat) :
  ∀ (cell : string) (result r : list string),
    DependencyGraph.getAllDependentsFuel fuel g cell result = Some r →
    (∀ y, y ∈ result → y ∈ r) ∧
    (∀ y, y ∈ r → y ∈ result ∨ tc (feeds g) cell y) ∧
    (∀ d, feeds g cell d → d ∈ r) ∧
    (∀ y, y ∈ r → y ∉ result → ∀ d, feeds g y d → d ∈ r).
Proof.
  induction fuel as [| fuel IH]; intros cell result r; [done |].
  cbn [DependencyGraph.getAllDependentsFuel].
  assert (Hdeps : ∀ d, d ∈ DependencyGraph.getOrEmpty (graph g) cell → feeds g cell d)
    by done.
  change (∀ d, feeds g cell d → d ∈ r)
    with (∀ d, d ∈ DependencyGraph.getOrEmpty (graph g) cell → d ∈ r).
  revert Hdeps. generalize (DependencyGraph.getOrEmpty (graph g) cell) as deps.
  intros deps. revert result.
  induction deps as [| d deps IHd]; intros result Hdeps; cbn [foldl].
  - intros [= <-]. split_and!; [done | by left | intros d Hd; by apply not_elem_of_nil in Hd
                               | done].
  - assert (Hd : feeds g cell d) by (apply Hdeps; by left).
    assert (Hrest : ∀ d', d' ∈ deps → feeds g cell d')
      by (intros d' Hd'; apply Hdeps; by right).
    destruct (JSSet.has d result) eqn:E; cbn [negb].
    + apply has_true in E. intros Hr.
      destruct (IHd result Hrest Hr) as (H1 & H2 & H3 & H4).
      split_and!; [done | done | | done].
      intros d' [-> | Hd']%elem_of_cons; [by apply H1 | by apply H3].
    + apply has_false in E.
      destruct (DependencyGraph.getAllDependentsFuel fuel g d (JSSet.add d result))
        as [r1 |] eqn:E1.
      2: { intros Hr. exfalso. clear -Hr.
           induction deps as [| d' deps IHn]; [done | by apply IHn]. }
      destruct (IH d (JSSet.add d result) r1 E1) as (A1 & A2 & A3 & A4).
      intros Hr. destruct (IHd r1 Hrest Hr) as (H1 & H2 & H3 & H4).
      assert (Hdr1 : d ∈ r1) by (apply A1, add_elem; by left).
      split_and!.
      * intros y Hy. apply H1, A1, add_elem. by right.
      * intros y Hy. destruct (H2 y Hy) as [Hy1 | ?]; [| by right].
        destruct (A2 y Hy1) as [[-> | ?]%add_elem | Ht]; [right; by apply tc_once | by left |].
        right. by eapply tc_l.
      * intros d' [-> | Hd']%elem_of_cons; [by apply H1 | by apply H3].
      * intros y Hy Hny d' Hd'.
        destruct (decide (y ∈ r1)) as [Hy1 | Hy1]; [| by apply (H4 y Hy Hy1)].
        apply H1. destruct (decide (y = d)) as [-> | Hne]; [by apply A3 |].
        apply (A4 y Hy1); [| done]. intros [-> | ?]%add_elem; done.
Qed.

Lemma getAllDependents_spec (g : DependencyGraph) (cell : string) :
  ∃ r, DependencyGraph.getAllDependents g cell = Some r ∧ NoDup r ∧
       ∀ y, y ∈ r ↔ tc (feeds g) cell y.
Proof.
  destruct (getAllDependents_is_Some g cell) as (r & Hr & Hnd & _ & _).
  exists r. split_and!; [done | done |].
  destruct (getAllDependentsFuel_closed g _ cell [] r Hr) as (_ & H2 & H3 & H4).
  intros y. split.
  - intros Hy. destruct (H2 y Hy) as [H | H]; [by apply not_elem_of_nil in H | done].
  - revert y. apply tc_ind_r.
    + intros y Hy. by apply H3.
    + intros y z _ Hyz Hy. apply (H4 y Hy); [apply not_elem_of_nil | done].
Qed.

(** X3. [getAllDependents] returns, without repetition, exactly the cells
    that depend on the given cell directly or through other cells; the
    cell itself is among them when it lies on a cycle. *)
Theorem X3_getAllDependents_is_transitive_closure (g : DependencyGraph) (cell : string) :
  ∃ r, DependencyGraph.getAllDependents g cell = Some r ∧ NoDup r ∧
       (∀ y, y ∈ r ↔ tc (feeds g) cell y).
Proof. apply getAllDependents_spec. Qed.

(** ** Adding and removing edges *)

Lemma addTo_idempotent (m : gmap string (list string)) (k x : string) :
  DependencyGraph.addTo (DependencyGraph.addTo m k x) k x = DependencyGraph.addTo m k x.
Proof.
  unfold DependencyGraph.addTo at 1. rewrite getOrEmpty_addTo.
  destruct (decide (k = k)) as [_ | ?]; [| done].
  unfold JSSet.add at 1. rewrite has_add_same.
  unfold DependencyGraph.addTo. by rewrite insert_insert_eq.
Qed.

Lemma addDependencies_reverse (g : DependencyGraph) (c : string) (refs : list string) :
  DependencyGraph.getOrEmpty
    (reverseGraph (foldl (fun g ref => DependencyGraph.addDependency g c ref) g refs)) c =
  foldl (fun s ref => JSSet.add ref s)
        (DependencyGraph.getOrEmpty (reverseGraph g) c) refs.
Proof.
  revert g. induction refs as [| r refs IH]; intros g; simpl; [done |].
  rewrite IH. simpl. rewrite getOrEmpty_addTo. by destruct (decide (c = c)).
Qed.

Lemma foldl_add_NoDup (refs s : list string) :
  NoDup s → NoDup (foldl (fun s ref => JSSet.add ref s) s refs).
Proof.
  revert s. induction refs as [| r refs IH]; intros s Hs; simpl; [done |].
  by apply IH, add_NoDup.
Qed.

(** X4. Adding an edge that is already there changes nothing, and the
    precedents recorded for an evaluated cell are its reference tokens
    without repetition, however often the text repeats a token. *)
Theorem X4_edges_are_sets :
  (∀ (g : DependencyGraph) (source target : string),
     DependencyGraph.addDependency (DependencyGraph.addDependency g source target)
                                   source target
     = DependencyGraph.addDependency g source target) ∧
  (∀ (g : DependencyGraph) (cellId f : string),
     NoDup (DependencyGraph.getOrEmpty (reverseGraph (rewired g cellId f)) cellId) ∧
     ∀ k, k ∈ DependencyGraph.getOrEmpty (reverseGraph (rewired g cellId f)) cellId
          ↔ k ∈ precedentsOf f).
Proof.
  split.
  - intros g source target. unfold DependencyGraph.addDependency; simpl.
    by rewrite !addTo_idempotent.
  - intros g cellId f. split.
    + unfold rewired. rewrite addDependencies_reverse. apply foldl_add_NoDup.
      rewrite removeDependencies_reverse. unfold DependencyGraph.getOrEmpty.
      rewrite lookup_delete_eq. apply NoDup_nil_2.
    + intros k. change (hasPrecedent (rewired g cellId f) cellId k ↔ k ∈ precedentsOf f).
      rewrite rewired_hasPrecedent. naive_solver.
Qed.

Lemma removeDependencies_absent (g : DependencyGraph) (c : string) :
  reverseGraph g !! c = None → DependencyGraph.removeDependencies g c = g.
Proof. unfold DependencyGraph.removeDependencies. by intros ->. Qed.

(** X5. Removing the edges of a cell twice is removing them once, and a
    cell without edges that is given edges and then loses them leaves the
    graph with the edges it had. *)
Theorem X5_removeDependencies_undoes_addDependency :
  (∀ (g : DependencyGraph) (c : string),
     DependencyGraph.removeDependencies (DependencyGraph.removeDependencies g c) c
     = DependencyGraph.removeDependencies g c) ∧
  (∀ (g : DependencyGraph) (c : string) (refs : list string),
     (∀ k, ¬ hasPrecedent g c k) → (∀ k, ¬ dependsOn g c k) →
     let g' := DependencyGraph.removeDependencies
                 (foldl (fun g ref => DependencyGraph.addDependency g c ref) g refs) c in
     ∀ x k, (hasPrecedent g' x k ↔ hasPrecedent g x k) ∧
            (dependsOn g' x k ↔ dependsOn g x k)).
Proof.
  split.
  - intros g c. apply removeDependencies_absent.
    rewrite removeDependencies_reverse. apply lookup_delete_eq.
  - intros g c refs Hp Hd g' x k. subst g'.
    rewrite removeDependencies_hasPrecedent, removeDependencies_dependsOn,
      !addDependencies_hasPrecedent, addDependencies_dependsOn.
    specialize (Hp k). pose proof (Hd k) as Hdk.
    split.
    + split; [naive_solver |]. intros H. split; [by left |]. intros ->. done.
    + split; [naive_solver |]. intros H. split; [by left |].
      intros [-> _]. done.
Qed.

Lemma X5_removeDependencies_undoes_addDependency_witness :
  let g' := DependencyGraph.removeDependencies
              (foldl (fun g ref => DependencyGraph.addDependency g "B1" ref)
                     DependencyGraph.empty ["A1"; "A2"]) "B1" in
  (∀ k, ¬ hasPrecedent DependencyGraph.empty "B1" k) ∧
  (∀ k, ¬ dependsOn DependencyGraph.empty "B1" k) ∧
  ∀ x k, (hasPrecedent g' x k ↔ hasPrecedent DependencyGraph.empty x k) ∧
         (dependsOn g' x k ↔ dependsOn DependencyGraph.empty x k).
Proof.
  cbv zeta.
  assert (Hp : ∀ k, ¬ hasPrecedent DependencyGraph.empty "B1" k)
    by (intros k H; vm_compute in H; by apply not_elem_of_nil in H).
  assert (Hd : ∀ k, ¬ dependsOn DependencyGraph.empty "B1" k).
  { intros k H. unfold dependsOn, DependencyGraph.getOrEmpty in H. simpl in H.
    rewrite lookup_empty in H. by apply not_elem_of_nil in H. }
  split; [exact Hp |]. split; [exact Hd |].
  exact (proj2 X5_removeDependencies_undoes_addDependency
           DependencyGraph.empty "B1" ["A1"; "A2"] Hp Hd).
Defined.

(** ** Reference tokens are grid identifiers *)

Lemma isColumn_inv (c : ascii) :
  Regex.isColumn c = true →
  c ∈ ["A"; "B"; "C"; "D"; "E"; "F"; "G"; "H"; "I"; "J"]%char.
Proof.
  destruct c as [[] [] [] [] [] [] [] []]; vm_compute; intros H;
    first [discriminate H | apply list_elem_of_In; simpl; tauto].
Qed.

Lemma isRow1to9_inv (d : ascii) :
  Regex.isRow1to9 d = true →
  d ∈ ["1"; "2"; "3"; "4"; "5"; "6"; "7"; "8"; "9"]%char.
Proof.
  destruct d as [[] [] [] [] [] [] [] []]; vm_compute; intros H;
    first [discriminate H | apply list_elem_of_In; simpl; tauto].
Qed.

Lemma token_in_grid (c : ascii) :
  Regex.isColumn c = true →
  String c "10" ∈ cellIds ∧
  ∀ d, Regex.isRow1to9 d = true → String c (String d EmptyString) ∈ cellIds.
Proof.
  intros Hc%isColumn_inv%list_elem_of_In. simpl in Hc.
  assert (JSSet.has (String c "10") cellIds = true ∧
          ∀ d, List.In d ["1"; "2"; "3"; "4"; "5"; "6"; "7"; "8"; "9"]%char →
               JSSet.has (String c (String d EmptyString)) cellIds = true) as [H1 H2].
  { repeat (destruct Hc as [<- | Hc];
            [split; [reflexivity |];
             intros d Hd; simpl in Hd;
             repeat (destruct Hd as [<- | Hd]; [reflexivity |]); destruct Hd |]).
    destruct Hc. }
  split; [by apply has_true |].
  intros d Hd%isRow1to9_inv%list_elem_of_In. by apply has_true, H2.
Qed.

Lemma matchRefs_in_grid (n : nat) :
  ∀ s, (String.length s ≤ n)%nat → ∀ r, r ∈ Regex.matchRefs s → r ∈ cellIds.
Proof.
  induction n as [| n IH]; intros s Hlen r.
  { destruct s; [intros H; by apply not_elem_of_nil in H | simpl in Hlen; lia]. }
  destruct s as [| c s1]; [intros H; by apply not_elem_of_nil in H |].
  simpl in Hlen. rewrite matchRefs_cons.
  destruct (Regex.isColumn c) eqn:Ec; [| apply IH; lia].
  destruct (token_in_grid c Ec) as [H10 Hrow].
  destruct s1 as [| d s2]; [intros H; by apply not_elem_of_nil in H |].
  simpl in Hlen.
  destruct (_ && _).
  - intros [-> | Hr]%elem_of_cons; [done |]. revert Hr. apply IH.
    destruct s2; simpl in *; lia.
  - destruct (Regex.isRow1to9 d) eqn:Ed.
    + intros [-> | Hr]%elem_of_cons; [by apply Hrow |]. revert Hr. apply IH. lia.
    + apply IH. simpl. lia.
Qed.

(** X6. Every reference token extracted from a text is one of the 100
    identifiers of the grid, and each identifier of the grid is extracted
    from itself as a single token. *)
Theorem X6_matchRefs_yields_grid_identifiers :
  (∀ (s r : string), r ∈ Regex.matchRefs s → r ∈ cellIds) ∧
  (∀ id : string, id ∈ cellIds → Regex.matchRefs id = [id]).
Proof.
  split.
  - intros s r. by apply (matchRefs_in_grid (String.length s)).
  - intros id Hid%list_elem_of_In.
    assert (H : List.forallb
                  (fun id => match Regex.matchRefs id with
                             | [r] => String.eqb r id
                             | _ => false
                             end) cellIds = true) by (vm_compute; reflexivity).
    rewrite List.forallb_forall in H. specialize (H id Hid).
    destruct (Regex.matchRefs id) as [| r [| ? ?]]; try done.
    by apply String.eqb_eq in H as ->.
Qed.

(** ** The expression evaluator on the usual grammar *)

Lemma popHigher_add (a : additive) (M : option multiplicative)
    (F : option additive) (B : list ascii) (out : list token) :
  stackBase B →
  FormulaParser.popHigher (addChar a) (pendingMul M ++ pendingAdd F ++ B) out
  = (B, out ++ (TChar <$> (pendingMul M ++ pendingAdd F))).
Proof.
  intros [-> | [rest ->]];
    destruct a, M as [[] |], F as [[] |]; cbn;
    rewrite <- ?app_assoc, ?app_nil_r; reflexivity.
Qed.

Lemma popHigher_mul (m : multiplicative) (M : option multiplicative)
    (F : option additive) (B : list ascii) (out : list token) :
  stackBase B →
  FormulaParser.popHigher (mulChar m) (pendingMul M ++ pendingAdd F ++ B) out
  = (pendingAdd F ++ B, out ++ (TChar <$> pendingMul M)).
Proof.
  intros [-> | [rest ->]];
    destruct m, M as [[] |], F as [[] |]; cbn;
    rewrite <- ?app_assoc, ?app_nil_r; reflexivity.
Qed.

Lemma popToParen_frame (M : option multiplicative) (F : option additive)
    (ops : list ascii) (out : list token) :
  FormulaParser.popToParen (pendingMul M ++ pendingAdd F ++ "("%char :: ops) out
  = ("("%char :: ops, out ++ (TChar <$> (pendingMul M ++ pendingAdd F))).
Proof.
  destruct M as [[] |], F as [[] |]; cbn;
    rewrite <- ?app_assoc, ?app_nil_r; reflexivity.
Qed.

Lemma shunt_addChar (a : additive) (ops : list ascii) (out : list token) :
  FormulaParser.shunt (ops, out) (TChar (addChar a))
  = (let '(o, u) := FormulaParser.popHigher (addChar a) ops out in
     (addChar a :: o, u)).
Proof. destruct a; reflexivity. Qed.

Lemma shunt_mulChar (m : multiplicative) (ops : list ascii) (out : list token) :
  FormulaParser.shunt (ops, out) (TChar (mulChar m))
  = (let '(o, u) := FormulaParser.popHigher (mulChar m) ops out in
     (mulChar m :: o, u)).
Proof. destruct m; reflexivity. Qed.

Lemma shunt_add_frame (a : additive) (M : option multiplicative)
    (F : option additive) (B : list ascii) (out : list token) :
  stackBase B →
  FormulaParser.shunt (pendingMul M ++ pendingAdd F ++ B, out) (TChar (addChar a))
  = (pendingAdd (Some a) ++ B,
     out ++ (TChar <$> (pendingMul M ++ pendingAdd F))).
Proof.
  intros HB. rewrite shunt_addChar, popHigher_add by exact HB. reflexivity.
Qed.

Lemma shunt_mul_frame (m : multiplicative) (M : option multiplicative)
    (F : option additive) (B : list ascii) (out : list token) :
  stackBase B →
  FormulaParser.shunt (pendingMul M ++ pendingAdd F ++ B, out) (TChar (mulChar m))
  = (pendingMul (Some m) ++ pendingAdd F ++ B,
     out ++ (TChar <$> pendingMul M)).
Proof.
  intros HB. rewrite shunt_mulChar, popHigher_mul by exact HB. reflexivity.
Qed.

Lemma shunt_close_frame (M : option multiplicative) (F : option additive)
    (ops : list ascii) (out : list token) :
  FormulaParser.shunt (pendingMul M ++ pendingAdd F ++ "("%char :: ops, out)
    (TChar ")")
  = (ops, out ++ (TChar <$> (pendingMul M ++ pendingAdd F))).
Proof.
  change (FormulaParser.shunt (?s, ?u) (TChar ")"))
    with (let '(o1, u1) := FormulaParser.popToParen s u in (tail o1, u1)).
  rewrite popToParen_frame. reflexivity.
Qed.

(** The first loop of [calculate] on the tokens of an expression: the
    operators below are untouched, and what is emitted, followed by the
    operators still pending, is the postfix order. *)
Lemma shunt_grammar {A} (val : A → num) :
  (∀ e : arithExpr A, ∀ B out, stackBase B →
     ∃ M F o,
       foldl FormulaParser.shunt (B, out) (tokensE val e)
       = (pendingMul M ++ pendingAdd F ++ B, out ++ o) ∧
       o ++ (TChar <$> (pendingMul M ++ pendingAdd F)) = postfixE val e) ∧
  (∀ t : arithTerm A, ∀ F B out, stackBase B →
     ∃ M o,
       foldl FormulaParser.shunt (pendingAdd F ++ B, out) (tokensT val t)
       = (pendingMul M ++ pendingAdd F ++ B, out ++ o) ∧
       o ++ (TChar <$> pendingMul M) = postfixT val t) ∧
  (∀ f : arithFactor A, ∀ ops out,
     foldl FormulaParser.shunt (ops, out) (tokensF val f)
     = (ops, out ++ postfixF val f)).
Proof.
  apply arith_mutind.
  - intros t IH B out HB.
    destruct (IH None B out HB) as (M & o & H1 & H2).
    exists M, None, o. cbn [tokensE postfixE pendingAdd] in *.
    rewrite app_nil_r. split; [exact H1 | exact H2].
  - intros e IHe a t IHt B out HB.
    destruct (IHe B out HB) as (M & F & o & H1 & H2).
    destruct (IHt (Some a) B (out ++ postfixE val e) HB) as (M' & o' & H3 & H4).
    exists M', (Some a), (postfixE val e ++ o').
    cbn [tokensE postfixE]. rewrite foldl_app, H1. cbn [foldl].
    rewrite shunt_add_frame by exact HB.
    rewrite <- app_assoc, H2. split.
    + rewrite H3, <- app_assoc. reflexivity.
    + rewrite fmap_app, <- H4, <- !app_assoc. reflexivity.
  - intros f IH F B out HB. exists None, (postfixF val f).
    cbn [tokensT postfixT pendingMul]. rewrite IH, app_nil_r.
    split; reflexivity.
  - intros t IHt m f IHf F B out HB.
    destruct (IHt F B out HB) as (M & o & H1 & H2).
    exists (Some m), (postfixT val t ++ postfixF val f).
    cbn [tokensT postfixT]. rewrite foldl_app, H1. cbn [foldl].
    rewrite shunt_mul_frame by exact HB.
    rewrite <- app_assoc, H2, IHf. split.
    + rewrite <- app_assoc. reflexivity.
    + rewrite <- app_assoc. reflexivity.
  - intros a ops out. reflexivity.
  - intros e IH ops out. cbn [tokensF postfixF].
    change (TChar "(" :: tokensE val e ++ [TChar ")"])
      with ([TChar "("%char] ++ tokensE val e ++ [TChar ")"%char]).
    rewrite !foldl_app. cbn [foldl].
    change (FormulaParser.shunt (ops, out) (TChar "("))
      with ("("%char :: ops, out).
    destruct (IH ("("%char :: ops) out) as (M & F & o & H1 & H2).
    { right. eexists. reflexivity. }
    rewrite H1.
    rewrite shunt_close_frame, <- app_assoc, H2. reflexivity.
Qed.

Lemma toRPN_grammar {A} (val : A → num) (e : arithExpr A) :
  FormulaParser.toRPN (tokensE val e) = postfixE val e.
Proof.
  unfold FormulaParser.toRPN.
  destruct (proj1 (shunt_grammar val) e [] []) as (M & F & o & H1 & H2).
  { left. reflexivity. }
  rewrite H1, app_nil_r. cbn [app]. exact H2.
Qed.

(** The second loop of [calculate] on a postfix order leaves the value on
    the stack. *)
Lemma evalRPN_grammar {A} (val : A → num) :
  (∀ e : arithExpr A, ∀ rest st,
     FormulaParser.evalRPN (postfixE val e ++ rest) st
     = FormulaParser.evalRPN rest (evalE val e :: st)) ∧
  (∀ t : arithTerm A, ∀ rest st,
     FormulaParser.evalRPN (postfixT val t ++ rest) st
     = FormulaParser.evalRPN rest (evalT val t :: st)) ∧
  (∀ f : arithFactor A, ∀ rest st,
     FormulaParser.evalRPN (postfixF val f ++ rest) st
     = FormulaParser.evalRPN rest (evalF val f :: st)).
Proof.
  apply arith_mutind.
  - intros t IH rest st. exact (IH rest st).
  - intros e IHe a t IHt rest st. cbn [postfixE evalE].
    rewrite <- !app_assoc, IHe, IHt. destruct a; reflexivity.
  - intros f IH rest st. exact (IH rest st).
  - intros t IHt m f IHf rest st. cbn [postfixT evalT].
    rewrite <- !app_assoc, IHt, IHf. destruct m; reflexivity.
  - intros a rest st. reflexivity.
  - intros e IH rest st. exact (IH rest st).
Qed.

Lemma calculate_grammar {A} (val : A → num) (e : arithExpr A) :
  FormulaParser.calculate (tokensE val e) = Normal (Some (evalE val e)).
Proof.
  unfold FormulaParser.calculate. rewrite toRPN_grammar.
  rewrite <- (app_nil_r (postfixE val e)).
  rewrite (proj1 (evalRPN_grammar val)). reflexivity.
Qed.

(** X7. On the token array of an expression of the usual grammar (sums
    and differences of products and quotients of numbers and parenthesised
    expressions, in any nesting), [calculate] returns the value of the
    expression with products before sums and operators of one level
    applied from left to right. *)
Theorem X7_calculate_respects_precedence (e : arithExpr num) :
  FormulaParser.calculate (tokensE id e) = Normal (Some (evalE id e)).
Proof. apply calculate_grammar. Qed.

(** ** The tokenizer on printed expressions *)

Lemma append_assoc (a b c : string) : (a +:+ b) +:+ c = a +:+ (b +:+ c).
Proof.
  induction a as [| x a IH]; [reflexivity |].
  change (String x ((a +:+ b) +:+ c) = String x (a +:+ (b +:+ c))).
  by rewrite IH.
Qed.

Lemma append_empty_r (a : string) : a +:+ EmptyString = a.
Proof.
  induction a as [| x a IH]; [reflexivity |].
  change (String x (a +:+ EmptyString) = String x a). by rewrite IH.
Qed.

Lemma tokenizeFrom_numeral (s rest cur : string) (toks : list token) :
  JSString.forallb isNumberText s = true →
  FormulaParser.tokenizeFrom (s +:+ rest) cur toks
  = FormulaParser.tokenizeFrom rest (cur +:+ s) toks.
Proof.
  revert cur. induction s as [| c s IH]; intros cur Hs.
  - change (EmptyString +:+ rest) with rest. by rewrite append_empty_r.
  - apply andb_true_iff in Hs as [Hc Hs].
    change (String c s +:+ rest) with (String c (s +:+ rest)).
    cbn [FormulaParser.tokenizeFrom]. unfold isNumberText in Hc. rewrite Hc.
    rewrite IH by exact Hs. rewrite append_assoc. reflexivity.
Qed.

Lemma flushNumber_empty (toks : list token) :
  FormulaParser.flushNumber EmptyString toks = toks.
Proof. reflexivity. Qed.

Lemma tokenizeFrom_flush (rest cur : string) (toks : list token) :
  startsNumber rest = false →
  FormulaParser.tokenizeFrom rest cur toks
  = FormulaParser.tokenizeFrom rest EmptyString (FormulaParser.flushNumber cur toks).
Proof.
  destruct rest as [| c r]; intros H.
  - reflexivity.
  - cbn [startsNumber] in H. unfold isNumberText in H.
    cbn [FormulaParser.tokenizeFrom]. rewrite H. reflexivity.
Qed.

Lemma tokenizeFrom_operator (c : ascii) (rest : string) (toks : list token) :
  isNumberText c = false → JSString.includes "+-*/()" c = true →
  FormulaParser.tokenizeFrom (String c rest) EmptyString toks
  = FormulaParser.tokenizeFrom rest EmptyString (toks ++ [TChar c]).
Proof.
  intros H1 H2. unfold isNumberText in H1.
  cbn [FormulaParser.tokenizeFrom]. rewrite H1, H2. reflexivity.
Qed.

Lemma tokenize_grammar :
  (∀ e : arithExpr string, numeralsE e = true → ∀ rest toks,
     startsNumber rest = false →
     FormulaParser.tokenizeFrom (printE e +:+ rest) EmptyString toks
     = FormulaParser.tokenizeFrom rest EmptyString (toks ++ tokensE parseFloat e)) ∧
  (∀ t : arithTerm string, numeralsT t = true → ∀ rest toks,
     startsNumber rest = false →
     FormulaParser.tokenizeFrom (printT t +:+ rest) EmptyString toks
     = FormulaParser.tokenizeFrom rest EmptyString (toks ++ tokensT parseFloat t)) ∧
  (∀ f : arithFactor string, numeralsF f = true → ∀ rest toks,
     startsNumber rest = false →
     FormulaParser.tokenizeFrom (printF f +:+ rest) EmptyString toks
     = FormulaParser.tokenizeFrom rest EmptyString (toks ++ tokensF parseFloat f)).
Proof.
  apply arith_mutind.
  - intros t IH Hn rest toks Hr. exact (IH Hn rest toks Hr).
  - intros e IHe a t IHt Hn rest toks Hr. cbn [numeralsE] in Hn.
    apply andb_true_iff in Hn as [He Ht]. cbn [printE tokensE].
    rewrite append_assoc.
    change (String (addChar a) (printT t) +:+ rest)
      with (String (addChar a) (printT t +:+ rest)).
    rewrite (IHe He) by (by destruct a).
    rewrite tokenizeFrom_operator by (by destruct a).
    rewrite (IHt Ht) by exact Hr.
    rewrite <- !app_assoc. reflexivity.
  - intros f IH Hn rest toks Hr. exact (IH Hn rest toks Hr).
  - intros t IHt m f IHf Hn rest toks Hr. cbn [numeralsT] in Hn.
    apply andb_true_iff in Hn as [Ht Hf]. cbn [printT tokensT].
    rewrite append_assoc.
    change (String (mulChar m) (printF f) +:+ rest)
      with (String (mulChar m) (printF f +:+ rest)).
    rewrite (IHt Ht) by (by destruct m).
    rewrite tokenizeFrom_operator by (by destruct m).
    rewrite (IHf Hf) by exact Hr.
    rewrite <- !app_assoc. reflexivity.
  - intros s Hn rest toks Hr. cbn [numeralsF] in Hn. unfold isNumeral in Hn.
    apply andb_true_iff in Hn as [Hne Hs]. cbn [printF tokensF].
    rewrite tokenizeFrom_numeral by exact Hs.
    change (EmptyString +:+ s) with s.
    rewrite tokenizeFrom_flush by exact Hr.
    unfold FormulaParser.flushNumber.
    apply negb_true_iff in Hne. rewrite Hne. reflexivity.
  - intros e IH Hn rest toks Hr. cbn [numeralsF] in Hn. cbn [printF tokensF].
    change (String "(" (printE e +:+ ")") +:+ rest)
      with (String "(" ((printE e +:+ ")") +:+ rest)).
    rewrite append_assoc. change (")" +:+ rest) with (String ")" rest).
    rewrite tokenizeFrom_operator by reflexivity.
    rewrite (IH Hn) by reflexivity.
    rewrite tokenizeFrom_operator by reflexivity.
    rewrite <- !app_assoc. reflexivity.
Qed.

Lemma tokenize_print (e : arithExpr string) :
  numeralsE e = true →
  FormulaParser.tokenize (printE e) = tokensE parseFloat e.
Proof.
  intros Hn. unfold FormulaParser.tokenize.
  rewrite <- (append_empty_r (printE e)).
  rewrite (proj1 tokenize_grammar e Hn EmptyString []) by reflexivity.
  reflexivity.
Qed.

Lemma numberText_exprChar (c : ascii) :
  isNumberText c = true → Regex.isExprChar c = true.
Proof.
  destruct c as [[] [] [] [] [] [] [] []]; vm_compute; intros H;
    first [discriminate H | reflexivity].
Qed.

Lemma exprChar_plain (c : ascii) :
  Regex.isExprChar c = true →
  JSString.isWhiteSpace c = false ∧ Regex.isColumn c = false.
Proof.
  destruct c as [[] [] [] [] [] [] [] []]; vm_compute; intros H;
    first [discriminate H | by split].
Qed.

Lemma print_exprChars :
  (∀ e, numeralsE e = true → JSString.forallb Regex.isExprChar (printE e) = true) ∧
  (∀ t, numeralsT t = true → JSString.forallb Regex.isExprChar (printT t) = true) ∧
  (∀ f, numeralsF f = true → JSString.forallb Regex.isExprChar (printF f) = true).
Proof.
  apply arith_mutind.
  - intros t IH Hn. exact (IH Hn).
  - intros e IHe a t IHt Hn. cbn [numeralsE] in Hn.
    apply andb_true_iff in Hn as [He Ht]. cbn [printE].
    rewrite forallb_app, (IHe He). cbn [JSString.forallb]. rewrite (IHt Ht).
    by destruct a.
  - intros f IH Hn. exact (IH Hn).
  - intros t IHt m f IHf Hn. cbn [numeralsT] in Hn.
    apply andb_true_iff in Hn as [Ht Hf]. cbn [printT].
    rewrite forallb_app, (IHt Ht). cbn [JSString.forallb]. rewrite (IHf Hf).
    by destruct m.
  - intros s Hn. cbn [numeralsF] in Hn. unfold isNumeral in Hn.
    apply andb_true_iff in Hn as [_ Hs]. cbn [printF].
    revert Hs. apply forallb_impl. exact numberText_exprChar.
  - intros e IH Hn. cbn [numeralsF] in Hn. cbn [printF JSString.forallb].
    rewrite forallb_app, (IH Hn). reflexivity.
Qed.

Lemma print_not_empty :
  (∀ e, numeralsE e = true → JSString.isEmpty (printE e) = false) ∧
  (∀ t, numeralsT t = true → JSString.isEmpty (printT t) = false) ∧
  (∀ f, numeralsF f = true → JSString.isEmpty (printF f) = false).
Proof.
  apply arith_mutind.
  - intros t IH Hn. exact (IH Hn).
  - intros e IHe a t IHt Hn. cbn [numeralsE] in Hn.
    apply andb_true_iff in Hn as [He Ht]. cbn [printE].
    specialize (IHe He). destruct (printE e); [discriminate IHe | reflexivity].
  - intros f IH Hn. exact (IH Hn).
  - intros t IHt m f IHf Hn. cbn [numeralsT] in Hn.
    apply andb_true_iff in Hn as [Ht Hf]. cbn [printT].
    specialize (IHt Ht). destruct (printT t); [discriminate IHt | reflexivity].
  - intros s Hn. cbn [numeralsF] in Hn. unfold isNumeral in Hn.
    apply andb_true_iff in Hn as [Hne _]. by apply negb_true_iff in Hne.
  - intros e IH Hn. reflexivity.
Qed.

Lemma filter_forallb (p : ascii → bool) (s : string) :
  JSString.forallb p s = true → JSString.filter p s = s.
Proof.
  induction s as [| c s IH]; [reflexivity |]. intros [Hc Hs]%andb_true_iff.
  cbn [JSString.filter]. rewrite Hc, (IH Hs). reflexivity.
Qed.

Section Host.

Variable hostFunction : string → completion (option num).

Lemma safeEvaluate_print (e : arithExpr string) :
  numeralsE e = true →
  FormulaParser.safeEvaluate hostFunction (printE e)
  = Normal (Some (evalE parseFloat e)).
Proof.
  intros Hn. unfold FormulaParser.safeEvaluate, Regex.keepExprChars.
  rewrite filter_forallb by (by apply print_exprChars).
  rewrite tokenize_print by exact Hn.
  rewrite calculate_grammar. reflexivity.
Qed.

(** X8. The text of an arithmetic expression whose numerals are non-empty
    runs of digits and dots is split by [tokenize] into exactly its
    numerals (read with [parseFloat]), operators and parentheses, and
    [safeEvaluate] returns its value without turning to the host's
    evaluator. *)
Theorem X8_safeEvaluate_evaluates_printed_expressions (e : arithExpr string) :
  numeralsE e = true →
  FormulaParser.tokenize (printE e) = tokensE parseFloat e ∧
  FormulaParser.safeEvaluate hostFunction (printE e)
  = Normal (Some (evalE parseFloat e)).
Proof.
  intros Hn. split; [by apply tokenize_print | by apply safeEvaluate_print].
Qed.

End Host.

Lemma X8_safeEvaluate_evaluates_printed_expressions_witness :
  let e := binAdd (ofTerm (ofFactor (operand "1"))) Plus
             (binMul (ofFactor (operand "2")) Times (operand "3")) in
  numeralsE e = true ∧ printE e = "1+2*3" ∧
  FormulaParser.tokenize (printE e) = tokensE parseFloat e ∧
  FormulaParser.safeEvaluate refusingHost (printE e)
  = Normal (Some (evalE parseFloat e)).
Proof.
  cbv zeta. split; [reflexivity |]. split; [reflexivity |].
  apply X8_safeEvaluate_evaluates_printed_expressions. reflexivity.
Defined.

(** ** Edits whose text has no reference *)

Lemma trimStart_plain (s : string) :
  JSString.forallb (fun c => negb (JSString.isWhiteSpace c)) s = true →
  JSString.trimStart s = s.
Proof.
  destruct s as [| c s]; [reflexivity |]. intros [Hc _]%andb_true_iff.
  cbn [JSString.trimStart]. apply negb_true_iff in Hc. by rewrite Hc.
Qed.

Lemma trimEnd_plain (s : string) :
  JSString.forallb (fun c => negb (JSString.isWhiteSpace c)) s = true →
  JSString.trimEnd s = s.
Proof.
  induction s as [| c s IH]; [reflexivity |]. intros [Hc Hs]%andb_true_iff.
  cbn [JSString.trimEnd]. rewrite (IH Hs). apply negb_true_iff in Hc.
  destruct s; [by rewrite Hc | reflexivity].
Qed.

Lemma matchRefs_plain (s : string) :
  JSString.forallb (fun c => negb (Regex.isColumn c)) s = true →
  Regex.matchRefs s = [].
Proof.
  induction s as [| c s IH]; [reflexivity |]. intros [Hc Hs]%andb_true_iff.
  rewrite matchRefs_cons. apply negb_true_iff in Hc. rewrite Hc. by apply IH.
Qed.

Lemma isFormula_equals (body : string) : isFormula ("=" +:+ body) = true.
Proof. by destruct body. Qed.

Lemma startsWith_equals (body : string) :
  JSString.startsWith "=" ("=" +:+ body) = true.
Proof. by destruct body. Qed.

Lemma matchRefs_after_equals (body : string) :
  Regex.matchRefs ("=" +:+ body) = Regex.matchRefs body.
Proof. change ("=" +:+ body) with (String "=" body). by rewrite matchRefs_cons. Qed.

Lemma filter_app (p : ascii → bool) (a b : string) :
  JSString.filter p (a +:+ b) = JSString.filter p a +:+ JSString.filter p b.
Proof.
  induction a as [| c a IH]; [reflexivity |].
  change (String c a +:+ b) with (String c (a +:+ b)).
  cbn [JSString.filter]. rewrite IH. by destruct (p c).
Qed.

Lemma removeWhiteSpace_whiteSpace (w : string) :
  JSString.forallb JSString.isWhiteSpace w = true → Regex.removeWhiteSpace w = EmptyString.
Proof.
  unfold Regex.removeWhiteSpace.
  induction w as [| c w IH]; [reflexivity |]. intros [Hc Hw]%andb_true_iff.
  cbn [JSString.filter]. rewrite Hc. by apply IH.
Qed.

Lemma removeWhiteSpace_trim (s : string) :
  Regex.removeWhiteSpace (JSString.trim s) = Regex.removeWhiteSpace s.
Proof.
  unfold JSString.trim.
  assert (Hstart : Regex.removeWhiteSpace (JSString.trimStart s)
                   = Regex.removeWhiteSpace s).
  { unfold Regex.removeWhiteSpace. induction s as [| c s IH]; [reflexivity |].
    cbn [JSString.trimStart JSString.filter].
    destruct (JSString.isWhiteSpace c) eqn:Ec; [exact IH |].
    cbn [JSString.filter]. by rewrite Ec. }
  rewrite <- Hstart.
  destruct (trimEnd_split (JSString.trimStart s)) as (w & Hs & Hw).
  rewrite Hs at 2. unfold Regex.removeWhiteSpace. rewrite filter_app.
  fold (Regex.removeWhiteSpace w). rewrite (removeWhiteSpace_whiteSpace w Hw).
  by rewrite append_empty_r.
Qed.

Lemma forallb_removeWhiteSpace (p : ascii → bool) (s : string) :
  JSString.forallb p (Regex.removeWhiteSpace s)
  = JSString.forallb (fun c => p c || JSString.isWhiteSpace c) s.
Proof.
  unfold Regex.removeWhiteSpace. induction s as [| c s IH]; [reflexivity |].
  cbn [JSString.filter JSString.forallb].
  destruct (JSString.isWhiteSpace c); cbn [negb JSString.forallb].
  - by rewrite IH, orb_true_r.
  - by rewrite IH, orb_false_r.
Qed.

Lemma trim_whiteSpace (w : string) :
  JSString.forallb JSString.isWhiteSpace w = true → JSString.trim w = EmptyString.
Proof.
  unfold JSString.trim. induction w as [| c w IH]; [reflexivity |].
  intros [Hc Hw]%andb_true_iff. cbn [JSString.trimStart]. rewrite Hc. by apply IH.
Qed.

Lemma no_precedent_no_cycle (g : DependencyGraph) (c : string) :
  (∀ k, ¬ hasPrecedent g c k) → ¬ reachesCycle g c.
Proof. intros Hno (d & Hd & _)%reachesCycle_step. by apply (Hno d). Qed.

Lemma div_zero_invalid (x : num) (s : bool) :
  isNaN (div x (S754_zero s)) || negb (isFinite (div x (S754_zero s))) = true.
Proof. by destruct x. Qed.

Section Host.

Variable hostFunction : string → completion (option num).

(** [evaluateCell] on a formula whose cell reaches no cycle. *)
Lemma evaluateCell_acyclic (cells : gmap string Cell) (g : DependencyGraph)
    (cellId f : string) :
  isFormula f = true → ¬ reachesCycle (rewired g cellId f) cellId →
  Spreadsheet.evaluateCell hostFunction cells g cellId f
  = Some (compiled hostFunction cells f, rewired g cellId f).
Proof.
  intros Hf Hno.
  rewrite (evaluateCell_formula_cases hostFunction cells g cellId f Hf).
  destruct (detectCircular_is_Some (rewired g cellId f) cellId) as [[|] Hb];
    rewrite Hb.
  - by apply detectCircular_true_iff in Hb.
  - unfold compiled. cbv zeta. by destruct (Spreadsheet.isErrorValue _).
Qed.

(** [evaluateCell] on a text that is not a formula. *)
Lemma evaluateCell_literal (cells : gmap string Cell) (g : DependencyGraph)
    (cellId text : string) :
  isFormula text = false →
  Spreadsheet.evaluateCell hostFunction cells g cellId text
  = Some ({| edisplay := text; eformula := text; eerror := None |},
          DependencyGraph.removeDependencies g cellId).
Proof.
  intros Hf. unfold Spreadsheet.evaluateCell. rewrite literal_test, Hf. reflexivity.
Qed.

(** An edit writes the record of the evaluation of the new text, and the
    loop leaves it. *)
Lemma updateCell_edited (st : Spreadsheet.State) (cellId input : string)
    (r : Evaluation) (g1 : DependencyGraph) :
  Spreadsheet.evaluateCell hostFunction (Spreadsheet.cells st)
    (Spreadsheet.dependencyGraph st) cellId input = Some (r, g1) →
  ∃ st', Spreadsheet.updateCell hostFunction st cellId input = Some st' ∧
         cellAt st' cellId = Some (committed input input r) ∧
         (∀ k, hasPrecedent (Spreadsheet.dependencyGraph st') cellId k
               ↔ hasPrecedent g1 cellId k).
Proof.
  intros He. unfold Spreadsheet.updateCell.
  destruct (updateCellFrom_is_Some hostFunction (Spreadsheet.cells st)
              (Spreadsheet.cells st) (Spreadsheet.dependencyGraph st) cellId input)
    as [s Hs].
  rewrite Hs. eexists. split; [reflexivity |].
  destruct (updateCellFrom_edited hostFunction _ _ _ _ _ _ _ _ Hs He) as (H1 & H2 & _).
  split; [exact H1 | exact H2].
Qed.

(** An edit to a formula without a reference token. *)
Lemma updateCell_no_reference (st : Spreadsheet.State) (cellId f : string) :
  isFormula f = true → Regex.matchRefs f = [] →
  ∃ st', Spreadsheet.updateCell hostFunction st cellId f = Some st' ∧
         cellAt st' cellId
         = Some (committed f f (compiled hostFunction (Spreadsheet.cells st) f)).
Proof.
  intros Hf Hrefs.
  destruct (updateCell_edited st cellId f
              (compiled hostFunction (Spreadsheet.cells st) f)
              (rewired (Spreadsheet.dependencyGraph st) cellId f))
    as (st' & H1 & H2 & _).
  { apply evaluateCell_acyclic; [exact Hf |]. apply no_precedent_no_cycle.
    intros k. rewrite rewired_hasPrecedent, (precedentsOf_formula f Hf), Hrefs.
    intros [[_ Hne] | [_ Hk]]; [done | by apply not_elem_of_nil in Hk]. }
  by exists st'.
Qed.

Lemma compiled_failure (cells : gmap string Cell) (f msg : string) :
  FormulaParser.parse hostFunction f (Spreadsheet.getCellValue cells)
  = FormulaParser.failure msg →
  committed f f (compiled hostFunction cells f) = errorCell f msg.
Proof. intros Hp. unfold compiled. rewrite Hp. reflexivity. Qed.

(** [parse] on the text of an arithmetic expression. *)
Lemma parse_print (e : arithExpr string) (gv : string → option num) :
  numeralsE e = true →
  FormulaParser.parse hostFunction ("=" +:+ printE e) gv
  = if isNaN (evalE parseFloat e) || negb (isFinite (evalE parseFloat e))
    then FormulaParser.failure "Invalid result"
    else {| value := VNum (evalE parseFloat e); perror := None |}.
Proof.
  intros Hn.
  pose proof (proj1 print_exprChars e Hn) as Hchars.
  pose proof (proj1 print_not_empty e Hn) as Hne.
  assert (Hws : JSString.forallb (fun c => negb (JSString.isWhiteSpace c)) (printE e)
                = true).
  { revert Hchars. apply forallb_impl. intros c Hc.
    destruct (exprChar_plain c Hc) as [-> _]. reflexivity. }
  assert (Hcol : JSString.forallb (fun c => negb (Regex.isColumn c)) (printE e) = true).
  { revert Hchars. apply forallb_impl. intros c Hc.
    destruct (exprChar_plain c Hc) as [_ ->]. reflexivity. }
  unfold FormulaParser.parse.
  rewrite startsWith_equals.
  change (JSString.substring1 ("=" +:+ printE e)) with (printE e).
  cbn [negb]. unfold JSString.trim.
  rewrite (trimStart_plain _ Hws), (trimEnd_plain _ Hws), Hne.
  rewrite (matchRefs_plain _ Hcol). cbn [FormulaParser.substituteRefs].
  unfold Regex.removeWhiteSpace. rewrite (filter_forallb _ _ Hws).
  unfold Regex.validChars. rewrite Hne, Hchars. cbn [negb andb].
  rewrite (safeEvaluate_print hostFunction e Hn). reflexivity.
Qed.

Lemma updateCell_print (st : Spreadsheet.State) (cellId : string)
    (e : arithExpr string) :
  numeralsE e = true →
  ∃ st', Spreadsheet.updateCell hostFunction st cellId ("=" +:+ printE e) = Some st' ∧
         cellAt st' cellId
         = Some (if isNaN (evalE parseFloat e) || negb (isFinite (evalE parseFloat e))
                 then errorCell ("=" +:+ printE e) "Invalid result"
                 else valueCell ("=" +:+ printE e) (evalE parseFloat e)).
Proof.
  intros Hn.
  destruct (updateCell_no_reference st cellId ("=" +:+ printE e)) as (st' & H1 & H2).
  { apply isFormula_equals. }
  { rewrite matchRefs_after_equals. apply matchRefs_plain.
    generalize (proj1 print_exprChars e Hn). apply forallb_impl. intros c Hc.
    destruct (exprChar_plain c Hc) as [_ ->]. reflexivity. }
  exists st'. split; [exact H1 |]. rewrite H2. f_equal.
  unfold compiled. rewrite (parse_print e _ Hn).
  by destruct (isNaN _ || negb (isFinite _)).
Qed.

(** X9. Editing any cell, in any state, to [=] followed by the text of an
    arithmetic expression makes the cell display the printed value of the
    expression, without an error, when that value is a finite number; when
    it is not, the cell displays [#ERROR] with the reason [Invalid result]. *)
Theorem X9_arithmetic_formula_displays_its_value
    (st : Spreadsheet.State) (cellId : string) (e : arithExpr string) :
  numeralsE e = true →
  ∃ st', Spreadsheet.updateCell hostFunction st cellId ("=" +:+ printE e) = Some st' ∧
         cellAt st' cellId
         = Some (if isNaN (evalE parseFloat e) || negb (isFinite (evalE parseFloat e))
                 then errorCell ("=" +:+ printE e) "Invalid result"
                 else valueCell ("=" +:+ printE e) (evalE parseFloat e)).
Proof. apply updateCell_print. Qed.

(** X10. A formula that divides by an operand whose value is zero, be it
    a numeral or a parenthesised expression, displays [#ERROR] with the
    reason [Invalid result], whatever the dividend. *)
Theorem X10_division_by_zero_is_invalid
    (st : Spreadsheet.State) (cellId : string)
    (t : arithTerm string) (f : arithFactor string) (s : bool) :
  numeralsT t = true → numeralsF f = true →
  evalF parseFloat f = S754_zero s →
  ∃ st', Spreadsheet.updateCell hostFunction st cellId
           ("=" +:+ printT t +:+ "/" +:+ printF f) = Some st' ∧
         cellAt st' cellId
         = Some (errorCell ("=" +:+ printT t +:+ "/" +:+ printF f) "Invalid result").
Proof.
  intros Ht Hf Hz.
  destruct (updateCell_print st cellId (ofTerm (binMul t Divide f)))
    as (st' & H1 & H2).
  { cbn [numeralsE numeralsT]. by rewrite Ht, Hf. }
  exists st'. split; [exact H1 |]. rewrite H2.
  cbn [evalE evalT mulFun]. rewrite Hz, div_zero_invalid. reflexivity.
Qed.

(** X11. After an edit the edited cell holds the submitted text as its raw
    value and as its formula, in any state and whatever the text. A text
    that does not start with [=], the empty text included, is displayed as
    it is, without an error, and leaves the cell without precedents. *)
Theorem X11_edit_stores_the_text (st : Spreadsheet.State) (cellId text : string) :
  ∃ st' c, Spreadsheet.updateCell hostFunction st cellId text = Some st' ∧
           cellAt st' cellId = Some c ∧
           rawValue c = text ∧ formula c = text ∧
           (isFormula text = false →
            c = literalCell text ∧
            ∀ k, ¬ hasPrecedent (Spreadsheet.dependencyGraph st') cellId k).
Proof.
  destruct (evaluateCell_is_Some hostFunction (Spreadsheet.cells st)
              (Spreadsheet.dependencyGraph st) cellId text) as [[r g1] He].
  destruct (updateCell_edited st cellId text r g1 He) as (st' & H1 & H2 & H3).
  exists st', (committed text text r). split_and!; try done.
  intros Hf. rewrite (evaluateCell_literal _ _ _ _ Hf) in He.
  injection He as <- <-. split; [reflexivity |].
  intros k. rewrite H3, removeDependencies_hasPrecedent. tauto.
Qed.

(** X12. A formula that is [=] alone or [=] followed by white space only
    displays [#ERROR] with the reason [Empty formula]. *)
Theorem X12_empty_formula (st : Spreadsheet.State) (cellId w : string) :
  JSString.forallb JSString.isWhiteSpace w = true →
  ∃ st', Spreadsheet.updateCell hostFunction st cellId ("=" +:+ w) = Some st' ∧
         cellAt st' cellId = Some (errorCell ("=" +:+ w) "Empty formula").
Proof.
  intros Hw.
  destruct (updateCell_no_reference st cellId ("=" +:+ w)) as (st' & H1 & H2).
  { apply isFormula_equals. }
  { rewrite matchRefs_after_equals. by apply matchRefs_whiteSpace. }
  exists st'. split; [exact H1 |]. rewrite H2. f_equal.
  apply compiled_failure. unfold FormulaParser.parse.
  rewrite startsWith_equals.
  change (JSString.substring1 ("=" +:+ w)) with w.
  cbn [negb]. rewrite (trim_whiteSpace w Hw). reflexivity.
Qed.

(** X13. A formula without a reference token that contains a character
    other than a digit, [+ - * / ( ) .] and white space displays [#ERROR]
    with the reason [Invalid characters in formula]; the evaluator is not
    reached. *)
Theorem X13_invalid_characters (st : Spreadsheet.State) (cellId body : string) :
  Regex.matchRefs body = [] →
  JSString.forallb (fun c => Regex.isExprChar c || JSString.isWhiteSpace c) body
  = false →
  ∃ st', Spreadsheet.updateCell hostFunction st cellId ("=" +:+ body) = Some st' ∧
         cellAt st' cellId
         = Some (errorCell ("=" +:+ body) "Invalid characters in formula").
Proof.
  intros Hrefs Hbad.
  destruct (updateCell_no_reference st cellId ("=" +:+ body)) as (st' & H1 & H2).
  { apply isFormula_equals. }
  { by rewrite matchRefs_after_equals. }
  exists st'. split; [exact H1 |]. rewrite H2. f_equal.
  assert (Hchars : JSString.forallb Regex.isExprChar
                     (Regex.removeWhiteSpace (JSString.trim body)) = false).
  { by rewrite removeWhiteSpace_trim, forallb_removeWhiteSpace. }
  assert (Hne : JSString.isEmpty (JSString.trim body) = false).
  { destruct (JSString.trim body); [discriminate Hchars | reflexivity]. }
  apply compiled_failure. unfold FormulaParser.parse.
  rewrite startsWith_equals.
  change (JSString.substring1 ("=" +:+ body)) with body.
  cbn [negb]. rewrite Hne.
  unfold JSString.trim at 1. rewrite matchRefs_trimEnd, matchRefs_trimStart, Hrefs.
  cbn [FormulaParser.substituteRefs].
  unfold Regex.validChars. rewrite Hchars, andb_false_r. reflexivity.
Qed.

End Host.

Lemma X9_arithmetic_formula_displays_its_value_witness :
  let e := binAdd (ofTerm (ofFactor (operand "1"))) Plus
             (binMul (ofFactor (operand "2")) Times (operand "3")) in
  numeralsE e = true ∧
  ∃ st', Spreadsheet.updateCell refusingHost Spreadsheet.initialState "A1"
           ("=" +:+ printE e) = Some st' ∧
         cellAt st' "A1"
         = Some (if isNaN (evalE parseFloat e) || negb (isFinite (evalE parseFloat e))
                 then errorCell ("=" +:+ printE e) "Invalid result"
                 else valueCell ("=" +:+ printE e) (evalE parseFloat e)).
Proof.
  cbv zeta. split; [reflexivity |].
  apply X9_arithmetic_formula_displays_its_value. reflexivity.
Defined.

Lemma X10_division_by_zero_is_invalid_witness :
  numeralsT (ofFactor (operand "5")) = true ∧
  numeralsF (operand "0") = true ∧
  evalF parseFloat (operand "0") = S754_zero false ∧
  ∃ st', Spreadsheet.updateCell refusingHost Spreadsheet.initialState "A1"
           ("=" +:+ printT (ofFactor (operand "5")) +:+ "/" +:+ printF (operand "0"))
         = Some st' ∧
         cellAt st' "A1"
         = Some (errorCell
                   ("=" +:+ printT (ofFactor (operand "5")) +:+ "/" +:+ printF (operand "0"))
                   "Invalid result").
Proof.
  split; [reflexivity |]. split; [reflexivity |].
  assert (Hz : evalF parseFloat (operand "0") = S754_zero false)
    by (vm_compute; reflexivity).
  split; [exact Hz |].
  exact (X10_division_by_zero_is_invalid refusingHost Spreadsheet.initialState "A1"
           (ofFactor (operand "5")) (operand "0") false eq_refl eq_refl Hz).
Defined.

Lemma X12_empty_formula_witness :
  JSString.forallb JSString.isWhiteSpace "  " = true ∧
  ∃ st', Spreadsheet.updateCell refusingHost Spreadsheet.initialState "A1"
           ("=" +:+ "  ") = Some st' ∧
         cellAt st' "A1" = Some (errorCell ("=" +:+ "  ") "Empty formula").
Proof.
  split; [reflexivity |]. apply X12_empty_formula. reflexivity.
Defined.

Lemma X13_invalid_characters_witness :
  Regex.matchRefs "2^3" = [] ∧
  JSString.forallb (fun c => Regex.isExprChar c || JSString.isWhiteSpace c) "2^3"
  = false ∧
  ∃ st', Spreadsheet.updateCell refusingHost Spreadsheet.initialState "A1"
           ("=" +:+ "2^3") = Some st' ∧
         cellAt st' "A1"
         = Some (errorCell ("=" +:+ "2^3") "Invalid characters in formula").
Proof.
  split; [reflexivity |]. split; [reflexivity |].
  apply X13_invalid_characters; reflexivity.
Defined.

(** ** What the recalculation loop evaluates *)

Lemma tc_iff {A} (R R' : relation A) :
  (∀ x y, R x y ↔ R' x y) → ∀ x y, tc R x y ↔ tc R' x y.
Proof.
  intros H x y. split.
  - induction 1 as [x y Hxy | x y z Hxy _ IH];
      [apply tc_once | apply (tc_l _ x y z)]; try done; by apply H.
  - induction 1 as [x y Hxy | x y z Hxy _ IH];
      [apply tc_once | apply (tc_l _ x y z)]; try done; by apply H.
Qed.

Lemma tc_last {A} (R : relation A) (x y : A) : tc R x y → ∃ z, R z y.
Proof.
  induction 1 as [x y Hxy | x y z _ _ IH]; [by exists x | exact IH].
Qed.

Lemma precedent_formula (f x : string) :
  x ∈ precedentsOf f → isFormula f = true ∧ JSString.isEmpty f = false.
Proof.
  unfold precedentsOf. destruct (isFormula f) eqn:Hf.
  - intros _. split; [done |]. destruct f; [discriminate Hf | done].
  - intros H. by apply not_elem_of_nil in H.
Qed.

Lemma edgesMatch_feeds (tbl : gmap string Cell) (g : DependencyGraph) (x y : string) :
  edgesMatch tbl g → (feeds g x y ↔ refersTo tbl x y).
Proof.
  intros Hm. unfold feeds, refersTo. destruct (Hm y x) as [H1 H2].
  by rewrite H2, H1.
Qed.

Section Loop.

Variable hostFunction : string → completion (option num).
Variable cells : gmap string Cell.

(** The three ways a round of the loop goes. *)
Lemma recalcRound_inv (s s' : Spreadsheet.Recalc) (d : string) (q : list string) :
  Spreadsheet.recalcRound hostFunction cells s d q = Some s' →
  (d ∈ Spreadsheet.visited s ∧ s' = Spreadsheet.withQueue s (Spreadsheet.visited s) q) ∨
  ((d ∉ Spreadsheet.visited s) ∧
   s' = Spreadsheet.withQueue s (JSSet.add d (Spreadsheet.visited s)) q ∧
   JSString.isEmpty (formulaAt (Spreadsheet.newCells s) d) = true) ∨
  ((d ∉ Spreadsheet.visited s) ∧
   ∃ c r g nextDeps,
     Spreadsheet.newCells s !! d = Some c ∧
     JSString.isEmpty (formula c) = false ∧
     Spreadsheet.evaluateCell hostFunction cells (Spreadsheet.rgraph s) d (formula c)
       = Some (r, g) ∧
     DependencyGraph.getAllDependents g d = Some nextDeps ∧
     s' = {| Spreadsheet.newCells :=
               <[d := committed (rawValue c) (formula c) r]> (Spreadsheet.newCells s);
             Spreadsheet.rgraph := g;
             Spreadsheet.visited := JSSet.add d (Spreadsheet.visited s);
             Spreadsheet.recalcQueue :=
               q ++ List.filter
                      (fun dep => negb (JSSet.has dep (JSSet.add d (Spreadsheet.visited s))))
                      nextDeps;
             Spreadsheet.evaluated := Spreadsheet.evaluated s ++ [d] |}).
Proof.
  unfold Spreadsheet.recalcRound, formulaAt.
  destruct (JSSet.has d (Spreadsheet.visited s)) eqn:Ev.
  { apply has_true in Ev. intros [= <-]. by left. }
  apply has_false in Ev.
  destruct (Spreadsheet.newCells s !! d) as [c |] eqn:Ec;
    [| intros [= <-]; right; left; by split_and!].
  destruct (JSString.isEmpty (formula c)) eqn:Ef;
    [intros [= <-]; right; left; by split_and! |].
  destruct (Spreadsheet.evaluateCell _ _ _ _ _) as [[r g] |] eqn:He; [| done].
  destruct (DependencyGraph.getAllDependents g d) as [nd |] eqn:Hd; [| done].
  intros [= <-]. right. right. split; [done |]. by exists c, r, g, nd.
Qed.

(** *** The cells left alone, and the records written *)

Section Frame.

Variable prev : gmap string Cell.
Variable cellId : string.

Lemma recalcRound_framed (s s' : Spreadsheet.Recalc) (d : string) (q : list string) :
  framed hostFunction cells prev cellId s →
  Spreadsheet.recalcRound hostFunction cells s d q = Some s' →
  framed hostFunction cells prev cellId s'.
Proof.
  intros (Hid & Hev & Hkeep & Hrec) Hr.
  apply recalcRound_inv in Hr
    as [[Hv ->] | [(Hv & -> & _) | (Hv & c & r & g & nd & Hc & Hf & He & Hd & ->)]].
  - done.
  - split_and!; simpl; try done.
    + apply add_elem. by right.
    + intros x Hx. apply add_elem. right. by apply Hev.
  - assert (Hne : d ≠ cellId) by (intros ->; done).
    assert (Hnev : d ∉ Spreadsheet.evaluated s) by (intros H; by apply Hv, Hev).
    split_and!; simpl.
    + apply add_elem. by right.
    + intros x [Hx | ->%list_elem_of_singleton]%elem_of_app; apply add_elem;
        [right; by apply Hev | by left].
    + intros x Hx Hnx. rewrite lookup_insert_ne.
      * apply Hkeep; [done |]. intros H. apply Hnx, elem_of_app. by left.
      * intros ->. apply Hnx, elem_of_app. right. by apply list_elem_of_singleton.
    + intros x [Hx | ->%list_elem_of_singleton]%elem_of_app.
      * destruct (Hrec x Hx) as (c' & r' & ga & gb & H1 & H2 & H3 & H4).
        exists c', r', ga, gb. split_and!; try done.
        rewrite lookup_insert_ne; [done |]. intros ->. by apply Hv, Hev.
      * exists c, r, (Spreadsheet.rgraph s), g. split_and!; try done.
        -- by rewrite <- (Hkeep d Hne Hnev).
        -- by rewrite lookup_insert_eq.
Qed.

Lemma updateCellFrom_framed (g : DependencyGraph) (input : string)
    (s : Spreadsheet.Recalc) :
  Spreadsheet.updateCellFrom hostFunction cells prev g cellId input = Some s →
  framed hostFunction cells prev cellId s ∧ cellId ∉ Spreadsheet.evaluated s.
Proof.
  intros Hs.
  assert (Hnot : cellId ∉ Spreadsheet.evaluated s).
  { destruct (updateCellFrom_evaluatedOnce hostFunction cells prev g cellId input)
      as (s1 & Hs1 & _ & _ & _ & Hev).
    rewrite Hs in Hs1. injection Hs1 as <-. intros Hx.
    by destruct (Hev cellId Hx) as (_ & ? & _). }
  split; [| exact Hnot].
  apply updateCellFrom_inv in Hs as (r & g1 & deps & He & Hd & Hl).
  apply (recalcLoop_invariant hostFunction cells
           (framed hostFunction cells prev cellId)) in Hl as [H _]; [done | |].
  - intros s0 d q s1 H0 _ Hr. by eapply recalcRound_framed.
  - split_and!; simpl.
    + by apply list_elem_of_singleton.
    + intros x Hx. by apply not_elem_of_nil in Hx.
    + intros x Hx _. by rewrite lookup_insert_ne.
    + intros x Hx. by apply not_elem_of_nil in Hx.
Qed.

End Frame.

(** *** The cells evaluated are the transitive dependents *)

Section Exact.

Variable table1 : gmap string Cell.
Variable g1 : DependencyGraph.
Variable cellId : string.
Hypothesis match1 : edgesMatch table1 g1.

Lemma sweeping_feeds (tbl : gmap string Cell) (g : DependencyGraph) :
  edgesMatch tbl g → (∀ x, formulaAt tbl x = formulaAt table1 x) →
  ∀ x y, feeds g x y ↔ feeds g1 x y.
Proof.
  intros Hm Hf x y.
  rewrite (edgesMatch_feeds tbl g x y Hm), (edgesMatch_feeds table1 g1 x y match1).
  unfold refersTo. by rewrite Hf.
Qed.

Lemma recalcRound_sweeping (s s' : Spreadsheet.Recalc) (d : string) (q : list string) :
  sweeping table1 g1 cellId s → Spreadsheet.recalcQueue s = d :: q →
  Spreadsheet.recalcRound hostFunction cells s d q = Some s' →
  sweeping table1 g1 cellId s'.
Proof.
  intros (Hm & Hf & Hq & Hall & Hvis & Hev) Eq Hr. rewrite Eq in Hq, Hall.
  assert (Hd : tc (feeds g1) cellId d) by (apply Hq; by left).
  apply recalcRound_inv in Hr
    as [[Hv ->] | [(Hv & -> & He) | (Hv & c & r & g & nd & Hc & Hfc & He & Hnd & ->)]].
  - split_and!; simpl; try done.
    + intros y Hy. apply Hq. by right.
    + intros y Hy. destruct (Hall y Hy) as [H | [-> | H]%elem_of_cons]; auto.
  - exfalso. apply tc_last in Hd as [z Hz].
    apply (edgesMatch_feeds table1 g1 z d match1) in Hz. unfold refersTo in Hz.
    apply precedent_formula in Hz as [_ Hz]. rewrite <- Hf in Hz. congruence.
  - assert (Hm' : edgesMatch (<[d := committed (rawValue c) (formula c) r]>
                               (Spreadsheet.newCells s)) g)
      by (by eapply edgesMatch_commit).
    assert (Hf' : ∀ x, formulaAt (<[d := committed (rawValue c) (formula c) r]>
                                    (Spreadsheet.newCells s)) x = formulaAt table1 x).
    { intros x. rewrite formulaAt_insert. destruct (decide (d = x)) as [<- | Hne];
        [| apply Hf]. rewrite <- Hf. unfold formulaAt. by rewrite Hc. }
    split_and!; simpl; try done.
    + intros y [Hy | Hy]%elem_of_app; [apply Hq; by right |].
      apply elem_filter_unvisited in Hy as [Hy _].
      destruct (getAllDependents_spec g d) as (nd' & Hnd' & _ & Hspec).
      rewrite Hnd in Hnd'. injection Hnd' as <-.
      apply Hspec in Hy.
      apply (tc_iff _ _ (sweeping_feeds _ g Hm' Hf')) in Hy.
      by apply (tc_transitive cellId d y).
    + intros y Hy. rewrite add_elem.
      destruct (Hall y Hy) as [H | [-> | H]%elem_of_cons]; [by left; right | by left; left |].
      right. apply elem_of_app. by left.
    + intros y [-> | Hy]%add_elem.
      * right. apply elem_of_app. right. by apply list_elem_of_singleton.
      * destruct (Hvis y Hy) as [-> | H]; [by left |]. right. apply elem_of_app. by left.
    + intros y [Hy | ->%list_elem_of_singleton]%elem_of_app; [by apply Hev | done].
Qed.

End Exact.

(** The loop started by an edit evaluates exactly the cells other than the
    edited one that depend on it, directly or through other cells. *)
Lemma updateCellFrom_exact (prev : gmap string Cell) (g : DependencyGraph)
    (cellId input : string) (s : Spreadsheet.Recalc) :
  edgesMatch prev g →
  Spreadsheet.updateCellFrom hostFunction cells prev g cellId input = Some s →
  edgesMatch (Spreadsheet.newCells s) (Spreadsheet.rgraph s) ∧
  ∀ y, y ∈ Spreadsheet.evaluated s ↔
       y ≠ cellId ∧ tc (refersTo (Spreadsheet.newCells s)) cellId y.
Proof.
  intros Hm Hs.
  destruct (updateCellFrom_framed prev cellId g input s Hs) as [_ Hnot].
  apply updateCellFrom_inv in Hs as (r & g1 & deps & He & Hd & Hl).
  pose proof (edgesMatch_commit hostFunction cells prev g g1 cellId input input r Hm He)
    as Hm1.
  apply (recalcLoop_invariant hostFunction cells
           (fun t => sweeping (<[cellId := committed input input r]> prev) g1 cellId t ∧
                     Spreadsheet.recalcQueue t = Spreadsheet.recalcQueue t))
    in Hl as [[(Hm' & Hf & _ & Hall & Hvis & Hev) _] Hq].
  - split; [exact Hm' |]. intros y.
    assert (Hiff : tc (refersTo (Spreadsheet.newCells s)) cellId y
                   ↔ tc (feeds g1) cellId y).
    { apply tc_iff. intros a b.
      rewrite (edgesMatch_feeds _ g1 a b Hm1). unfold refersTo. by rewrite Hf. }
    rewrite Hiff. split.
    + intros Hy. split; [intros ->; done | by apply Hev].
    + intros [Hne Hy]. destruct (Hall y Hy) as [H | H].
      * destruct (Hvis y H); [congruence | done].
      * rewrite Hq in H. by apply not_elem_of_nil in H.
  - intros s0 d q s1 [H0 _] Eq Hr. split; [| done].
    by eapply recalcRound_sweeping.
  - split; [| done]. destruct (getAllDependents_spec g1 cellId) as (r' & Hr' & _ & Hspec).
    rewrite Hd in Hr'. injection Hr' as <-.
    split_and!; simpl; try done.
    + intros y Hy. by apply Hspec.
    + intros y Hy. right. by apply Hspec.
    + intros y ->%list_elem_of_singleton. by left.
    + intros y Hy. by apply not_elem_of_nil in Hy.
Qed.

End Loop.

(** ** Edits on the grid *)

Lemma initialCells_total (x : string) : x ∈ cellIds → is_Some (initialCells !! x).
Proof.
  intros Hx.
  assert (H : Forall (fun y => is_Some (initialCells !! y)) cellIds).
  { apply Forall_forall. intros y Hy. unfold initialCells.
    destruct (list_to_map (M := gmap string Cell) ((λ id, (id, emptyCell)) <$> cellIds) !! y)
      eqn:E; [by eexists |].
    apply not_elem_of_list_to_map in E. exfalso. apply E.
    rewrite <- list_fmap_compose. apply list_elem_of_fmap. by exists y. }
  by apply (proj1 (Forall_forall _ _) H).
Qed.

Section Host.

Variable hostFunction : string → completion (option num).

(** The updater behind an edit and its log. *)
Lemma updateCell_inv (st st' : Spreadsheet.State) (cellId text : string)
    (log : list string) :
  Spreadsheet.updateCell hostFunction st cellId text = Some st' →
  Spreadsheet.recalculated hostFunction st cellId text = Some log →
  ∃ s, Spreadsheet.updateCellFrom hostFunction (Spreadsheet.cells st)
         (Spreadsheet.cells st) (Spreadsheet.dependencyGraph st) cellId text = Some s ∧
       Spreadsheet.cells st' = Spreadsheet.newCells s ∧
       Spreadsheet.dependencyGraph st' = Spreadsheet.rgraph s ∧
       log = Spreadsheet.evaluated s.
Proof.
  unfold Spreadsheet.updateCell, Spreadsheet.recalculated.
  destruct (Spreadsheet.updateCellFrom _ _ _ _ _ _) as [s |]; [| done].
  intros [= <-] [= <-]. by exists s.
Qed.

Lemma updateCell_total (st : Spreadsheet.State) (cellId text : string) :
  ∃ st' log,
    Spreadsheet.updateCell hostFunction st cellId text = Some st' ∧
    Spreadsheet.recalculated hostFunction st cellId text = Some log.
Proof.
  unfold Spreadsheet.updateCell, Spreadsheet.recalculated.
  destruct (updateCellFrom_is_Some hostFunction (Spreadsheet.cells st)
              (Spreadsheet.cells st) (Spreadsheet.dependencyGraph st) cellId text)
    as [s ->].
  by eexists _, _.
Qed.

(** X14. An edit made in a state reached by edits of the grid re-evaluates
    exactly the cells, other than the edited one, whose text refers to the
    edited cell directly or through the texts of other cells, each of them
    once. *)
Theorem X14_recalculates_exactly_the_dependents
    (st : Spreadsheet.State) (cellId text : string) :
  reachable hostFunction st →
  ∃ st' log,
    Spreadsheet.updateCell hostFunction st cellId text = Some st' ∧
    Spreadsheet.recalculated hostFunction st cellId text = Some log ∧
    NoDup log ∧
    ∀ y, y ∈ log ↔ y ≠ cellId ∧ tc (refersTo (Spreadsheet.cells st')) cellId y.
Proof.
  intros Hr. destruct (updateCell_total st cellId text) as (st' & log & Hu & Hl).
  exists st', log. split; [exact Hu |]. split; [exact Hl |].
  destruct (updateCell_inv st st' cellId text log Hu Hl) as (s & Hs & Hc & _ & ->).
  destruct (reachable_invariant hostFunction st Hr) as (_ & Hm & _).
  split.
  - destruct (updateCellFrom_evaluatedOnce hostFunction (Spreadsheet.cells st)
                (Spreadsheet.cells st) (Spreadsheet.dependencyGraph st) cellId text)
      as (s1 & Hs1 & _ & Hnd & _).
    rewrite Hs in Hs1. by injection Hs1 as <-.
  - rewrite Hc.
    by apply (updateCellFrom_exact hostFunction (Spreadsheet.cells st)
                (Spreadsheet.cells st) (Spreadsheet.dependencyGraph st) cellId text s Hm Hs).
Qed.

(** X15. An edit changes the raw value and the formula of no cell but the
    edited one, and leaves the whole record of every other cell that it
    did not re-evaluate; this holds in any state. *)
Theorem X15_edit_leaves_other_cells
    (st st' : Spreadsheet.State) (cellId text : string) (log : list string) :
  Spreadsheet.updateCell hostFunction st cellId text = Some st' →
  Spreadsheet.recalculated hostFunction st cellId text = Some log →
  ∀ x, x ≠ cellId →
       rawValue <$> cellAt st' x = rawValue <$> cellAt st x ∧
       formula <$> cellAt st' x = formula <$> cellAt st x ∧
       (x ∉ log → cellAt st' x = cellAt st x).
Proof.
  intros Hu Hl x Hx.
  destruct (updateCell_inv st st' cellId text log Hu Hl) as (s & Hs & Hc & _ & ->).
  destruct (updateCellFrom_framed hostFunction _ _ _ _ _ _ Hs)
    as [(_ & _ & Hkeep & Hrec) _].
  unfold cellAt. rewrite Hc.
  destruct (decide (x ∈ Spreadsheet.evaluated s)) as [Hev | Hev].
  - destruct (Hrec x Hev) as (c & r & ga & gb & H1 & _ & _ & H2).
    rewrite H1, H2. by split_and!.
  - rewrite (Hkeep x Hx Hev). by split_and!.
Qed.

Lemma updateCell_domain (st st' : Spreadsheet.State) (cellId text x : string) :
  Spreadsheet.updateCell hostFunction st cellId text = Some st' →
  is_Some (cellAt st' x) ↔ is_Some (cellAt st x) ∨ x = cellId.
Proof.
  intros Hu. destruct (updateCell_total st cellId text) as (st1 & log & Hu' & Hl).
  rewrite Hu in Hu'. injection Hu' as <-.
  destruct (decide (x = cellId)) as [-> | Hne].
  - destruct (evaluateCell_is_Some hostFunction (Spreadsheet.cells st)
                (Spreadsheet.dependencyGraph st) cellId text) as [[r g1] He].
    destruct (updateCell_edited hostFunction st cellId text r g1 He) as (st2 & H1 & H2 & _).
    rewrite Hu in H1. injection H1 as <-. rewrite H2. split; [by right | by eexists].
  - destruct (updateCell_inv st st' cellId text log Hu Hl) as (s & Hs & Hc & _ & ->).
    destruct (updateCellFrom_framed hostFunction _ _ _ _ _ _ Hs)
      as [(_ & _ & Hkeep & Hrec) _].
    unfold cellAt. rewrite Hc.
    destruct (decide (x ∈ Spreadsheet.evaluated s)) as [Hev | Hev].
    + destruct (Hrec x Hev) as (c & r & ga & gb & H1 & _ & _ & H2).
      rewrite H1, H2. split; [left | intros _]; by eexists.
    + rewrite (Hkeep x Hne Hev). split; [by left | by intros [? | ?]].
Qed.

(** X16. In every state reached by edits of the grid the table holds a
    record for each of the 100 cells of the grid and for no other key. *)
Theorem X16_table_is_the_grid (st : Spreadsheet.State) :
  reachable hostFunction st →
  (∀ x, is_Some (cellAt st x) ↔ x ∈ cellIds) ∧
  size (Spreadsheet.cells st) = 100%nat.
Proof.
  intros Hr.
  assert (Hdom : ∀ x, is_Some (cellAt st x) ↔ x ∈ cellIds).
  { induction Hr as [| st st' cellId text _ IH Hid Hu].
    - intros x. split.
      + intros [c Hc]. by apply initialCells_lookup in Hc as [_ ?].
      + apply initialCells_total.
    - intros x. rewrite (updateCell_domain st st' cellId text x Hu), IH.
      split; [by intros [? | ->] | by left]. }
  split; [exact Hdom |].
  assert (Hset : dom (Spreadsheet.cells st) = (list_to_set cellIds : gset string)).
  { apply set_eq. intros x. rewrite elem_of_dom, elem_of_list_to_set. apply Hdom. }
  rewrite <- size_dom, Hset, size_list_to_set; [apply length_cellIds |].
  apply (bool_decide_unpack (NoDup cellIds)). vm_compute. reflexivity.
Qed.

(** X17. A cell re-evaluated after an edit, in a state reached by edits of
    the grid, held a formula before the edit, and afterwards it is either
    marked circular or holds the evaluation of that formula against the
    table as it was before the edit: the loop reads neither the new record
    of the edited cell nor the records it has just written. *)
Theorem X17_dependents_read_the_table_before_the_edit
    (st st' : Spreadsheet.State) (cellId text : string) (log : list string) :
  reachable hostFunction st →
  Spreadsheet.updateCell hostFunction st cellId text = Some st' →
  Spreadsheet.recalculated hostFunction st cellId text = Some log →
  ∀ x, x ∈ log →
       ∃ f, formulaAt (Spreadsheet.cells st) x = f ∧ isFormula f = true ∧
            (cellAt st' x = Some (circularCell f) ∨
             cellAt st' x
             = Some (committed f f (compiled hostFunction (Spreadsheet.cells st) f))).
Proof.
  intros Hr Hu Hl x Hx.
  destruct (updateCell_inv st st' cellId text log Hu Hl) as (s & Hs & Hc & _ & ->).
  destruct (reachable_invariant hostFunction st Hr) as (Hcons & Hm & _).
  destruct (updateCellFrom_framed hostFunction _ _ _ _ _ _ Hs)
    as [(_ & _ & _ & Hrec) _].
  destruct (Hrec x Hx) as (c & r & ga & gb & H1 & _ & He & H2).
  destruct (updateCellFrom_exact hostFunction _ _ _ _ _ _ Hm Hs) as [_ Hexact].
  apply Hexact in Hx as [_ Hx]. apply tc_last in Hx as [z Hz].
  unfold refersTo, formulaAt in Hz. rewrite H2 in Hz. simpl in Hz.
  apply precedent_formula in Hz as [Hf _].
  destruct (Hcons x c H1) as (Hraw & _).
  exists (formula c). unfold formulaAt, cellAt. rewrite H1, Hc, H2.
  split; [done |]. split; [done |].
  rewrite (evaluateCell_formula_cases hostFunction _ _ _ _ Hf) in He.
  destruct (DependencyGraph.detectCircular _ _) as [[|] |]; [| | done].
  - left. injection He as <- _. by rewrite <- Hraw.
  - right. f_equal. rewrite <- Hraw at 1. f_equal. unfold compiled.
    revert He. cbv zeta. by destruct (Spreadsheet.isErrorValue _); intros [= <- _].
Qed.

End Host.

Lemma X14_recalculates_exactly_the_dependents_witness :
  let st := stateAfter refusingHost [("A1", "5"); ("B1", "=A1+3"); ("C1", "=B1*2")] in
  reachable refusingHost st ∧
  ∃ st' log,
    Spreadsheet.updateCell refusingHost st "A1" "10" = Some st' ∧
    Spreadsheet.recalculated refusingHost st "A1" "10" = Some log ∧
    NoDup log ∧
    ∀ y, y ∈ log ↔ y ≠ "A1" ∧ tc (refersTo (Spreadsheet.cells st')) "A1" y.
Proof.
  cbv zeta.
  assert (Hr : reachable refusingHost
                 (stateAfter refusingHost [("A1", "5"); ("B1", "=A1+3"); ("C1", "=B1*2")]))
    by (apply stateAfter_reachable; grid_edits).
  split; [exact Hr |].
  exact (X14_recalculates_exactly_the_dependents refusingHost _ "A1" "10" Hr).
Defined.

Lemma X15_edit_leaves_other_cells_witness :
  let st := stateAfter refusingHost [("A1", "5"); ("B1", "=A1+3")] in
  let st' := stateAfter refusingHost [("A1", "5"); ("B1", "=A1+3"); ("A1", "10")] in
  Spreadsheet.updateCell refusingHost st "A1" "10" = Some st' ∧
  Spreadsheet.recalculated refusingHost st "A1" "10" = Some ["B1"] ∧
  ∀ x, x ≠ "A1" →
       rawValue <$> cellAt st' x = rawValue <$> cellAt st x ∧
       formula <$> cellAt st' x = formula <$> cellAt st x ∧
       (x ∉ ["B1"] → cellAt st' x = cellAt st x).
Proof.
  cbv zeta.
  pose proof (stateAfter_snoc refusingHost [("A1", "5"); ("B1", "=A1+3")] "A1" "10")
    as Hu.
  assert (Hl : Spreadsheet.recalculated refusingHost
                 (stateAfter refusingHost [("A1", "5"); ("B1", "=A1+3")]) "A1" "10"
               = Some ["B1"]) by (vm_compute; reflexivity).
  split; [exact Hu |]. split; [exact Hl |].
  exact (X15_edit_leaves_other_cells refusingHost _ _ "A1" "10" ["B1"] Hu Hl).
Defined.

Lemma X16_table_is_the_grid_witness :
  let st := stateAfter refusingHost [("A1", "5"); ("B1", "=A1+3")] in
  reachable refusingHost st ∧
  (∀ x, is_Some (cellAt st x) ↔ x ∈ cellIds) ∧
  size (Spreadsheet.cells st) = 100%nat.
Proof.
  cbv zeta.
  assert (Hr : reachable refusingHost
                 (stateAfter refusingHost [("A1", "5"); ("B1", "=A1+3")]))
    by (apply stateAfter_reachable; grid_edits).
  split; [exact Hr |].
  exact (X16_table_is_the_grid refusingHost _ Hr).
Defined.

Lemma X17_dependents_read_the_table_before_the_edit_witness :
  let st := stateAfter refusingHost [("A1", "5"); ("B1", "=A1+3")] in
  let st' := stateAfter refusingHost [("A1", "5"); ("B1", "=A1+3"); ("A1", "10")] in
  reachable refusingHost st ∧
  Spreadsheet.updateCell refusingHost st "A1" "10" = Some st' ∧
  Spreadsheet.recalculated refusingHost st "A1" "10" = Some ["B1"] ∧
  ∀ x, x ∈ ["B1"] →
       ∃ f, formulaAt (Spreadsheet.cells st) x = f ∧ isFormula f = true ∧
            (cellAt st' x = Some (circularCell f) ∨
             cellAt st' x
             = Some (committed f f (compiled refusingHost (Spreadsheet.cells st) f))).
Proof.
  cbv zeta.
  assert (Hr : reachable refusingHost
                 (stateAfter refusingHost [("A1", "5"); ("B1", "=A1+3")]))
    by (apply stateAfter_reachable; grid_edits).
  pose proof (stateAfter_snoc refusingHost [("A1", "5"); ("B1", "=A1+3")] "A1" "10")
    as Hu.
  assert (Hl : Spreadsheet.recalculated refusingHost
                 (stateAfter refusingHost [("A1", "5"); ("B1", "=A1+3")]) "A1" "10"
               = Some ["B1"]) by (vm_compute; reflexivity).
  split; [exact Hr |]. split; [exact Hu |]. split; [exact Hl |].
  exact (X17_dependents_read_the_table_before_the_edit refusingHost _ _ "A1" "10"
           ["B1"] Hr Hu Hl).
Defined.

(** ** A leading minus sign *)

Lemma evalRPN_addChar (a : additive) (rest : list token) (x b : num) (st : list num) :
  FormulaParser.evalRPN (TChar (addChar a) :: rest) (b :: x :: st)
  = FormulaParser.evalRPN rest (addFun a x b :: st).
Proof. by destruct a. Qed.

Lemma addFun_NaN (a : additive) (v : num) : addFun a NaN v = NaN.
Proof. by destruct a, v. Qed.

(** The two loops of [calculate] on the tokens of an expression when a
    minus sign is already on the operator stack: the sign is applied to a
    single operand, and the value not a number goes through what follows. *)
Lemma shunt_after_minus {A} (val : A → num) (e : arithExpr A) :
  ∃ M a o,
    foldl FormulaParser.shunt ([addChar Minus], []) (tokensE val e)
    = (pendingMul M ++ pendingAdd (Some a) ++ [], o) ∧
    ∀ rest,
      FormulaParser.evalRPN
        (o ++ (TChar <$> (pendingMul M ++ pendingAdd (Some a))) ++ rest) []
      = FormulaParser.evalRPN rest [NaN].
Proof.
  induction e as [t | e (M & a0 & o & H1 & H2) a t].
  - destruct (proj1 (proj2 (shunt_grammar val)) t (Some Minus) [] [])
      as (M & o & H1 & H2); [by left |].
    exists M, Minus, o. split; [exact H1 |]. intros rest.
    rewrite fmap_app, <- app_assoc, app_assoc, H2.
    rewrite (proj1 (proj2 (evalRPN_grammar val))). reflexivity.
  - destruct (proj1 (proj2 (shunt_grammar val)) t (Some a) []
                (o ++ (TChar <$> (pendingMul M ++ pendingAdd (Some a0)))))
      as (M' & o' & H3 & H4); [by left |].
    exists M', a, ((o ++ (TChar <$> (pendingMul M ++ pendingAdd (Some a0)))) ++ o').
    cbn [tokensE]. rewrite foldl_app, H1. cbn [foldl].
    rewrite shunt_add_frame by (by left). split; [exact H3 |].
    intros rest.
    replace (((o ++ (TChar <$> pendingMul M ++ pendingAdd (Some a0))) ++ o') ++
             (TChar <$> pendingMul M' ++ pendingAdd (Some a)) ++ rest)
      with (o ++ (TChar <$> pendingMul M ++ pendingAdd (Some a0)) ++
            (postfixT val t ++ (TChar <$> pendingAdd (Some a)) ++ rest)).
    2:{ rewrite <- H4, (fmap_app TChar (pendingMul M') (pendingAdd (Some a))).
        by rewrite <- !app_assoc. }
    rewrite (H2 (postfixT val t ++ (TChar <$> pendingAdd (Some a)) ++ rest)).
    rewrite (proj1 (proj2 (evalRPN_grammar val))).
    cbn [pendingAdd fmap list_fmap app]. rewrite evalRPN_addChar, addFun_NaN.
    reflexivity.
Qed.

Lemma calculate_after_minus {A} (val : A → num) (e : arithExpr A) :
  FormulaParser.calculate (TChar "-" :: tokensE val e) = Normal (Some NaN).
Proof.
  unfold FormulaParser.calculate, FormulaParser.toRPN. cbn [foldl].
  change (FormulaParser.shunt ([], []) (TChar "-")) with ([addChar Minus], @nil token).
  destruct (shunt_after_minus val e) as (M & a & o & H1 & H2).
  rewrite H1. specialize (H2 []). rewrite !app_nil_r in H2. rewrite app_nil_r, H2.
  reflexivity.
Qed.

Lemma prefix_refl (s : string) : String.prefix s s = true.
Proof.
  induction s as [| c s IH]; [reflexivity |]. cbn [String.prefix].
  by destruct (ascii_dec c c).
Qed.

Lemma replaceAllFrom_skip (pat rep s : string) :
  Regex.replaceAllFrom pat rep (String.length s) s = EmptyString.
Proof. induction s as [| c s IH]; [reflexivity |]. exact IH. Qed.

Lemma replaceAll_self (pat rep : string) :
  JSString.isEmpty pat = false → Regex.replaceAll pat rep pat = rep.
Proof.
  destruct pat as [| c s]; [done |]. intros _.
  unfold Regex.replaceAll. cbn [Regex.replaceAllFrom].
  rewrite (prefix_refl (String c s)). cbn [String.length].
  rewrite Nat.sub_succ, Nat.sub_0_r, replaceAllFrom_skip.
  apply append_empty_r.
Qed.

Lemma grid_identifier (id : string) :
  id ∈ cellIds →
  JSString.trim id = id ∧ JSString.isEmpty id = false ∧ Regex.matchRefs id = [id].
Proof.
  intros Hid%list_elem_of_In.
  assert (H : List.forallb
                (fun id => String.eqb (JSString.trim id) id &&
                           negb (JSString.isEmpty id) &&
                           match Regex.matchRefs id with
                           | [r] => String.eqb r id
                           | _ => false
                           end) cellIds = true) by (vm_compute; reflexivity).
  rewrite List.forallb_forall in H. specialize (H id Hid).
  apply andb_true_iff in H as [[H1 H2]%andb_true_iff H3].
  apply String.eqb_eq in H1. apply negb_true_iff in H2.
  destruct (Regex.matchRefs id) as [| r [| ? ?]]; try done.
  by apply String.eqb_eq in H3 as ->.
Qed.

Lemma numeral_exprChars (n : string) :
  isNumeral n = true →
  JSString.forallb Regex.isExprChar n = true ∧ JSString.isEmpty n = false.
Proof.
  unfold isNumeral. intros [H1 H2]%andb_true_iff. split.
  - revert H2. apply forallb_impl. exact numberText_exprChar.
  - by apply negb_true_iff.
Qed.

Section Host.

Variable hostFunction : string → completion (option num).

Lemma safeEvaluate_after_minus (e : arithExpr string) :
  numeralsE e = true →
  FormulaParser.safeEvaluate hostFunction ("-" +:+ printE e) = Normal (Some NaN).
Proof.
  intros Hn. unfold FormulaParser.safeEvaluate, Regex.keepExprChars.
  rewrite filter_forallb.
  2:{ change ("-" +:+ printE e) with (String "-" (printE e)).
      cbn [JSString.forallb]. by rewrite (proj1 print_exprChars e Hn). }
  unfold FormulaParser.tokenize.
  change ("-" +:+ printE e) with (String "-" (printE e)).
  rewrite tokenizeFrom_operator by reflexivity.
  rewrite <- (append_empty_r (printE e)).
  rewrite (proj1 tokenize_grammar e Hn EmptyString ([] ++ [TChar "-"])) by reflexivity.
  cbn [FormulaParser.tokenizeFrom FormulaParser.flushNumber JSString.isEmpty app].
  by rewrite calculate_after_minus.
Qed.

(** [parse] on a formula whose text, after the [=], is made of the
    characters of an expression: the text goes to the evaluator as it is. *)
Lemma parse_expression (body : string) (gv : string → option num) :
  JSString.forallb Regex.isExprChar body = true →
  JSString.isEmpty body = false →
  FormulaParser.parse hostFunction ("=" +:+ body) gv
  = match FormulaParser.safeEvaluate hostFunction body with
    | Throw msg => FormulaParser.failure msg
    | Normal None => FormulaParser.failure "Invalid result"
    | Normal (Some result) =>
        if isNaN result || negb (isFinite result)
        then FormulaParser.failure "Invalid result"
        else {| value := VNum result; perror := None |}
    end.
Proof.
  intros Hchars Hne.
  assert (Hws : JSString.forallb (fun c => negb (JSString.isWhiteSpace c)) body = true).
  { revert Hchars. apply forallb_impl. intros c Hc.
    destruct (exprChar_plain c Hc) as [-> _]. reflexivity. }
  assert (Hcol : JSString.forallb (fun c => negb (Regex.isColumn c)) body = true).
  { revert Hchars. apply forallb_impl. intros c Hc.
    destruct (exprChar_plain c Hc) as [_ ->]. reflexivity. }
  unfold FormulaParser.parse. rewrite startsWith_equals.
  change (JSString.substring1 ("=" +:+ body)) with body.
  cbn [negb]. unfold JSString.trim.
  rewrite (trimStart_plain _ Hws), (trimEnd_plain _ Hws), Hne.
  rewrite (matchRefs_plain _ Hcol). cbn [FormulaParser.substituteRefs].
  unfold Regex.removeWhiteSpace. rewrite (filter_forallb _ _ Hws).
  unfold Regex.validChars. rewrite Hne, Hchars. cbn [negb andb]. reflexivity.
Qed.

(** X18. The evaluator has no unary minus: a formula that is [=-] followed
    by the text of an arithmetic expression displays [#ERROR] with the
    reason [Invalid result], whatever the expression. *)
Theorem X18_no_unary_minus
    (st : Spreadsheet.State) (cellId : string) (e : arithExpr string) :
  numeralsE e = true →
  ∃ st', Spreadsheet.updateCell hostFunction st cellId ("=-" +:+ printE e) = Some st' ∧
         cellAt st' cellId = Some (errorCell ("=-" +:+ printE e) "Invalid result").
Proof.
  intros Hn.
  assert (Hchars : JSString.forallb Regex.isExprChar ("-" +:+ printE e) = true).
  { change ("-" +:+ printE e) with (String "-" (printE e)).
    cbn [JSString.forallb]. by rewrite (proj1 print_exprChars e Hn). }
  change ("=-" +:+ printE e) with ("=" +:+ ("-" +:+ printE e)).
  destruct (updateCell_no_reference hostFunction st cellId ("=" +:+ ("-" +:+ printE e)))
    as (st' & H1 & H2).
  { apply isFormula_equals. }
  { rewrite matchRefs_after_equals. apply matchRefs_plain.
    revert Hchars. apply forallb_impl. intros c Hc.
    destruct (exprChar_plain c Hc) as [_ ->]. reflexivity. }
  exists st'. split; [exact H1 |]. rewrite H2. f_equal.
  apply compiled_failure.
  rewrite (parse_expression _ _ Hchars) by reflexivity.
  by rewrite (safeEvaluate_after_minus e Hn).
Qed.

(** X19. A formula that is a single reference to a cell of the grid
    evaluates the printed value of that cell: when the value prints as a
    numeral the result is the number read from the numeral; when it prints
    as a minus sign followed by a numeral, that is for a negative value,
    the result is the error [Invalid result]. *)
Theorem X19_single_reference_evaluates_the_printed_value
    (cells : gmap string Cell) (ref n : string) (v : num) :
  ref ∈ cellIds →
  Spreadsheet.getCellValue cells ref = Some v →
  isNumeral n = true →
  (toString v = n →
   FormulaParser.parse hostFunction ("=" +:+ ref) (Spreadsheet.getCellValue cells)
   = if isNaN (parseFloat n) || negb (isFinite (parseFloat n))
     then FormulaParser.failure "Invalid result"
     else {| value := VNum (parseFloat n); perror := None |}) ∧
  (toString v = "-" +:+ n →
   FormulaParser.parse hostFunction ("=" +:+ ref) (Spreadsheet.getCellValue cells)
   = FormulaParser.failure "Invalid result").
Proof.
  intros Hid Hv Hn.
  destruct (grid_identifier ref Hid) as (Htrim & Hne & Hrefs).
  destruct (numeral_exprChars n Hn) as [Hchars Hnn].
  assert (Hnan : isNaN v = false).
  { revert Hv. unfold Spreadsheet.getCellValue.
    destruct (cells !! ref) as [c |]; [| done].
    destruct (_ || _); [done |].
    destruct (isNaN (parseFloat (display c))) eqn:E; [done |]. by intros [= <-]. }
  assert (Hparse : ∀ body,
            toString v = body →
            JSString.forallb Regex.isExprChar body = true →
            JSString.isEmpty body = false →
            FormulaParser.parse hostFunction ("=" +:+ ref) (Spreadsheet.getCellValue cells)
            = FormulaParser.parse hostFunction ("=" +:+ body)
                (Spreadsheet.getCellValue cells)).
  { intros body Hbody Hc He. rewrite (parse_expression body _ Hc He).
    assert (Hws : JSString.forallb (fun c => negb (JSString.isWhiteSpace c)) body = true).
    { revert Hc. apply forallb_impl. intros c Hcc.
      destruct (exprChar_plain c Hcc) as [-> _]. reflexivity. }
    unfold FormulaParser.parse. rewrite startsWith_equals.
    change (JSString.substring1 ("=" +:+ ref)) with ref.
    cbn [negb]. rewrite Htrim, Hne, Hrefs.
    cbn [FormulaParser.substituteRefs]. rewrite Hv, Hnan.
    rewrite (replaceAll_self ref _ Hne), Hbody.
    unfold Regex.removeWhiteSpace. rewrite (filter_forallb _ _ Hws).
    unfold Regex.validChars. rewrite He, Hc. cbn [negb andb]. reflexivity. }
  split.
  - intros Hs. rewrite (Hparse n Hs Hchars Hnn).
    apply (parse_print hostFunction (ofTerm (ofFactor (operand n)))). exact Hn.
  - intros Hs.
    assert (Hc' : JSString.forallb Regex.isExprChar ("-" +:+ n) = true).
    { change ("-" +:+ n) with (String "-" n). cbn [JSString.forallb]. by rewrite Hchars. }
    rewrite (Hparse ("-" +:+ n) Hs Hc') by reflexivity.
    rewrite (parse_expression _ _ Hc') by reflexivity.
    pose proof (safeEvaluate_after_minus (ofTerm (ofFactor (operand n))) Hn) as Hsafe.
    cbn [printE printT printF] in Hsafe. by rewrite Hsafe.
Qed.

End Host.

Lemma X18_no_unary_minus_witness :
  numeralsE (ofTerm (ofFactor (operand "5"))) = true ∧
  ∃ st', Spreadsheet.updateCell refusingHost Spreadsheet.initialState "A1"
           ("=-" +:+ printE (ofTerm (ofFactor (operand "5")))) = Some st' ∧
         cellAt st' "A1"
         = Some (errorCell ("=-" +:+ printE (ofTerm (ofFactor (operand "5"))))
                   "Invalid result").
Proof.
  split; [reflexivity |]. apply X18_no_unary_minus. reflexivity.
Defined.

Lemma X19_single_reference_evaluates_the_printed_value_witness :
  let cells := <["A1" := literalCell "-5"]> initialCells in
  "A1" ∈ cellIds ∧
  Spreadsheet.getCellValue cells "A1" = Some (parseFloat "-5") ∧
  isNumeral "5" = true ∧
  toString (parseFloat "-5") = "-" +:+ "5" ∧
  FormulaParser.parse refusingHost ("=" +:+ "A1") (Spreadsheet.getCellValue cells)
  = FormulaParser.failure "Invalid result".
Proof.
  cbv zeta.
  assert (Hid : "A1" ∈ cellIds) by grid_cell.
  assert (Hv : Spreadsheet.getCellValue (<["A1" := literalCell "-5"]> initialCells) "A1"
               = Some (parseFloat "-5")) by (vm_compute; reflexivity).
  assert (Hs : toString (parseFloat "-5") = "-" +:+ "5") by (vm_compute; reflexivity).
  split; [exact Hid |]. split; [exact Hv |]. split; [reflexivity |].
  split; [exact Hs |].
  exact (proj2 (X19_single_reference_evaluates_the_printed_value refusingHost
                  _ "A1" "5" (parseFloat "-5") Hid Hv eq_refl) Hs).
Defined.

(** ** When the host's evaluator is reached *)

Lemma isOperator_inv (c : ascii) :
  isOperator c = true → c = "+"%char ∨ c = "-"%char ∨ c = "*"%char ∨ c = "/"%char.
Proof.
  destruct c as [[] [] [] [] [] [] [] []]; vm_compute; intros H;
    first [discriminate H | tauto].
Qed.

Lemma tokenChar_closing (c : ascii) :
  JSString.includes "+-*/()" c = true → Ascii.eqb c "(" = false →
  closingToken (TChar c).
Proof.
  destruct c as [[] [] [] [] [] [] [] []]; vm_compute; intros H1 H2;
    first [discriminate H1 | discriminate H2 | by left | by right].
Qed.

Lemma popToParen_operators (ops : list ascii) (out : list token) :
  Forall (fun c => isOperator c = true) ops → Forall operatorToken out →
  Forall (fun c => isOperator c = true) (FormulaParser.popToParen ops out).1 ∧
  Forall operatorToken (FormulaParser.popToParen ops out).2.
Proof.
  revert out. induction ops as [| top rest IH]; intros out Hops Hout; [done |].
  cbn [FormulaParser.popToParen]. destruct (Ascii.eqb top "("); [done |].
  apply Forall_cons in Hops as [Htop Hrest]. apply IH; [done |].
  apply Forall_app. split; [done |]. by apply Forall_singleton.
Qed.

Lemma popHigher_operators (tok : ascii) (ops : list ascii) (out : list token) :
  Forall (fun c => isOperator c = true) ops → Forall operatorToken out →
  Forall (fun c => isOperator c = true) (FormulaParser.popHigher tok ops out).1 ∧
  Forall operatorToken (FormulaParser.popHigher tok ops out).2.
Proof.
  revert out. induction ops as [| top rest IH]; intros out Hops Hout; [done |].
  cbn [FormulaParser.popHigher]. destruct (_ && _); [| done].
  apply Forall_cons in Hops as [Htop Hrest]. apply IH; [done |].
  apply Forall_app. split; [done |]. by apply Forall_singleton.
Qed.

Lemma shunt_operators (ops : list ascii) (out : list token) (tok : token) :
  Forall (fun c => isOperator c = true) ops → Forall operatorToken out →
  closingToken tok →
  Forall (fun c => isOperator c = true) (FormulaParser.shunt (ops, out) tok).1 ∧
  Forall operatorToken (FormulaParser.shunt (ops, out) tok).2.
Proof.
  intros Hops Hout Htok. destruct tok as [n | c]; cbn [FormulaParser.shunt].
  - split; [done |]. apply Forall_app. split; [done |]. by apply Forall_singleton.
  - destruct (Ascii.eqb_spec c "(") as [-> | Hopen].
    { destruct Htok as [H | H]; discriminate H. }
    destruct (Ascii.eqb_spec c ")") as [-> | Hclose].
    + destruct (popToParen_operators ops out Hops Hout) as [H1 H2].
      destruct (FormulaParser.popToParen ops out) as [ops' out']. simpl in *.
      split; [| done]. destruct ops'; [done |]. by apply Forall_cons in H1 as [_ ?].
    + destruct Htok as [Hc | Hc]; [| done].
      destruct (popHigher_operators c ops out Hops Hout) as [H1 H2].
      destruct (FormulaParser.popHigher c ops out) as [ops' out']. simpl in *.
      split; [| done]. by apply Forall_cons.
Qed.

Lemma toRPN_operators (tokens : list token) :
  Forall closingToken tokens → Forall operatorToken (FormulaParser.toRPN tokens).
Proof.
  intros Htok. unfold FormulaParser.toRPN.
  assert (H : ∀ st,
            Forall (fun c => isOperator c = true) st.1 → Forall operatorToken st.2 →
            Forall (fun c => isOperator c = true)
                   (foldl FormulaParser.shunt st tokens).1 ∧
            Forall operatorToken (foldl FormulaParser.shunt st tokens).2).
  { induction Htok as [| tok tokens Htok _ IH]; intros [ops out] H1 H2; [done |].
    cbn [foldl]. destruct (shunt_operators ops out tok H1 H2 Htok) as [H3 H4].
    by apply IH. }
  destruct (H ([], [])) as [H1 H2]; [done | done |].
  destruct (foldl FormulaParser.shunt ([], []) tokens) as [ops out]. simpl in *.
  apply Forall_app. split; [done |]. by apply Forall_fmap.
Qed.

Lemma evalRPN_operators (out : list token) :
  Forall operatorToken out → ∀ st, ∃ st', FormulaParser.evalRPN out st = Normal st'.
Proof.
  induction 1 as [| tok out Htok _ IH]; intros st; [by eexists |].
  destruct tok as [n | c]; cbn [FormulaParser.evalRPN]; [apply IH |].
  destruct (FormulaParser.pop st) as [b st1].
  destruct (FormulaParser.pop st1) as [a st2].
  destruct (isOperator_inv c Htok) as [-> | [-> | [-> | ->]]]; apply IH.
Qed.

Lemma tokenizeFrom_closing (expr cur : string) (toks : list token) :
  noOpening expr = true → Forall closingToken toks →
  Forall closingToken (FormulaParser.tokenizeFrom expr cur toks).
Proof.
  assert (Hflush : ∀ cur toks, Forall closingToken toks →
                     Forall closingToken (FormulaParser.flushNumber cur toks)).
  { intros c t Ht. unfold FormulaParser.flushNumber.
    destruct (JSString.isEmpty c); [done |].
    apply Forall_app. split; [done |]. by apply Forall_singleton. }
  revert cur toks. induction expr as [| c expr IH]; intros cur toks Hno Htoks.
  - by apply Hflush.
  - apply andb_true_iff in Hno as [Hc Hno]. apply negb_true_iff in Hc.
    cbn [FormulaParser.tokenizeFrom].
    destruct (JSString.includes "0123456789." c); [by apply IH |].
    apply IH; [done |].
    destruct (JSString.includes "+-*/()" c) eqn:Ec; [| by apply Hflush].
    apply Forall_app. split; [by apply Hflush |].
    apply Forall_singleton. by apply tokenChar_closing.
Qed.

Lemma forallb_filter (p q : ascii → bool) (s : string) :
  JSString.forallb p s = true → JSString.forallb p (JSString.filter q s) = true.
Proof.
  induction s as [| c s IH]; [done |]. intros [Hc Hs]%andb_true_iff.
  cbn [JSString.filter]. destruct (q c); [| by apply IH].
  cbn [JSString.forallb]. by rewrite Hc, IH.
Qed.

(** Without an opening parenthesis [calculate] returns. *)
Lemma calculate_without_opening (expression : string) :
  noOpening expression = true →
  ∃ r, FormulaParser.calculate
         (FormulaParser.tokenize (Regex.keepExprChars expression)) = Normal r.
Proof.
  intros Hno. unfold FormulaParser.calculate.
  destruct (evalRPN_operators
              (FormulaParser.toRPN
                 (FormulaParser.tokenize (Regex.keepExprChars expression))))
    with (st := @nil num) as [st' ->]; [| by eexists].
  apply toRPN_operators, tokenizeFrom_closing; [| done].
  by apply forallb_filter.
Qed.

Lemma openings_app (a b : string) :
  openings (a +:+ b) = (openings a + openings b)%nat.
Proof.
  induction a as [| c a IH]; [reflexivity |].
  change (String c a +:+ b) with (String c (a +:+ b)).
  cbn [openings]. rewrite IH. lia.
Qed.

Lemma openings_positive (s : string) : noOpening s = false → (1 ≤ openings s)%nat.
Proof.
  unfold noOpening. induction s as [| c s IH]; [done |].
  cbn [JSString.forallb openings]. destruct (Ascii.eqb c "("); [lia |].
  intros H. apply IH in H. lia.
Qed.

(** A host that evaluates every text without a parenthesis agrees with the
    refusing one on the texts that reach a host. *)
Lemma plainHost_refuses (expression : string) :
  noOpening expression = false →
  refusingHost (FormulaParser.fallbackBody expression)
  = plainHost (FormulaParser.fallbackBody expression).
Proof.
  intros H%openings_positive. unfold plainHost, FormulaParser.fallbackBody.
  rewrite !openings_app.
  change (openings FormulaParser.dquote) with O.
  change (openings "use strict") with O.
  change (openings "; return (") with 1%nat.
  destruct (Nat.leb_spec (0 + (0 + (0 + (1 + (openings expression + openings ")")))))
              1); [lia | reflexivity].
Qed.

(** X20. The host's evaluator [Function] is reached only with the text of
    an expression that is made of digits, [+ - * / ( ) .] and contains an
    opening parenthesis: two hosts that agree on such texts give the same
    result for every formula and every table. *)
Theorem X20_host_reached_only_with_a_parenthesis
    (host1 host2 : string → completion (option num))
    (f : string) (getCellValue : string → option num) :
  (∀ expression,
     Regex.validChars expression = true → noOpening expression = false →
     host1 (FormulaParser.fallbackBody expression)
     = host2 (FormulaParser.fallbackBody expression)) →
  FormulaParser.parse host1 f getCellValue = FormulaParser.parse host2 f getCellValue.
Proof.
  intros Hhost. unfold FormulaParser.parse.
  destruct (negb (JSString.startsWith "=" f)); [done |].
  destruct (JSString.isEmpty _); [done |].
  destruct (FormulaParser.substituteRefs _ _ _) as [ev | msg]; [| done].
  destruct (negb (Regex.validChars (Regex.removeWhiteSpace ev))) eqn:Hv; [done |].
  apply negb_false_iff in Hv.
  destruct (JSString.isEmpty _); [done |].
  assert (FormulaParser.safeEvaluate host1 (Regex.removeWhiteSpace ev)
          = FormulaParser.safeEvaluate host2 (Regex.removeWhiteSpace ev)) as ->; [| done].
  unfold FormulaParser.safeEvaluate.
  destruct (FormulaParser.calculate _) as [r | msg] eqn:Hc; [done |].
  apply Hhost; [done |].
  destruct (noOpening (Regex.removeWhiteSpace ev)) eqn:Hno; [| done].
  destruct (calculate_without_opening _ Hno) as [r Hr]. congruence.
Qed.

Lemma X20_host_reached_only_with_a_parenthesis_witness :
  (∀ expression,
     Regex.validChars expression = true → noOpening expression = false →
     refusingHost (FormulaParser.fallbackBody expression)
     = plainHost (FormulaParser.fallbackBody expression)) ∧
  FormulaParser.parse refusingHost "=(2+3" (Spreadsheet.getCellValue initialCells)
  = FormulaParser.parse plainHost "=(2+3" (Spreadsheet.getCellValue initialCells).
Proof.
  assert (H : ∀ expression,
            Regex.validChars expression = true → noOpening expression = false →
            refusingHost (FormulaParser.fallbackBody expression)
            = plainHost (FormulaParser.fallbackBody expression))
    by (intros expression _ Hno; exact (plainHost_refuses expression Hno)).
  split; [exact H |].
  exact (X20_host_reached_only_with_a_parenthesis refusingHost plainHost "=(2+3"
           (Spreadsheet.getCellValue initialCells) H).
Defined.

(** ** The cells of the grid as components *)

Lemma orEmpty_id (s : string) : (if JSString.isEmpty s then EmptyString else s) = s.
Proof. by destruct s. Qed.

Section Host.

Variable hostFunction : string → completion (option num).

Lemma valueProp_edited (st st' : Spreadsheet.State) (id text : string) :
  Spreadsheet.updateCell hostFunction st id text = Some st' →
  CellComponent.valueProp (Spreadsheet.cells st') id = text.
Proof.
  intros Hu.
  destruct (evaluateCell_is_Some hostFunction (Spreadsheet.cells st)
              (Spreadsheet.dependencyGraph st) id text) as [[r g1] He].
  destruct (updateCell_edited hostFunction st id text r g1 He) as (st1 & H1 & H2 & _).
  rewrite Hu in H1. injection H1 as <-.
  unfold CellComponent.valueProp. unfold cellAt in H2. rewrite H2. simpl.
  apply orEmpty_id.
Qed.

(** X21. Submitting a text through a cell of the grid always succeeds and
    leaves that text as the value of the cell, and submitting the same
    text again changes nothing, because [handleSubmit] passes on to the
    engine only a text that differs from the value the cell holds. *)
Theorem X21_submit_is_idempotent (st : Spreadsheet.State) (id text : string) :
  ∃ st', CellComponent.handleSubmit hostFunction st id text = Some st' ∧
         CellComponent.valueProp (Spreadsheet.cells st') id = text ∧
         CellComponent.handleSubmit hostFunction st' id text = Some st'.
Proof.
  unfold CellComponent.handleSubmit.
  destruct (String.eqb_spec text (CellComponent.valueProp (Spreadsheet.cells st) id))
    as [Heq | Hne]; cbn [negb].
  - exists st. split; [done |]. split; [done |].
    destruct (String.eqb_spec text (CellComponent.valueProp (Spreadsheet.cells st) id));
      done.
  - destruct (updateCell_is_Some hostFunction st id text) as [st' Hu].
    exists st'. split; [done |].
    pose proof (valueProp_edited st st' id text Hu) as Hv. split; [done |].
    rewrite Hv, String.eqb_refl. done.
Qed.

(** X22. In a state reached by edits of the grid a cell that is not being
    edited is rendered with the class of an error exactly when it displays
    [#ERROR] or [#CIRCULAR], and it shows the display text of its record
    as it is. *)
Theorem X22_error_class_marks_the_sentinels (st : Spreadsheet.State) (id : string) :
  reachable hostFunction st → id ∈ cellIds →
  ∃ c, cellAt st id = Some c ∧
       CellComponent.getDisplayValue (CellComponent.displayProp (Spreadsheet.cells st) id)
       = display c ∧
       CellComponent.getCellClass false
         (CellComponent.errorProp (Spreadsheet.cells st) id)
         (CellComponent.displayProp (Spreadsheet.cells st) id)
       = if bool_decide (sentinel (display c)) then "cell error" else "cell".
Proof.
  intros Hr Hid.
  assert (Hc : is_Some (cellAt st id)).
  { clear -Hr Hid. induction Hr as [| st st' cellId text _ IH Hid' Hu].
    - by apply initialCells_total.
    - apply (updateCell_domain hostFunction st st' cellId text id Hu). left. by apply IH. }
  destruct Hc as [c Hc]. exists c. split; [done |].
  destruct (reachable_invariant hostFunction st Hr) as (Hcons & _ & _).
  destruct (Hcons id c Hc) as (_ & Herr & _).
  unfold CellComponent.displayProp, CellComponent.errorProp,
    CellComponent.getDisplayValue, CellComponent.getCellClass.
  unfold cellAt in Hc. rewrite Hc, orEmpty_id. split.
  - destruct (_ || _); [done | apply orEmpty_id].
  - cbv zeta. destruct (bool_decide_reflect (sentinel (display c))) as [Hs | Hs].
    + destruct Hs as [-> | ->]; cbn; by rewrite orb_true_r.
    + assert (error c = None) as ->.
      { destruct (error c) eqn:E; [| done]. exfalso. by apply Hs, Herr. }
      destruct (String.eqb_spec (display c) "#CIRCULAR") as [H | _];
        [exfalso; apply Hs; by right |].
      destruct (String.eqb_spec (display c) "#ERROR") as [H | _];
        [exfalso; apply Hs; by left |].
      reflexivity.
Qed.

End Host.

Lemma X22_error_class_marks_the_sentinels_witness :
  let st := stateAfter refusingHost [("A1", "=A1")] in
  reachable refusingHost st ∧ "A1" ∈ cellIds ∧
  ∃ c, cellAt st "A1" = Some c ∧
       CellComponent.getDisplayValue
         (CellComponent.displayProp (Spreadsheet.cells st) "A1")
       = display c ∧
       CellComponent.getCellClass false
         (CellComponent.errorProp (Spreadsheet.cells st) "A1")
         (CellComponent.displayProp (Spreadsheet.cells st) "A1")
       = if bool_decide (sentinel (display c)) then "cell error" else "cell".
Proof.
  cbv zeta.
  assert (Hr : reachable refusingHost (stateAfter refusingHost [("A1", "=A1")]))
    by (apply stateAfter_reachable; grid_edits).
  assert (Hid : "A1" ∈ cellIds) by grid_cell.
  split; [exact Hr |]. split; [exact Hid |].
  exact (X22_error_class_marks_the_sentinels refusingHost _ "A1" Hr Hid).
Defined.
